(** * The ninja tortoise: a shallow embedding of the layer-voting tally engine

    The Go package [consensus] keeps one [ninjaTortoise] value and a handful
    of package-level opinion vectors that are handed around by pointer.  The
    embedding below follows the source function by function:

    - machine integers are [Z] with the wrap-around written out;
    - [*vec] pointers are addresses into an explicit heap, so that the
      in-place updates done by [Negate] and [Multiplay] are visible through
      every alias;
    - Go maps are [gmap]s; a [range] over a map asks an oracle for the
      order in which the entries are produced, because Go leaves that order
      unspecified;
    - a panic is a result of its own and carries the world it leaves
      behind, since the engine is mutated in place;
    - calls to the logger do not touch the engine and are left out. *)

From stdpp Require Import base gmap sets list sorting.
From Stdlib Require Import ZArith Lia.
From Stdlib Require Strings.Byte.

Local Open Scope Z_scope.

(** ** Machine integers *)

(** [uint32] arithmetic ([mesh.LayerID], [uint32]). *)
Definition wrap32 (z : Z) : Z := z mod 2 ^ 32.

(** [int] arithmetic, taken at its 64-bit width. *)
Definition wrapInt (z : Z) : Z := (z + 2 ^ 63) mod 2 ^ 64 - 2 ^ 63.

Definition maxUint32 : Z := 2 ^ 32 - 1.

(** ** Constants of the package *)

Definition K : Z := 5.
Definition Window : Z := 100.
Definition LocalThreshold : Z := 1.
Definition GlobalThreshold : Z := 1.

(** ** Blocks and patterns *)

Abbreviation BlockID := Z (only parsing).
Abbreviation LayerID := Z (only parsing).

(** Modelled from the spec: [mesh.Block] is declared outside the files at
    hand.  The engine reads four of its fields: the identifier ([ID()]),
    the layer ([Layer()]), the explicit vote edges and the view edges. *)
Record Block := mkBlock {
  Id : BlockID;
  LayerIndex : LayerID;
  BlockVotes : list BlockID;
  ViewEdges : list BlockID
}.

Record votingPattern := mkPattern {
  id : Z;
  Layer : LayerID
}.

#[global] Instance votingPattern_eq_dec : EqDecision votingPattern.
Proof. solve_decision. Defined.

#[global] Instance votingPattern_countable : Countable votingPattern.
Proof.
  refine (inj_countable' (λ p, (id p, Layer p)) (λ q, mkPattern q.1 q.2) _).
  by intros [].
Defined.

(** [ninjaBlock] embeds the block and shadows [BlockVotes] with a map from
    layers to patterns. *)
Record ninjaBlock := mkNinja {
  nbBlock : Block;
  nbVotes : gmap LayerID votingPattern
}.

Definition nbID (b : ninjaBlock) : BlockID := Id (nbBlock b).
Definition nbLayer (b : ninjaBlock) : LayerID := LayerIndex (nbBlock b).

(** ** Opinion vectors and the heap *)

Definition vec : Type := Z * Z.

(** A [*vec]; [None] is [nil]. *)
Abbreviation ptr := (option nat) (only parsing).

(** The three package-level vectors live at fixed addresses. *)
Definition Support : nat := 0%nat.
Definition Against : nat := 1%nat.
Definition Abstain : nat := 2%nat.

Definition initHeap : list vec := [(1, 0); (0, 1); (0, 0)].

(** ** The engine *)

Record ninjaTortoise := mkTortoise {
  LayerSize : Z;
  pBase : votingPattern;
  blocks : gmap BlockID ninjaBlock;
  tEffective : gmap BlockID (option votingPattern);
  tCorrect : gmap BlockID (gmap votingPattern nat);
  layerBlocks : gmap LayerID (list BlockID);
  tExplicit : gmap LayerID (gmap BlockID votingPattern);
  tGood : gmap LayerID votingPattern;
  tSupport : gmap votingPattern Z;
  tPattern : gmap votingPattern (list BlockID);
  tVote : gmap votingPattern (gmap BlockID nat);
  tTally : gmap votingPattern (gmap BlockID nat);
  tComplete : gset votingPattern;
  tEffectiveToBlocks : gmap votingPattern (list BlockID);
  tPatSupport : gmap votingPattern (gmap LayerID votingPattern)
}.

Definition set_pBase (v : votingPattern) (s : ninjaTortoise) : ninjaTortoise :=
  mkTortoise (LayerSize s) v (blocks s) (tEffective s) (tCorrect s)
    (layerBlocks s) (tExplicit s) (tGood s) (tSupport s) (tPattern s)
    (tVote s) (tTally s) (tComplete s) (tEffectiveToBlocks s) (tPatSupport s).

Definition set_blocks (v : gmap BlockID ninjaBlock) (s : ninjaTortoise) : ninjaTortoise :=
  mkTortoise (LayerSize s) (pBase s) v (tEffective s) (tCorrect s)
    (layerBlocks s) (tExplicit s) (tGood s) (tSupport s) (tPattern s)
    (tVote s) (tTally s) (tComplete s) (tEffectiveToBlocks s) (tPatSupport s).

Definition set_tEffective (v : gmap BlockID (option votingPattern)) (s : ninjaTortoise) : ninjaTortoise :=
  mkTortoise (LayerSize s) (pBase s) (blocks s) v (tCorrect s)
    (layerBlocks s) (tExplicit s) (tGood s) (tSupport s) (tPattern s)
    (tVote s) (tTally s) (tComplete s) (tEffectiveToBlocks s) (tPatSupport s).

Definition set_tCorrect (v : gmap BlockID (gmap votingPattern nat)) (s : ninjaTortoise) : ninjaTortoise :=
  mkTortoise (LayerSize s) (pBase s) (blocks s) (tEffective s) v
    (layerBlocks s) (tExplicit s) (tGood s) (tSupport s) (tPattern s)
    (tVote s) (tTally s) (tComplete s) (tEffectiveToBlocks s) (tPatSupport s).

Definition set_layerBlocks (v : gmap LayerID (list BlockID)) (s : ninjaTortoise) : ninjaTortoise :=
  mkTortoise (LayerSize s) (pBase s) (blocks s) (tEffective s) (tCorrect s)
    v (tExplicit s) (tGood s) (tSupport s) (tPattern s)
    (tVote s) (tTally s) (tComplete s) (tEffectiveToBlocks s) (tPatSupport s).

Definition set_tExplicit (v : gmap LayerID (gmap BlockID votingPattern)) (s : ninjaTortoise) : ninjaTortoise :=
  mkTortoise (LayerSize s) (pBase s) (blocks s) (tEffective s) (tCorrect s)
    (layerBlocks s) v (tGood s) (tSupport s) (tPattern s)
    (tVote s) (tTally s) (tComplete s) (tEffectiveToBlocks s) (tPatSupport s).

Definition set_tGood (v : gmap LayerID votingPattern) (s : ninjaTortoise) : ninjaTortoise :=
  mkTortoise (LayerSize s) (pBase s) (blocks s) (tEffective s) (tCorrect s)
    (layerBlocks s) (tExplicit s) v (tSupport s) (tPattern s)
    (tVote s) (tTally s) (tComplete s) (tEffectiveToBlocks s) (tPatSupport s).

Definition set_tSupport (v : gmap votingPattern Z) (s : ninjaTortoise) : ninjaTortoise :=
  mkTortoise (LayerSize s) (pBase s) (blocks s) (tEffective s) (tCorrect s)
    (layerBlocks s) (tExplicit s) (tGood s) v (tPattern s)
    (tVote s) (tTally s) (tComplete s) (tEffectiveToBlocks s) (tPatSupport s).

Definition set_tPattern (v : gmap votingPattern (list BlockID)) (s : ninjaTortoise) : ninjaTortoise :=
  mkTortoise (LayerSize s) (pBase s) (blocks s) (tEffective s) (tCorrect s)
    (layerBlocks s) (tExplicit s) (tGood s) (tSupport s) v
    (tVote s) (tTally s) (tComplete s) (tEffectiveToBlocks s) (tPatSupport s).

Definition set_tVote (v : gmap votingPattern (gmap BlockID nat)) (s : ninjaTortoise) : ninjaTortoise :=
  mkTortoise (LayerSize s) (pBase s) (blocks s) (tEffective s) (tCorrect s)
    (layerBlocks s) (tExplicit s) (tGood s) (tSupport s) (tPattern s)
    v (tTally s) (tComplete s) (tEffectiveToBlocks s) (tPatSupport s).

Definition set_tTally (v : gmap votingPattern (gmap BlockID nat)) (s : ninjaTortoise) : ninjaTortoise :=
  mkTortoise (LayerSize s) (pBase s) (blocks s) (tEffective s) (tCorrect s)
    (layerBlocks s) (tExplicit s) (tGood s) (tSupport s) (tPattern s)
    (tVote s) v (tComplete s) (tEffectiveToBlocks s) (tPatSupport s).

Definition set_tComplete (v : gset votingPattern) (s : ninjaTortoise) : ninjaTortoise :=
  mkTortoise (LayerSize s) (pBase s) (blocks s) (tEffective s) (tCorrect s)
    (layerBlocks s) (tExplicit s) (tGood s) (tSupport s) (tPattern s)
    (tVote s) (tTally s) v (tEffectiveToBlocks s) (tPatSupport s).

Definition set_tEffectiveToBlocks (v : gmap votingPattern (list BlockID)) (s : ninjaTortoise) : ninjaTortoise :=
  mkTortoise (LayerSize s) (pBase s) (blocks s) (tEffective s) (tCorrect s)
    (layerBlocks s) (tExplicit s) (tGood s) (tSupport s) (tPattern s)
    (tVote s) (tTally s) (tComplete s) v (tPatSupport s).

Definition set_tPatSupport (v : gmap votingPattern (gmap LayerID votingPattern)) (s : ninjaTortoise) : ninjaTortoise :=
  mkTortoise (LayerSize s) (pBase s) (blocks s) (tEffective s) (tCorrect s)
    (layerBlocks s) (tExplicit s) (tGood s) (tSupport s) (tPattern s)
    (tVote s) (tTally s) (tComplete s) (tEffectiveToBlocks s) v.

(** Modelled from the spec: the constructor of the engine is not among the
    files at hand.  Every table starts empty and [pBase] is the sentinel
    pattern of layer 0. *)
Definition newNinjaTortoise (layerSize : Z) : ninjaTortoise :=
  mkTortoise layerSize (mkPattern 0 0) ∅ ∅ ∅ ∅ ∅ ∅ ∅ ∅ ∅ ∅ ∅ ∅ ∅.

(** ** Worlds, results, and the monad of the engine *)

(** The heap of opinion vectors, the number of map ranges run so far, and
    the engine behind the receiver [ni]. *)
Record world := mkWorld {
  heap : list vec;
  tick : nat;
  ni : ninjaTortoise
}.

Definition newWorld (layerSize : Z) : world :=
  mkWorld initHeap 0%nat (newNinjaTortoise layerSize).

Inductive failure :=
  | UnknownBlock   (* panic("unknown block!") *)
  | NilDeref       (* a nil pointer is dereferenced *)
  | NilMapWrite    (* assignment to an entry of a nil map *)
  | Diverges       (* a uint32 loop counter can never leave its bound *)
  | OutOfFuel.     (* the traversal was given too few steps *)

#[global] Instance failure_eq_dec : EqDecision failure.
Proof. solve_decision. Defined.

Inductive result (A : Type) :=
  | Ok (a : A) (w : world)
  | Panic (e : failure) (w : world).
Arguments Ok {A} a w.
Arguments Panic {A} e w.

Definition finalWorld {A} (r : result A) : world :=
  match r with Ok _ w => w | Panic _ w => w end.

Definition M (A : Type) : Type := world → result A.

Definition ret {A} (a : A) : M A := λ w, Ok a w.

Definition bind {A B} (m : M A) (k : A → M B) : M B :=
  λ w, match m w with
       | Ok a w' => k a w'
       | Panic e w' => Panic e w'
       end.

Definition fail {A} (e : failure) : M A := λ w, Panic e w.

Declare Scope engine_scope.
Delimit Scope engine_scope with engine.
Notation "x <- m ;; k" := (bind m (λ x, k))
  (at level 100, m at next level, right associativity) : engine_scope.
Notation "m ;;; k" := (bind m (λ _, k))
  (at level 100, right associativity) : engine_scope.
Local Open Scope engine_scope.

(** Reading and updating the engine behind [ni]. *)
Definition getNi : M ninjaTortoise := λ w, Ok (ni w) w.

Definition modifyNi (f : ninjaTortoise → ninjaTortoise) : M unit :=
  λ w, Ok tt (mkWorld (heap w) (tick w) (f (ni w))).

(** [for _, x := range l] over a slice. *)
Fixpoint forEach {A} (l : list A) (body : A → M unit) : M unit :=
  match l with
  | [] => ret tt
  | x :: l' => body x ;;; forEach l' body
  end.

(** A loop that threads the local variables [c] of its enclosing function. *)
Fixpoint foldM {A C} (body : C → A → M C) (l : list A) (c : C) : M C :=
  match l with
  | [] => ret c
  | x :: l' => c' <- body c x ;; foldM body l' c'
  end.

(** The layers [a, a+1, ..., b-1] visited by [for j := a; j < b; j++]. *)
Definition layersBelow (a b : LayerID) : list LayerID := seqZ a (b - a).

(** [for i := a; i <= b; i++] on [uint32]: the body runs on [a..b].  When
    [b] is the largest [uint32] the counter then wraps to 0 and the loop
    starts over instead of ending; the embedding stops there and reports
    [Diverges]. *)
Definition foldLayersUpTo {C} (a b : LayerID) (body : C → LayerID → M C) (c : C) : M C :=
  c' <- foldM body (seqZ a (b - a + 1)) c ;;
  if decide (b = maxUint32) then fail Diverges else ret c'.

(** ** Vector operations (lines 31-53) *)

Definition alloc (v : vec) : M nat :=
  λ w, Ok (length (heap w)) (mkWorld (heap w ++ [v]) (tick w) (ni w)).

Definition load (a : nat) : M vec :=
  λ w, Ok (default (0, 0) (heap w !! a)) w.

Definition store (a : nat) (v : vec) : M unit :=
  λ w, Ok tt (mkWorld (<[a := v]> (heap w)) (tick w) (ni w)).

Definition Add (a v : ptr) : M ptr :=
  match a, v with
  | None, _ => ret v
  | Some _, None => ret a
  | Some pa, Some pv =>
      x <- load pa ;; y <- load pv ;;
      r <- alloc (wrapInt (x.1 + y.1), wrapInt (x.2 + y.2)) ;;
      ret (Some r)
  end.

Definition Negate (a : ptr) : M ptr :=
  match a with
  | None => r <- alloc (0, 0) ;; ret (Some r)
  | Some pa =>
      x <- load pa ;;
      store pa (wrapInt (x.1 * -1), wrapInt (x.2 * -1)) ;;;
      ret (Some pa)
  end.

Definition Multiplay (a : ptr) (x : Z) : M ptr :=
  match a with
  | None => fail NilDeref
  | Some pa =>
      v <- load pa ;;
      store pa (wrapInt (v.1 * x), wrapInt (v.2 * x)) ;;;
      ret (Some pa)
  end.

(** ** Pattern identity (lines 131-140) *)

(** [sort.Slice(bids, func(i, j int) bool { return bids[i] < bids[j] })]:
    the slice ends up in ascending order of the identifiers.  Equal
    identifiers cannot be told apart, so every sorting algorithm leaves the
    same slice. *)
Definition sortIds (bids : list BlockID) : list BlockID := merge_sort Z.le bids.

(** Modelled from the spec: [common.Uint32ToBytes] is declared outside the
    files at hand; the four bytes of the value, most significant first. *)
Definition Uint32ToBytes (x : Z) : list Z :=
  [ (x / 2 ^ 24) mod 256; (x / 2 ^ 16) mod 256; (x / 2 ^ 8) mod 256; x mod 256 ].

(** [hash/fnv]: [fnv.New32()] is the 32-bit FNV-1 hash, whose [Write]
    multiplies by the prime and then xors the byte in. *)
Definition offset32 : Z := 2166136261.
Definition prime32 : Z := 16777619.

Definition fnv32Write (h : Z) (data : list Z) : Z :=
  foldl (λ hash c, Z.lxor (wrap32 (hash * prime32)) c) h data.

Definition getId (bids : list BlockID) : Z :=
  foldl (λ h b, fnv32Write h (Uint32ToBytes (wrap32 b))) offset32 (sortIds bids).

(** The digest as the specification words it: FNV-1a, which xors the byte
    in and then multiplies by the prime. *)
Definition fnv32aWrite (h : Z) (data : list Z) : Z :=
  foldl (λ hash c, wrap32 (Z.lxor hash c * prime32)) h data.

Definition patternId_spec (ids : list BlockID) : Z :=
  foldl (λ h b, fnv32aWrite h (Uint32ToBytes (wrap32 b))) offset32 (sortIds ids).

(** ** Helpers for maps of maps *)

(** [m[k1][k2]] read: a missing outer entry is a nil map, which reads as
    empty. *)
Definition lookup2 `{Countable K1, Countable K2} {V}
    (m : gmap K1 (gmap K2 V)) (k1 : K1) (k2 : K2) : option V :=
  m !! k1 ≫= (.!! k2).

(** A pointer about to be stored in a table.  Every pointer the engine
    stores is the result of an allocation or one of the package-level
    vectors, never nil. *)
Definition nonNil (a : ptr) : M nat :=
  match a with
  | Some pa => ret pa
  | None => fail NilDeref
  end.

(** [ni.tTally[p][b] = a]: writing through a missing (nil) inner map
    panics. *)
Definition writeTally (p : votingPattern) (b : BlockID) (a : nat) : M unit :=
  s <- getNi ;;
  match tTally s !! p with
  | None => fail NilMapWrite
  | Some m => modifyNi (set_tTally (<[p := <[b := a]> m]> (tTally s)))
  end.

(** [if val, found := ni.tTally[p]; !found || val == nil { ni.tTally[p] = make(...) }] *)
Definition ensureTally (p : votingPattern) : M unit :=
  s <- getNi ;;
  match tTally s !! p with
  | None => modifyNi (set_tTally (<[p := ∅]> (tTally s)))
  | Some _ => ret tt
  end.

(** ** processBlock, first loop (lines 95-106) *)

Fixpoint groupVotes (bs : gmap BlockID ninjaBlock) (votes : list BlockID)
    (patterns : gmap LayerID (list BlockID)) : option (gmap LayerID (list BlockID)) :=
  match votes with
  | [] => Some patterns
  | bid :: rest =>
      match bs !! bid with
      | None => None
      | Some b =>
          groupVotes bs rest
            (<[nbLayer b := default [] (patterns !! nbLayer b) ++ [bid]]> patterns)
      end
  end.

(** ** forBlockInView, children of one block (lines 159-166) *)

Definition pushChild (layer : LayerID) (block : ninjaBlock)
    (st : gset BlockID * list BlockID) (bChild : BlockID) : gset BlockID * list BlockID :=
  if nbLayer block >? layer then
    if decide (bChild ∈ st.1) then st else ({[bChild]} ∪ st.1, st.2 ++ [bChild])
  else st.

(** Every identifier that occurs as the target of a view edge of a stored
    block. *)
Definition edgeTargets (bs : gmap BlockID ninjaBlock) : gset BlockID :=
  ⋃ ((λ e, list_to_set (ViewEdges (nbBlock e.2))) <$> map_to_list bs).

(** ** globalOpinion (lines 171-185); [None] is the error result *)

Definition globalOpinion (p : votingPattern) (x : ninjaBlock) : M (option nat) :=
  s <- getNi ;;
  match lookup2 (tTally s) p (nbID x) with
  | None => ret None
  | Some a =>
      v <- load a ;;
      let delta := wrap32 (Layer p - nbLayer x) in
      let threshold := wrap32 (wrap32 (GlobalThreshold * delta) * LayerSize s) in
      if v.1 >? threshold then ret (Some Support)
      else if v.2 >? threshold then ret (Some Against)
      else ret (Some Abstain)
  end.

(** ** updateCorrectionVectors (lines 187-199) *)

Definition updateCorrectionVectors (p : votingPattern) : M unit :=
  s0 <- getNi ;;
  forEach (default [] (tEffectiveToBlocks s0 !! p)) (λ b,
    s1 <- getNi ;;
    forEach (default [] (tPattern s1 !! p)) (λ x,
      s <- getNi ;;
      match lookup2 (tExplicit s) (Layer p) b with
      | Some _ =>
          (match tCorrect s !! x with
           | None => modifyNi (set_tCorrect (<[x := ∅]> (tCorrect s)))
           | Some _ => ret tt
           end) ;;;
          s' <- getNi ;;
          r <- Negate (lookup2 (tVote s') p x) ;;
          a <- nonNil r ;;
          modifyNi (λ s2, set_tCorrect
            (<[x := <[p := a]> (default ∅ (tCorrect s2 !! x))]> (tCorrect s2)) s2)
      | None => ret tt
      end)).

(** ** findMinimalGoodLayer, the pieces (lines 238-290) *)

(** The first layer of the scan.  [math.Max] is taken on [float64] images
    of [uint32] values, which are exact. *)
Definition startLayer (s : ninjaTortoise) (i : LayerID) : LayerID :=
  if i <? Window then wrap32 (Layer (pBase s) + 1)
  else Z.max (wrap32 (Layer (pBase s) + 1)) (wrap32 (i - Window)).

(** [ni.tSupport[p]++] *)
Definition addSupport (p : votingPattern) : M unit :=
  modifyNi (λ s, set_tSupport
    (<[p := wrapInt (default 0 (tSupport s !! p) + 1)]> (tSupport s)) s).

(** The body of the loop over the new blocks (lines 251-271). *)
Definition voteOnLayer (j : LayerID) (sUpdated : gset votingPattern)
    (block : ninjaBlock) : M (gset votingPattern) :=
  s <- getNi ;;
  match nbVotes block !! j with
  | Some p =>
      (match lookup2 (tExplicit s) j (nbID block) with
       | None => modifyNi (set_tExplicit (<[j := ∅]> (tExplicit s)))
       | Some _ => ret tt
       end) ;;;
      modifyNi (λ s1, set_tExplicit
        (<[j := <[nbID block := p]> (default ∅ (tExplicit s1 !! j))]> (tExplicit s1)) s1) ;;;
      addSupport p ;;;
      addSupport p ;;;
      ret ({[p]} ∪ ({[p]} ∪ sUpdated))
  | None =>
      match tEffective s !! nbID block with
      | Some None => fail NilDeref
      | Some (Some eff) =>
          match lookup2 (tPatSupport s) eff j with
          | Some p => addSupport p ;;; ret ({[p]} ∪ sUpdated)
          | None => ret sUpdated
          end
      | None => ret sUpdated
      end
  end.

(** The support test of line 279.  The source compares
    [float64(tSupport[p])] with [0.5 * float64(u)] for a [uint32] value
    [u].  Halving [u] is exact, and rounding an [int] to [float64] is
    monotone and exact up to [2^53], far above any half of a [uint32]; the
    comparison therefore agrees with [2 * tSupport[p] > u] on integers. *)
Definition majority (s : ninjaTortoise) (i : LayerID) (p : votingPattern) : bool :=
  2 * default 0 (tSupport s !! p) >? wrap32 (wrap32 (LayerSize s * i) - Layer p).

(** The body of the loop over the updated patterns (lines 275-286). *)
Definition markGood (i j : LayerID) (minGood : LayerID) (p : votingPattern) : M LayerID :=
  s <- getNi ;;
  if bool_decide (tGood s !! j ≠ Some p) && majority s i p then
    modifyNi (set_tGood (<[Layer p := p]> (tGood s))) ;;;
    ret (if Layer p <? i then Layer p else minGood)
  else ret minGood.

(** ** addPatternVote (lines 292-309) *)

Definition addPatternVote (p : votingPattern) (b : ninjaBlock) : M unit :=
  s <- getNi ;;
  v <- alloc (match lookup2 (tExplicit s) (Layer p) (nbID b) with
              | Some e => if decide (p = e) then (1, 0) else (0, 1)
              | None => (0, 0)
              end) ;;
  ensureTally p ;;;
  s' <- getNi ;;
  t <- Add (lookup2 (tTally s') p (nbID b)) (Some v) ;;
  a <- nonNil t ;;
  writeTally p (nbID b) a.

(** ** sumNodesInView (lines 397-403) *)

Definition sumNodesInView (layerViewCounter : gmap LayerID Z) (i p : LayerID) : M ptr :=
  Multiplay (Some Against)
    (foldl (λ sum k, wrapInt (sum + default 0 (layerViewCounter !! k))) 0 (layersBelow i p)).

Section Engine.

(** The order in which the [n]-th [range] over a map produces its
    entries.  Go promises nothing beyond each entry being produced
    once. *)
Variable rangeOrder : nat → ∀ A : Type, list A → list A.

Definition rangeOver {A} (entries : list A) : M (list A) :=
  λ w, Ok (rangeOrder (tick w) A entries) (mkWorld (heap w) (S (tick w)) (ni w)).

(** *** processBlock (lines 91-129) *)

Definition processBlock (b : Block) : M ninjaBlock :=
  s <- getNi ;;
  match groupVotes (blocks s) (BlockVotes b) ∅ with
  | None => fail UnknownBlock
  | Some patterns =>
      entries <- rangeOver (map_to_list patterns) ;;
      r <- foldM (λ (acc : gmap LayerID votingPattern * option votingPattern)
                    (e : LayerID * list BlockID),
               let vp := mkPattern (getId e.2) e.1 in
               modifyNi (λ s1, set_tPattern (<[vp := sortIds e.2]> (tPattern s1)) s1) ;;;
               ret ({[e.1 := vp]},
                    match acc.2 with
                    | None => Some vp
                    | Some eff => if e.1 >? Layer eff then Some vp else Some eff
                    end))
             entries (∅, None) ;;
      let nb := mkNinja b r.1 in
      modifyNi (λ s1, set_tEffective (<[Id b := r.2]> (tEffective s1)) s1) ;;;
      (match r.2 with
       | Some eff =>
           modifyNi (λ s1, set_tEffectiveToBlocks
             (<[eff := default [] (tEffectiveToBlocks s1 !! eff) ++ [Id b]]>
                (tEffectiveToBlocks s1)) s1)
       | None => ret tt
       end) ;;;
      modifyNi (λ s1, set_blocks (<[Id b := nb]> (blocks s1)) s1) ;;;
      ret nb
  end.

(** *** forBlockInView (lines 142-169)

    [c] stands for the variables the visitor closes over. *)

Fixpoint bfsLoop {C} (fuel : nat) (layer : LayerID) (foo : ninjaBlock → C → M C)
    (queue : list BlockID) (set : gset BlockID) (layerCounter : gmap LayerID Z)
    (c : C) : M (C * gmap LayerID Z) :=
  match queue with
  | [] => ret (c, layerCounter)
  | a :: rest =>
      match fuel with
      | O => fail OutOfFuel
      | S fuel' =>
          s <- getNi ;;
          match blocks s !! a with
          | None => fail NilDeref
          | Some block =>
              let layerCounter' :=
                <[nbLayer block := wrapInt (default 0 (layerCounter !! nbLayer block) + 1)]>
                  layerCounter in
              c' <- foo block c ;;
              let st := foldl (pushChild layer block) (set, rest) (ViewEdges (nbBlock block)) in
              bfsLoop fuel' layer foo st.2 st.1 layerCounter' c'
          end
      end
  end.

Definition forBlockInView {C} (seeds : list BlockID) (layer : LayerID)
    (foo : ninjaBlock → C → M C) (c : C) : M (C * gmap LayerID Z) :=
  s <- getNi ;;
  bfsLoop (length seeds + size (edgeTargets (blocks s))) layer foo (reverse seeds) ∅ ∅ c.

(** *** updatePatternTally (lines 201-234)

    The list [stack] that the source fills first is never read, and the
    parameter [pBase] is only logged; both are left out. *)

Definition countEffective (g : votingPattern) (b : ninjaBlock) (c : ptr * Z) : M (ptr * Z) :=
  s <- getNi ;;
  match tEffective s !! nbID b with
  | Some (Some e) =>
      if decide (e = g) then
        corr <- Add c.1 (lookup2 (tCorrect s) (nbID b) g) ;;
        ret (corr, wrapInt (c.2 + 1))
      else ret c
  | _ => fail NilDeref
  end.

Definition updatePatternTally (g p : votingPattern) : M unit :=
  corr0 <- alloc (0, 0) ;;
  s <- getNi ;;
  r <- forBlockInView (default [] (tPattern s !! p)) (Layer g) (countEffective g)
         (Some corr0, 0) ;;
  let corr := r.1.1 in
  let effCount := r.1.2 in
  s0 <- getNi ;;
  foldLayersUpTo (Layer (pBase s0)) (Layer g) (λ _ i,
    s1 <- getNi ;;
    match layerBlocks s1 !! i with
    | Some layer =>
        forEach layer (λ b,
          s2 <- getNi ;;
          match lookup2 (tVote s2) g b with
          | Some v =>
              let a := lookup2 (tTally s2) p b in
              m <- Multiplay (Some v) effCount ;;
              t <- Add m corr ;;
              tally <- Add a t ;;
              ta <- nonNil tally ;;
              writeTally p b ta
          | None => ret tt
          end)
    | None => ret tt
    end) tt.

(** *** findMinimalGoodLayer (lines 238-290) *)

Definition findMinimalGoodLayer (i : LayerID) (b : list ninjaBlock) : M LayerID :=
  s <- getNi ;;
  foldM (λ minGood j,
      sUpdated <- foldM (voteOnLayer j) b ∅ ;;
      ps <- rangeOver (elements sUpdated) ;;
      foldM (markGood i j) ps minGood)
    (layersBelow (startLayer s i) i) (Layer (pBase s)).

(** *** UpdateTables (lines 311-395) *)

(** Lines 355-383 for one layer [i] between [pBase] and [p]. *)
Definition voteLayer (p : votingPattern) (layerViewCounter : gmap LayerID Z)
    (flag : bool) (i : LayerID) : M bool :=
  s <- getNi ;;
  match layerBlocks s !! i with
  | Some layer =>
      r <- foldM (λ (acc : bool * list BlockID) bid,
               s1 <- getNi ;;
               (match lookup2 (tTally s1) p bid with
                | None =>
                    t <- sumNodesInView layerViewCounter i (Layer p) ;;
                    a <- nonNil t ;;
                    writeTally p bid a
                | Some _ => ret tt
                end) ;;;
               s2 <- getNi ;;
               match blocks s2 !! bid with
               | None => fail NilDeref
               | Some b =>
                   vote <- globalOpinion p b ;;
                   match vote with
                   | Some v =>
                       s3 <- getNi ;;
                       modifyNi (set_tVote
                         (<[p := <[nbID b := v]> (default ∅ (tVote s3 !! p))]> (tVote s3))) ;;;
                       ret (acc.1, acc.2 ++ [bid])
                   | None => ret (false, acc.2)
                   end
               end)
             layer (flag, []) ;;
      s4 <- getNi ;;
      modifyNi (set_tPatSupport
        (<[p := <[i := mkPattern (getId r.2) i]> (default ∅ (tPatSupport s4 !! p))]>
           (tPatSupport s4))) ;;;
      ret r.1
  | None => ret flag
  end.

(** Lines 332-390: the work done for one good pattern [p] of layer [j]. *)
Definition tallyGood (j : LayerID) (p : votingPattern) : M unit :=
  s <- getNi ;;
  entries <- rangeOver (map_to_list (default ∅ (tTally s !! pBase s))) ;;
  forEach entries (λ e, ensureTally p ;;; writeTally p e.1 e.2) ;;;
  s1 <- getNi ;;
  forEach (layersBelow (Layer (pBase s1)) j) (λ k,
    s2 <- getNi ;;
    match tGood s2 !! k with
    | Some gK => updatePatternTally gK p
    | None => ret tt
    end) ;;;
  s3 <- getNi ;;
  r <- forBlockInView (default [] (tPattern s3 !! p)) (Layer (pBase s3))
         (λ b _, addPatternVote p b) tt ;;
  let layerViewCounter := r.2 in
  updateCorrectionVectors p ;;;
  s4 <- getNi ;;
  flag <- foldLayersUpTo (Layer (pBase s4)) j (voteLayer p layerViewCounter) true ;;
  s5 <- getNi ;;
  if flag && bool_decide (p ∉ tComplete s5) then
    modifyNi (λ s6, set_pBase p (set_tComplete ({[p]} ∪ tComplete s6) s6))
  else ret tt.

(** Lines 314-318. *)
Definition insertBlocks (B : list Block) (i : LayerID) : M (list ninjaBlock) :=
  foldM (λ b block,
      nb <- processBlock block ;;
      modifyNi (λ s, set_layerBlocks
        (<[i := default [] (layerBlocks s !! i) ++ [Id block]]> (layerBlocks s)) s) ;;;
      ret (b ++ [nb]))
    B [].

Definition UpdateTables (B : list Block) (i : LayerID) : M LayerID :=
  b <- insertBlocks B i ;;
  if decide (i = 0) then ret 0
  else
    l <- findMinimalGoodLayer i b ;;
    forEach (layersBelow l i) (λ j,
      s <- getNi ;;
      match tGood s !! j with
      | Some p => tallyGood j p
      | None => ret tt
      end) ;;;
    s <- getNi ;;
    ret (Layer (pBase s)).

End Engine.

(** * Notions used to state the properties of the engine *)

(** ** Outcomes of a computation *)

(** [wp m Q R w]: started in [w], [m] ends in a world satisfying [Q] with
    its result, or panics in a world satisfying [R]. *)
Definition wp {A} (m : M A) (Q : A → world → Prop) (R : world → Prop) (w : world) : Prop :=
  match m w with
  | Ok a w' => Q a w'
  | Panic _ w' => R w'
  end.

(** [keeps f m]: whatever [m] does, the part [f] of the engine is the same
    afterwards, also when [m] panics. *)
Definition keeps {X A} (f : ninjaTortoise → X) (m : M A) : Prop :=
  ∀ w, f (ni (finalWorld (m w))) = f (ni w).

(** ** Map iteration orders *)

(** What Go guarantees of a [range] over a map: every entry, once. *)
Definition validOrder (rangeOrder : nat → ∀ A : Type, list A → list A) : Prop :=
  ∀ n A (l : list A), rangeOrder n A l ≡ₚ l.

(** Two orders a run may see: the one in which the finite map lists its
    entries, and the reverse. *)
Definition listedOrder : nat → ∀ A : Type, list A → list A := λ _ _ l, l.
Definition reverseOrder : nat → ∀ A : Type, list A → list A := λ _ _ l, reverse l.

(** ** Runs of the engine *)

(** The world after a sequence of [UpdateTables] calls, each given as its
    blocks and its layer. *)
Definition after (rangeOrder : nat → ∀ A : Type, list A → list A)
    (calls : list (list Block * Z)) (w : world) : world :=
  foldl (λ w c, finalWorld (UpdateTables rangeOrder c.1 c.2 w)) w calls.

(** The worlds an engine can be in: a fresh one, or the one a call leaves
    behind.  Layers are [uint32] values. *)
Inductive reachable (rangeOrder : nat → ∀ A : Type, list A → list A) : world → Prop :=
  | reachable_new layerSize : reachable rangeOrder (newWorld layerSize)
  | reachable_call w B i :
      reachable rangeOrder w → 0 ≤ i ≤ maxUint32 →
      reachable rangeOrder (finalWorld (UpdateTables rangeOrder B i w)).

(** ** The frontier *)

(** The part of the engine the frontier depends on. *)
Definition core (s : ninjaTortoise)
    : votingPattern * gmap Z votingPattern * gmap votingPattern (gmap Z votingPattern) :=
  (pBase s, tGood s, tPatSupport s).

(** The explicit votes kept in a stored block name a pattern of the layer
    they are filed under. *)
Definition votes_wf (nb : ninjaBlock) : Prop :=
  ∀ j p, nbVotes nb !! j = Some p → Layer p = j.

(** Good patterns and supported patterns are filed under their own layer,
    and the frontier is a [uint32] below the largest one. *)
Definition frontier_wf (s : ninjaTortoise) : Prop :=
  (∀ L p, tGood s !! L = Some p → Layer p = L)
  ∧ (∀ p m q, lookup2 (tPatSupport s) p m = Some q → Layer q = m)
  ∧ 0 ≤ Layer (pBase s) < maxUint32.

(** What the frontier promises from one call to the next. *)
Definition above (L0 : Z) (s : ninjaTortoise) : Prop :=
  frontier_wf s ∧ L0 ≤ Layer (pBase s).

(** ** Views *)

(** The blocks in the view of [seeds] down to layer [L]: a seed is in the
    view, and so is every view-edge target of a block in the view whose
    layer is above [L]. *)
Inductive inView (bs : gmap Z ninjaBlock) (seeds : list Z) (L : Z) : Z → Prop :=
  | inView_seed a : a ∈ seeds → inView bs seeds L a
  | inView_edge a nb c :
      inView bs seeds L a → bs !! a = Some nb → L < nbLayer nb →
      c ∈ ViewEdges (nbBlock nb) → inView bs seeds L c.

(** The traversal of [forBlockInView] without its visitor: the blocks in
    the order they are handed to the visitor, and how the loop ends. *)
Fixpoint bfsTrace (fuel : nat) (bs : gmap Z ninjaBlock) (layer : Z)
    (queue : list Z) (set : gset Z) (layerCounter : gmap Z Z)
    : list (Z * ninjaBlock) * (failure + gmap Z Z) :=
  match queue with
  | [] => ([], inr layerCounter)
  | a :: rest =>
      match fuel with
      | O => ([], inl OutOfFuel)
      | S fuel' =>
          match bs !! a with
          | None => ([], inl NilDeref)
          | Some block =>
              let layerCounter' :=
                <[nbLayer block := wrapInt (default 0 (layerCounter !! nbLayer block) + 1)]>
                  layerCounter in
              let st := foldl (pushChild layer block) (set, rest) (ViewEdges (nbBlock block)) in
              let r := bfsTrace fuel' bs layer st.2 st.1 layerCounter' in
              ((a, block) :: r.1, r.2)
          end
      end
  end.

(** Running a visitor along a trace. *)
Definition visitAll {C} (foo : ninjaBlock → C → M C) (trace : list (Z * ninjaBlock))
    (c : C) : M C :=
  foldM (λ c x, foo x.2 c) trace c.

Definition finish {C} (outcome : failure + gmap Z Z) (c : C) : M (C * gmap Z Z) :=
  match outcome with
  | inl e => fail e
  | inr layerCounter => ret (c, layerCounter)
  end.

(** A visitor that writes down the identifier of each block it is given. *)
Definition logVisit (b : ninjaBlock) (log : list Z) : M (list Z) :=
  ret (log ++ [nbID b]).

(** The number of blocks of layer [l] in a trace, and a counter that holds
    these numbers as Go [int]s. *)
Definition layerCount (l : Z) (trace : list (Z * ninjaBlock)) : nat :=
  length (filter (λ x, nbLayer x.2 = l) trace).

Definition counts (cnt : gmap Z Z) (trace : list (Z * ninjaBlock)) : Prop :=
  ∀ l, cnt !! l = if decide (layerCount l trace = 0%nat) then None
                  else Some (wrapInt (Z.of_nat (layerCount l trace))).

(** The invariant of the loop of [forBlockInView]: [visited] has been
    handed to the visitor, [queue] is waiting, [set] holds the children
    pushed so far. *)
Record bfsInv (bs : gmap Z ninjaBlock) (seeds : list Z) (L : Z)
    (visited : list (Z * ninjaBlock)) (queue : list Z) (set : gset Z)
    (cnt : gmap Z Z) (fuel : nat) : Prop := {
  inv_nodup : NoDup (visited.*1 ++ queue);
  inv_sound : ∀ x, x ∈ visited.*1 ++ queue → inView bs seeds L x;
  inv_seeds : ∀ x, x ∈ seeds → x ∈ visited.*1 ++ queue;
  inv_origin : ∀ x, x ∈ visited.*1 ++ queue → x ∈ seeds ∨ x ∈ set;
  inv_set : ∀ x, x ∈ set → x ∈ visited.*1 ++ queue;
  inv_closed : ∀ a nb c,
    (a, nb) ∈ visited → L < nbLayer nb → c ∈ ViewEdges (nbBlock nb) → c ∈ set;
  inv_known : ∀ a nb, (a, nb) ∈ visited → bs !! a = Some nb;
  inv_targets : set ⊆ edgeTargets bs;
  inv_fuel : (length queue + size (edgeTargets bs ∖ set) ≤ fuel)%nat;
  inv_counts : counts cnt visited
}.
Arguments inv_nodup {_ _ _ _ _ _ _ _} _.
Arguments inv_sound {_ _ _ _ _ _ _ _} _.
Arguments inv_seeds {_ _ _ _ _ _ _ _} _.
Arguments inv_origin {_ _ _ _ _ _ _ _} _.
Arguments inv_set {_ _ _ _ _ _ _ _} _.
Arguments inv_closed {_ _ _ _ _ _ _ _} _.
Arguments inv_known {_ _ _ _ _ _ _ _} _.
Arguments inv_targets {_ _ _ _ _ _ _ _} _.
Arguments inv_fuel {_ _ _ _ _ _ _ _} _.
Arguments inv_counts {_ _ _ _ _ _ _ _} _.

(** ** Termination and completeness *)

(** [fuelSafe m]: [m] never stops for lack of steps. *)
Definition fuelSafe {A} (m : M A) : Prop := ∀ w w', m w ≠ Panic OutOfFuel w'.

(** Every stored block is filed under its own identifier. *)
Definition blocks_keyed (s : ninjaTortoise) : Prop :=
  ∀ a nb, blocks s !! a = Some nb → nbID nb = a.

(** The block store and the set of complete patterns. *)
Definition storeAndComplete (s : ninjaTortoise) : gmap Z ninjaBlock * gset votingPattern :=
  (blocks s, tComplete s).

(** [loopSafe m]: no counter of [m] wraps around. *)
Definition loopSafe {A} (m : M A) : Prop := ∀ w w', m w ≠ Panic Diverges w'.

(** Good patterns are filed under their own layer. *)
Definition goodFiled (s : ninjaTortoise) : Prop :=
  ∀ L p, tGood s !! L = Some p → Layer p = L.

(** [loopSafeWhen m]: the same, from a world whose good patterns are filed
    under their own layer. *)
Definition loopSafeWhen {A} (m : M A) : Prop :=
  ∀ w w', goodFiled (ni w) → m w ≠ Panic Diverges w'.

(** ** Bytes *)

Definition isByte (c : Z) : Prop := 0 ≤ c < 256.

(** ** Concrete runs *)

(** A chain: one block per layer, each voting for and seeing the block
    below it. *)
Definition genesis10 : Block := mkBlock 10 0 [] [].
Definition block11 : Block := mkBlock 11 1 [10] [10].
Definition block12 : Block := mkBlock 12 2 [11] [11].
Definition block13 : Block := mkBlock 13 3 [12] [12].

Definition chain2 : list (list Block * Z) := [([genesis10], 0); ([block11], 1)].
Definition chain3 : list (list Block * Z) := chain2 ++ [([block12], 2)].
Definition chain4 : list (list Block * Z) := chain3 ++ [([block13], 3)].

(** The patterns made of block 10, of block 11 and of block 13 alone. *)
Definition pattern10 : votingPattern := mkPattern (getId [10]) 0.
Definition pattern11 : votingPattern := mkPattern (getId [11]) 1.
Definition pattern13 : votingPattern := mkPattern (getId [13]) 3.

(** Three blocks of layer 4 that all vote for block 13. *)
Definition voters4 : list Block :=
  [mkBlock 14 4 [13] [13]; mkBlock 15 4 [13] [13]; mkBlock 16 4 [13] [13]].

(** Two blocks of layer 2 that both vote for block 11. *)
Definition voters2 : list Block := [mkBlock 12 2 [11] [11]; mkBlock 13 2 [11] [11]].

(** A block of layer 2 with vote edges into layers 0 and 1. *)
Definition twoLayerVoter : Block := mkBlock 12 2 [10; 11] [11].

(** Layer 1 with a second block, 21, that nobody votes for. *)
Definition wideLayer1 : list (list Block * Z) :=
  [([genesis10], 0); ([block11; mkBlock 21 1 [10] [10]], 1)].

(** A block whose view edge names an identifier that was never inserted. *)
Definition danglingView : Block := mkBlock 10 0 [] [99].

(** A block whose vote edge names an identifier that was never inserted. *)
Definition danglingVote : Block := mkBlock 11 1 [99] [].

(** Blocks 1, 5 and 7 in layers 0, 1 and 2, each seeing the one below. *)
Definition ladder : list (list Block * Z) :=
  [([mkBlock 1 0 [] []], 0); ([mkBlock 5 1 [1] [1]], 1); ([mkBlock 7 2 [5] [5]], 2)].

(** * Further notions about the engine *)

(** A Go [int]. *)
Definition isInt (z : Z) : Prop := - 2 ^ 63 ≤ z < 2 ^ 63.

(** Between two heaps: every vector of the first is still there in the
    second, and a component that was 0 is still 0. *)
Definition zerosKept (h h' : list vec) : Prop :=
  ∀ a v, h !! a = Some v →
    ∃ v', h' !! a = Some v' ∧ (v.1 = 0 → v'.1 = 0) ∧ (v.2 = 0 → v'.2 = 0).

(** [scalesOnly m]: whatever [m] does to the vectors that exist when it
    starts, it keeps them and keeps their zero components. *)
Definition scalesOnly {A} (m : M A) : Prop :=
  ∀ w, zerosKept (heap w) (heap (finalWorld (m w))).

(** The vote edges of a block that lead into layer [l], in the order of
    the block. *)
Definition votesInLayer (bs : gmap Z ninjaBlock) (l : Z) (votes : list Z) : list Z :=
  filter (λ bid, nbLayer <$> bs !! bid = Some l) votes.

(** The pattern that [processBlock] makes of the vote edges of one layer. *)
Definition patternOf (e : Z * list Z) : votingPattern := mkPattern (getId e.2) e.1.

(** One round of the second loop of [processBlock] (lines 108-116) on its
    local variables: the votes kept for the block and the effective
    pattern. *)
Definition keepVote (acc : gmap Z votingPattern * option votingPattern) (e : Z * list Z)
    : gmap Z votingPattern * option votingPattern :=
  ({[e.1 := patternOf e]},
   match acc.2 with
   | None => Some (patternOf e)
   | Some eff => if e.1 >? Layer eff then Some (patternOf e) else Some eff
   end).

(** The tables that only the insertion of blocks writes. *)
Definition structure (s : ninjaTortoise)
    : Z * gmap Z ninjaBlock * gmap Z (option votingPattern) * gmap Z (list Z)
      * gmap votingPattern (list Z) * gmap votingPattern (list Z) :=
  (LayerSize s, blocks s, tEffective s, layerBlocks s, tPattern s, tEffectiveToBlocks s).

(** The tables of the vote count, which the insertion of blocks leaves
    alone. *)
Definition voteTables (s : ninjaTortoise) :=
  (pBase s, tCorrect s, tExplicit s, tGood s, tSupport s, tVote s, tTally s,
   tComplete s, tPatSupport s).

(** The first statement of the body of that loop (line 110): the pattern
    is registered with its blocks, which [getId] has sorted in place. *)
Definition registerPattern (s : ninjaTortoise) (e : Z * list Z) : ninjaTortoise :=
  set_tPattern (<[patternOf e := sortIds e.2]> (tPattern s)) s.

(** Lines 117-127 on the engine, for the block [b] and the outcome [r] of
    the loop. *)
Definition storeBlock (b : Block) (r : gmap Z votingPattern * option votingPattern)
    (s : ninjaTortoise) : ninjaTortoise :=
  let s0 := set_tEffective (<[Id b := r.2]> (tEffective s)) s in
  let s1 := match r.2 with
            | Some eff =>
                set_tEffectiveToBlocks
                  (<[eff := default [] (tEffectiveToBlocks s0 !! eff) ++ [Id b]]>
                     (tEffectiveToBlocks s0)) s0
            | None => s0
            end in
  set_blocks (<[Id b := mkNinja b r.1]> (blocks s1)) s1.

(** Line 317 for the block [a]. *)
Definition fileUnder (i : Z) (s : ninjaTortoise) (a : Z) : ninjaTortoise :=
  set_layerBlocks (<[i := default [] (layerBlocks s !! i) ++ [a]]> (layerBlocks s)) s.

(** Every registered pattern stands for a list of stored blocks that is
    not empty, is in ascending order and hashes to the identifier of the
    pattern. *)
Definition patterns_wf (s : ninjaTortoise) : Prop :=
  ∀ p l, tPattern s !! p = Some l →
    l ≠ [] ∧ Sorted Z.le l ∧ id p = getId l ∧ ∀ b, b ∈ l → is_Some (blocks s !! b).

(** The tables that index blocks name stored blocks only, every stored
    block has an effective pattern (perhaps nil), and a block is filed
    under its effective pattern, which is registered. *)
Definition indexes_wf (s : ninjaTortoise) : Prop :=
  (∀ i l b, layerBlocks s !! i = Some l → b ∈ l → is_Some (blocks s !! b))
  ∧ (∀ p l b, tEffectiveToBlocks s !! p = Some l → b ∈ l → is_Some (blocks s !! b))
  ∧ (∀ b, is_Some (tEffective s !! b) ↔ is_Some (blocks s !! b))
  ∧ (∀ b p, tEffective s !! b = Some (Some p) →
       is_Some (tPattern s !! p) ∧ ∃ l, tEffectiveToBlocks s !! p = Some l ∧ b ∈ l).

(** The frontier, the complete patterns and the good patterns. *)
Definition frontierTables (s : ninjaTortoise)
    : votingPattern * gset votingPattern * gmap Z votingPattern :=
  (pBase s, tComplete s, tGood s).

(** The frontier is the pattern the engine starts with, or a complete
    pattern that is the good pattern of its layer. *)
Definition frontier_settled (s : ninjaTortoise) : Prop :=
  pBase s = pBase (newNinjaTortoise (LayerSize s))
  ∨ (pBase s ∈ tComplete s ∧ tGood s !! Layer (pBase s) = Some (pBase s)).

(** What the scan of [findMinimalGoodLayer] has done when it returns
    [mg], in terms of the world [w] it started from: nothing, or [mg] is a
    scanned layer whose good pattern it has written, that pattern passes
    the support test, and no good pattern of a higher layer was written. *)
Definition lastMarked (i : Z) (w : world) (mg : Z) (w' : world) : Prop :=
  (mg = Layer (pBase (ni w)) ∧ tGood (ni w') = tGood (ni w))
  ∨ (startLayer (ni w) i ≤ mg < i
     ∧ (∃ p, tGood (ni w') !! mg = Some p ∧ Layer p = mg ∧ majority (ni w') i p = true)
     ∧ ∀ L, mg < L → tGood (ni w') !! L = tGood (ni w) !! L).

(** One of the three package-level vectors. *)
Definition isShared (a : nat) : Prop := a = Support ∨ a = Against ∨ a = Abstain.

(** A block of layer 2 that sees block 11 and votes for nothing. *)
Definition silent12 : Block := mkBlock 12 2 [] [11].

(** Block 12 as [processBlock] stores it after the chain of blocks 10 and
    11. *)
Definition stored12 : ninjaBlock := mkNinja block12 {[1 := pattern11]}.

(** The pattern made of block 12 alone. *)
Definition pattern12 : votingPattern := mkPattern (getId [12]) 2.

(** * The proposal tracker of the hare protocol (hare/proposaltracker.go) *)

(** [bytes.Compare]: the lexicographic order on byte slices, as -1, 0 or
    +1; a nil slice is an empty one. *)
Fixpoint bytesCompare (a b : list Byte.byte) : Z :=
  match a, b with
  | [], [] => 0
  | [], _ :: _ => -1
  | _ :: _, [] => 1
  | x :: a', y :: b' =>
      match N.compare (Byte.to_N x) (Byte.to_N y) with
      | Lt => -1
      | Gt => 1
      | Eq => bytesCompare a' b'
      end
  end.

(** [bytes.Equal] *)
Fixpoint bytesEqual (a b : list Byte.byte) : bool :=
  match a, b with
  | [], [] => true
  | x :: a', y :: b' => Byte.eqb x y && bytesEqual a' b'
  | _, _ => false
  end.

(** The fields of [pb.HareMessage] that the tracker reads.  The inner
    message is reached through a pointer, which may be nil. *)
Record InnerMessage := mkInner {
  Values : list (list Byte.byte);
  RoleProof : list Byte.byte
}.

Record HareMessage := mkHare {
  PubKey : list Byte.byte;
  Message : option InnerMessage
}.

(** The tracker; [proposal] is a [*pb.HareMessage], [None] is nil. *)
Record ProposalTracker := mkTracker {
  proposal : option HareMessage;
  isConflicting : bool
}.


(** How a method of the tracker ends: it returns, or it dereferences a
    nil pointer, which it can only do before it has written anything. *)
Inductive outcome (A : Type) :=
  | Returns (a : A)
  | NilPanic.
Arguments Returns {A} a.
Arguments NilPanic {A}.

Section Hare.

(** [Set], [NewSet] and [Equals] are declared outside the files at hand;
    nothing is assumed of them. *)
Variable hareSet : Type.
Variable NewSet : list (list Byte.byte) → hareSet.
Variable Equals : hareSet → hareSet → bool.

(** Lines 39-45 and 66-72: the check for equivocation, [msg] first. *)
Definition equivocates (msg cur : HareMessage) : outcome bool :=
  match Message msg, Message cur with
  | Some m, Some c => Returns (negb (Equals (NewSet (Values m)) (NewSet (Values c))))
  | _, _ => NilPanic
  end.

(** [bytes.Compare(msg.Message.RoleProof, pt.proposal.Message.RoleProof)]
    (lines 51 and 77). *)
Definition compareRoleProofs (msg cur : HareMessage) : outcome Z :=
  match Message msg, Message cur with
  | Some m, Some c => Returns (bytesCompare (RoleProof m) (RoleProof c))
  | _, _ => NilPanic
  end.


(** Lines 59-81. *)
Definition OnLateProposal (msg : option HareMessage) (pt : ProposalTracker)
    : outcome ProposalTracker :=
  match proposal pt with
  | None => Returns pt
  | Some cur =>
      match msg with
      | None => NilPanic
      | Some m =>
          match (if bytesEqual (PubKey cur) (PubKey m) then
                   match equivocates m cur with
                   | Returns true => Returns (mkTracker (proposal pt) true)
                   | Returns false => Returns pt
                   | NilPanic => NilPanic
                   end
                 else Returns pt) with
          | Returns pt1 =>
              match compareRoleProofs m cur with
              | Returns c =>
                  if c <? 0 then Returns (mkTracker (proposal pt1) true) else Returns pt1
              | NilPanic => NilPanic
              end
          | NilPanic => NilPanic
          end
      end
  end.

(** Lines 83-85. *)
Definition IsConflicting (pt : ProposalTracker) : bool := isConflicting pt.

(** Lines 87-97.  The result is a [*Set]; [None] is nil. *)
Definition ProposedSet (pt : ProposalTracker) : outcome (option hareSet) :=
  match proposal pt with
  | None => Returns None
  | Some cur =>
      if isConflicting pt then Returns None
      else match Message cur with
           | Some c => Returns (Some (NewSet (Values c)))
           | None => NilPanic
           end
  end.

(** A sequence of calls of one method, each on the tracker the call
    before it has left. *)
Fixpoint onEach (method : option HareMessage → ProposalTracker → outcome ProposalTracker)
    (msgs : list HareMessage) (pt : ProposalTracker) : outcome ProposalTracker :=
  match msgs with
  | [] => Returns pt
  | m :: rest =>
      match method (Some m) pt with
      | Returns pt' => onEach method rest pt'
      | NilPanic => NilPanic
      end
  end.

End Hare.

(** ** Concrete proposals *)

(** Two leaders: the role proof of the second is the lower one. *)
Definition leaderA : HareMessage :=
  mkHare [Byte.x61] (Some (mkInner [[Byte.x01]] [Byte.x02])).
Definition leaderB : HareMessage :=
  mkHare [Byte.x62] (Some (mkInner [[Byte.x03]] [Byte.x01])).

(** Sets of values as lists, equal when each holds the values of the
    other; one way to fill in [NewSet] and [Equals] for the runs. *)
Definition sameValues (s g : list (list Byte.byte)) : bool :=
  forallb (λ v, existsb (bytesEqual v) g) s && forallb (λ v, existsb (bytesEqual v) s) g.

(** * The connection pool (p2p connection pool) *)

(** Bytes as keys of maps.  A Go [string] is a sequence of bytes. *)
#[global] Instance byte_eq_dec : EqDecision Byte.byte :=
  λ x y,
    match Byte.eqb x y as b return Byte.eqb x y = b → Decision (x = y) with
    | true => λ H, left (Byte.byte_dec_bl x y H)
    | false => λ H, right (Byte.eqb_false H)
    end eq_refl.

#[global] Instance byte_countable : Countable Byte.byte.
Proof.
  refine (inj_countable' Byte.to_N (λ n, default Byte.x00 (Byte.of_N n)) _).
  intros x. by rewrite Byte.of_to_N.
Defined.

(** What the pool reads of a [net.Connection]: its identifier ([ID()]),
    the bytes of its session identifier ([Session().ID().Bytes()]) and the
    string of the public key of the remote node
    ([RemotePublicKey().String()]). *)
Record Connection := mkConn {
  connID : list Byte.byte;
  sessionID : list Byte.byte;
  RemotePublicKey : list Byte.byte
}.

(** The errors the pool hands out: its own two, and whatever [Dial]
    returned. *)
Inductive poolError :=
  | ErrShutDown         (* "ConnectionPool was shut down" *)
  | ErrNoConnection     (* "no connection in cpool" *)
  | ErrDial (e : list Byte.byte).

Record dialResult := mkDial {
  conn : option Connection;
  err : option poolError
}.

(** [net.ConnectionSource]; the pool only logs it. *)
Inductive ConnectionSource := Local | Remote.

(** What the pool does to the world around it: it closes a connection,
    sends a result on a channel of [pending], or starts a goroutine that
    dials. *)
Inductive poolEvent :=
  | Closes (c : Connection)
  | Sends (ch : nat) (r : dialResult)
  | Dials (address remotePub : list Byte.byte).

(** The pool.  Public keys stand as their strings, channels as the
    order in which they were made, and [connMutex] as the number of
    goroutines that hold its read lock; [pendMutex] is released by every
    path that takes it and is left out. *)
Record ConnectionPool := mkPool {
  connections : gmap (list Byte.byte) Connection;
  pending : gmap (list Byte.byte) (list nat);
  shutdown : bool;
  readers : nat;
  channels : nat
}.

Definition set_connections (v : gmap (list Byte.byte) Connection) (cp : ConnectionPool)
    : ConnectionPool :=
  mkPool v (pending cp) (shutdown cp) (readers cp) (channels cp).

Definition set_pending (v : gmap (list Byte.byte) (list nat)) (cp : ConnectionPool)
    : ConnectionPool :=
  mkPool (connections cp) v (shutdown cp) (readers cp) (channels cp).

Definition set_readers (v : nat) (cp : ConnectionPool) : ConnectionPool :=
  mkPool (connections cp) (pending cp) (shutdown cp) v (channels cp).

Definition set_channels (v : nat) (cp : ConnectionPool) : ConnectionPool :=
  mkPool (connections cp) (pending cp) (shutdown cp) (readers cp) v.

(** A pool as [NewConnectionPool] makes it (lines 46-62). *)
Definition NewConnectionPool : ConnectionPool := mkPool ∅ ∅ false 0 0.

(** How a method ends when it runs without another goroutine in between:
    with a result, the pool it leaves and what it did, or waiting for the
    write lock of [connMutex] while a read lock is held. *)
Inductive poolOutcome (A : Type) :=
  | Done (a : A) (cp : ConnectionPool) (events : list poolEvent)
  | Blocked.
Arguments Done {A} a cp events.
Arguments Blocked {A}.

(** [cp.connMutex.Lock()] ... [cp.connMutex.Unlock()] around [body]. *)
Definition withLock {A} (cp : ConnectionPool) (body : poolOutcome A) : poolOutcome A :=
  match readers cp with
  | O => body
  | S _ => Blocked
  end.

(** Lines 92-99. *)
Definition handleDialResult (rPub : list Byte.byte) (result : dialResult)
    (cp : ConnectionPool) : poolOutcome unit :=
  Done tt (set_pending (delete rPub (pending cp)) cp)
    ((λ p, Sends p result) <$> default [] (pending cp !! rPub)).

(** Lines 101-103. *)
Definition compareConnections (conn1 conn2 : Connection) : Z :=
  bytesCompare (sessionID conn1) (sessionID conn2).

(** Lines 105-150. *)
Definition handleNewConnection (rPub : list Byte.byte) (newConn : Connection)
    (source : ConnectionSource) (cp : ConnectionPool) : poolOutcome unit :=
  withLock cp
    match connections cp !! rPub with
    | Some curConn =>
        if compareConnections curConn newConn <=? 0 then
          Done tt (set_connections (<[rPub := newConn]> (connections cp)) cp) [Closes curConn]
        else Done tt cp [Closes newConn]
    | None =>
        handleDialResult rPub (mkDial (Some newConn) None)
          (set_connections (<[rPub := newConn]> (connections cp)) cp)
    end.

(** Lines 152-162. *)
Definition handleClosedConnection (c : Connection) (cp : ConnectionPool) : poolOutcome unit :=
  withLock cp
    match connections cp !! RemotePublicKey c with
    | Some cur =>
        if decide (connID cur = connID c) then
          Done tt (set_connections (delete (RemotePublicKey c) (connections cp)) cp) []
        else Done tt cp []
    | None => Done tt cp []
    end.

(** What a caller of [GetConnection] or [GetConnectionIfExists] gets: an
    answer at once, or a channel of its own to wait on. *)
Inductive request :=
  | Answers (r : dialResult)
  | Awaits (ch : nat).

(** Lines 165-198, up to the wait on the channel.  The read lock is
    taken at the start and given back on every path. *)
Definition GetConnection (address remotePub : list Byte.byte) (cp : ConnectionPool)
    : poolOutcome request :=
  if shutdown cp then Done (Answers (mkDial None (Some ErrShutDown))) cp []
  else
    match connections cp !! remotePub with
    | Some c => Done (Answers (mkDial (Some c) None)) cp []
    | None =>
        let pendChan := channels cp in
        let cp1 := set_channels (S (channels cp)) cp in
        let cp2 := set_pending (<[remotePub := default [] (pending cp !! remotePub) ++ [pendChan]]>
                                  (pending cp)) cp1 in
        Done (Awaits pendChan) cp2
          (match pending cp !! remotePub with
           | Some _ => []
           | None => [Dials address remotePub]
           end)
    end.

(** The goroutine of lines 186-195, once [Dial] has returned. *)
Definition dialReturns (remotePub : list Byte.byte) (r : Connection + list Byte.byte)
    (cp : ConnectionPool) : poolOutcome unit :=
  match r with
  | inr e => handleDialResult remotePub (mkDial None (Some (ErrDial e))) cp
  | inl c => handleNewConnection remotePub c Local cp
  end.

(** Lines 210-234, up to the wait on the channel.  The path of line 228
    returns without giving the read lock back. *)
Definition GetConnectionIfExists (remotePub : list Byte.byte) (cp : ConnectionPool)
    : poolOutcome request :=
  if shutdown cp then Done (Answers (mkDial None (Some ErrShutDown))) cp []
  else
    match connections cp !! remotePub with
    | Some c => Done (Answers (mkDial (Some c) None)) cp []
    | None =>
        match pending cp !! remotePub with
        | None =>
            Done (Answers (mkDial None (Some ErrNoConnection)))
              (set_readers (S (readers cp)) cp) []
        | Some waiting =>
            let pendChan := channels cp in
            let cp1 := set_channels (S (channels cp)) cp in
            Done (Awaits pendChan)
              (set_pending (<[remotePub := waiting ++ [pendChan]]> (pending cp)) cp1) []
        end
    end.

(** [GetConnection] called once per address of [addresses], all for the
    same remote node; the result lists what each caller got. *)
Fixpoint getConnections (addresses : list (list Byte.byte)) (remotePub : list Byte.byte)
    (cp : ConnectionPool) : poolOutcome (list request) :=
  match addresses with
  | [] => Done [] cp []
  | address :: rest =>
      match GetConnection address remotePub cp with
      | Done r cp1 events1 =>
          match getConnections rest remotePub cp1 with
          | Done rs cp2 events2 => Done (r :: rs) cp2 (events1 ++ events2)
          | Blocked => Blocked
          end
      | Blocked => Blocked
      end
  end.

(** Of two connections, the one whose session identifier is the greater
    in the order of [bytes.Compare], and the other one. *)
Definition greater (c1 c2 : Connection) : Connection :=
  if compareConnections c1 c2 <=? 0 then c2 else c1.

Definition lesser (c1 c2 : Connection) : Connection :=
  if compareConnections c1 c2 <=? 0 then c1 else c2.

(** One method after another. *)
Definition andThen {A B} (m : poolOutcome A) (k : A → ConnectionPool → poolOutcome B)
    : poolOutcome B :=
  match m with
  | Done a cp events =>
      match k a cp with
      | Done b cp' events' => Done b cp' (events ++ events')
      | Blocked => Blocked
      end
  | Blocked => Blocked
  end.

(** ** Concrete connections *)

(** Two connections to the node with key "p"; the session identifier of
    the second is the greater one. *)
Definition peerKey : list Byte.byte := [Byte.x70].
Definition connA : Connection := mkConn [Byte.x41] [Byte.x01] peerKey.
Definition connB : Connection := mkConn [Byte.x42] [Byte.x02] peerKey.


(** * Proofs *)

#[local] Set Warnings "-clear-no-such-hyp".

(** * Reasoning about engine computations *)


Lemma wp_bind {A B} (m : M A) (k : A → M B) Q R w :
  wp m (λ a, wp (k a) Q R) R w → wp (bind m k) Q R w.
Proof. unfold wp, bind. by destruct (m w). Qed.

Lemma wp_mono {A} (m : M A) (Q Q' : A → world → Prop) (R R' : world → Prop) w :
  wp m Q R w → (∀ a w', Q a w' → Q' a w') → (∀ w', R w' → R' w') → wp m Q' R' w.
Proof. unfold wp. destruct (m w); eauto. Qed.

Lemma wp_foldM {A C} (body : C → A → M C) (I : C → world → Prop) R l c w :
  I c w →
  (∀ c x w, x ∈ l → I c w → wp (body c x) I R w) →
  wp (foldM body l c) I R w.
Proof.
  revert c w. induction l as [|x l IH]; intros c w HI Hbody; [done|].
  simpl. apply wp_bind. eapply wp_mono; [apply Hbody; [left|done]| |done].
  intros c' w' HI'. apply IH; [done|]. intros ????. apply Hbody. by right.
Qed.

Lemma wp_forEach {A} (body : A → M unit) (I : world → Prop) R l w :
  I w →
  (∀ x w, x ∈ l → I w → wp (body x) (λ _, I) R w) →
  wp (forEach l body) (λ _, I) R w.
Proof.
  revert w. induction l as [|x l IH]; intros w HI Hbody; [done|].
  simpl. apply wp_bind. eapply wp_mono; [apply Hbody; [left|done]| |done].
  intros ? w' HI'. apply IH; [done|]. intros ???. apply Hbody. by right.
Qed.

Lemma wp_Ok {A} (m : M A) Q R w a w' : wp m Q R w → m w = Ok a w' → Q a w'.
Proof. unfold wp. intros H Heq. by rewrite Heq in H. Qed.

Lemma foldM_app {A C} (body : C → A → M C) l1 l2 c w :
  foldM body (l1 ++ l2) c w = bind (foldM body l1 c) (foldM body l2) w.
Proof.
  revert c w. induction l1 as [|x l1 IH]; intros c w; simpl; [reflexivity|].
  unfold bind. destruct (body c x w) as [c' w'|e w']; [|reflexivity].
  rewrite IH. reflexivity.
Qed.

(** * processBlock *)

Lemma groupVotes_None bs votes patterns :
  groupVotes bs votes patterns = None ↔ ∃ bid, bid ∈ votes ∧ bs !! bid = None.
Proof.
  revert patterns. induction votes as [|bid rest IH]; intros patterns; simpl.
  - split; [done|]. intros (? & H & _). by apply elem_of_nil in H.
  - destruct (bs !! bid) as [b|] eqn:Hb.
    + rewrite IH. split; intros (x & Hx & Hn); exists x; (split; [|done]).
      * by right.
      * apply elem_of_cons in Hx as [->|]; [congruence|done].
    + split; [|done]. intros _. exists bid. split; [left|done].
Qed.


Section ProcessBlock.
Variable rangeOrder : nat → ∀ A : Type, list A → list A.

Lemma processBlock_unknown_vote b w :
  (∃ bid, bid ∈ BlockVotes b ∧ blocks (ni w) !! bid = None) →
  processBlock rangeOrder b w = Panic UnknownBlock w.
Proof.
  intros H. apply groupVotes_None with (patterns := ∅) in H.
  unfold processBlock, bind, getNi. by rewrite H.
Qed.

Lemma processBlock_spec b w :
  wp (processBlock rangeOrder b)
     (λ nb w', (size (nbVotes nb) ≤ 1)%nat ∧ votes_wf nb
               ∧ nbBlock nb = b ∧ blocks (ni w') = <[Id b := nb]> (blocks (ni w)))
     (λ w', w' = w ∧ ∃ bid, bid ∈ BlockVotes b ∧ blocks (ni w) !! bid = None) w.
Proof.
  unfold processBlock. apply wp_bind. unfold wp at 1, getNi.
  destruct (groupVotes _ _ _) as [patterns|] eqn:Hg.
  - apply wp_bind. unfold wp at 1, rangeOver.
    apply wp_bind.
    eapply wp_mono;
      [apply (wp_foldM _ (λ acc w', (size acc.1 ≤ 1)%nat
                   ∧ (∀ j p, acc.1 !! j = Some p → Layer p = j)
                   ∧ blocks (ni w') = blocks (ni w)) (λ _, False))| |done].
    + simpl. split; [rewrite map_size_empty; lia|]. split; [|done].
      intros ??. by rewrite lookup_empty.
    + intros acc e w0 _ (_ & _ & Hsame). unfold wp, bind, modifyNi, ret. simpl.
      split; [rewrite map_size_singleton; lia|]. split; [|done].
      intros j p Hl. apply lookup_singleton_Some in Hl as [<- <-]. done.
    + intros r w0 (Hsz & Hwf & Hsame). unfold wp, bind, modifyNi, ret.
      destruct (r.2); simpl; rewrite Hsame; done.
  - unfold wp, fail. split; [done|]. by apply groupVotes_None in Hg.
Qed.
End ProcessBlock.

(** * Frame reasoning: what a computation leaves alone *)


Section Keeps.
Context {X : Type} (f : ninjaTortoise → X).

Lemma keeps_ret {A} (a : A) : keeps f (ret a).
Proof. done. Qed.

Lemma keeps_fail {A} e : keeps f (@fail A e).
Proof. done. Qed.

Lemma keeps_getNi : keeps f getNi.
Proof. done. Qed.

Lemma keeps_alloc v : keeps f (alloc v).
Proof. done. Qed.

Lemma keeps_load a : keeps f (load a).
Proof. done. Qed.

Lemma keeps_store a v : keeps f (store a v).
Proof. done. Qed.

Lemma keeps_modifyNi g : (∀ s, f (g s) = f s) → keeps f (modifyNi g).
Proof. intros H w. apply H. Qed.

Lemma keeps_bind {A B} (m : M A) (k : A → M B) :
  keeps f m → (∀ a, keeps f (k a)) → keeps f (bind m k).
Proof.
  intros Hm Hk w. unfold bind. specialize (Hm w).
  destruct (m w) as [a w'|e w']; [|done].
  rewrite <- Hm. apply Hk.
Qed.

Lemma keeps_foldM {A C} (body : C → A → M C) l c :
  (∀ c x, keeps f (body c x)) → keeps f (foldM body l c).
Proof.
  intros Hb. revert c. induction l as [|x l IH]; intros c; [done|].
  simpl. apply keeps_bind; [apply Hb | apply IH].
Qed.

Lemma keeps_forEach {A} (body : A → M unit) l :
  (∀ x, keeps f (body x)) → keeps f (forEach l body).
Proof.
  intros Hb. induction l as [|x l IH]; [done|].
  simpl. apply keeps_bind; [apply Hb | intros _; apply IH].
Qed.

Lemma keeps_foldLayersUpTo {C} a b (body : C → Z → M C) c :
  (∀ c x, keeps f (body c x)) → keeps f (foldLayersUpTo a b body c).
Proof.
  intros Hb. unfold foldLayersUpTo. apply keeps_bind; [by apply keeps_foldM|].
  intros c'. by destruct (decide _).
Qed.
End Keeps.

Ltac keeps_step :=
  first
    [ apply keeps_ret | apply keeps_fail | apply keeps_getNi | apply keeps_alloc
    | apply keeps_load | apply keeps_store
    | apply keeps_modifyNi; intros; reflexivity
    | apply keeps_bind; [|intros ?]
    | apply keeps_foldM; intros ? ?
    | apply keeps_forEach; intros ?
    | apply keeps_foldLayersUpTo; intros ? ?
    | match goal with
      | |- keeps _ (match ?x with _ => _ end) => destruct x
      end ].

Ltac keeps_auto := repeat keeps_step.


Section KeepsEngine.
Context {X : Type} (f : ninjaTortoise → X).
Hypothesis f_tTally : ∀ v s, f (set_tTally v s) = f s.
Hypothesis f_tCorrect : ∀ v s, f (set_tCorrect v s) = f s.

Lemma keeps_Add a v : keeps f (Add a v).
Proof. unfold Add. keeps_auto. Qed.

Lemma keeps_Negate a : keeps f (Negate a).
Proof. unfold Negate. keeps_auto. Qed.

Lemma keeps_Multiplay a x : keeps f (Multiplay a x).
Proof. unfold Multiplay. keeps_auto. Qed.

Lemma keeps_nonNil a : keeps f (nonNil a).
Proof. unfold nonNil. keeps_auto. Qed.

Lemma keeps_writeTally p b a : keeps f (writeTally p b a).
Proof.
  unfold writeTally. apply keeps_bind; [apply keeps_getNi|]. intros s.
  destruct (tTally s !! p); [|apply keeps_fail].
  apply keeps_modifyNi. intros. apply f_tTally.
Qed.

Lemma keeps_ensureTally p : keeps f (ensureTally p).
Proof.
  unfold ensureTally. apply keeps_bind; [apply keeps_getNi|]. intros s.
  destruct (tTally s !! p); [apply keeps_ret|].
  apply keeps_modifyNi. intros. apply f_tTally.
Qed.

Lemma keeps_addPatternVote p b : keeps f (addPatternVote p b).
Proof.
  unfold addPatternVote.
  repeat first [ apply keeps_Add | apply keeps_nonNil | apply keeps_writeTally
               | apply keeps_ensureTally | keeps_step ].
Qed.

Lemma keeps_sumNodesInView c i p : keeps f (sumNodesInView c i p).
Proof. apply keeps_Multiplay. Qed.

Lemma keeps_updateCorrectionVectors p : keeps f (updateCorrectionVectors p).
Proof.
  unfold updateCorrectionVectors.
  repeat first [ apply keeps_Negate | apply keeps_nonNil
               | apply keeps_modifyNi; intros; apply f_tCorrect | keeps_step ].
Qed.

Section WithOrder.
Variable rangeOrder : nat → ∀ A : Type, list A → list A.

Lemma keeps_rangeOver {A} (l : list A) : keeps f (rangeOver rangeOrder l).
Proof. done. Qed.

Lemma keeps_bfsLoop {C} fuel layer (foo : ninjaBlock → C → M C) queue set cnt c :
  (∀ b c, keeps f (foo b c)) → keeps f (bfsLoop fuel layer foo queue set cnt c).
Proof.
  intros Hfoo. revert queue set cnt c.
  induction fuel as [|fuel IH]; intros queue set cnt c; destruct queue as [|a rest]; simpl;
    try apply keeps_ret; try apply keeps_fail.
  apply keeps_bind; [apply keeps_getNi|]. intros s.
  destruct (blocks s !! a); [|apply keeps_fail].
  apply keeps_bind; [apply Hfoo|]. intros c'. apply IH.
Qed.

Lemma keeps_forBlockInView {C} seeds layer (foo : ninjaBlock → C → M C) c :
  (∀ b c, keeps f (foo b c)) → keeps f (forBlockInView seeds layer foo c).
Proof.
  intros Hfoo. unfold forBlockInView. apply keeps_bind; [apply keeps_getNi|].
  intros s. by apply keeps_bfsLoop.
Qed.

Lemma keeps_countEffective g b c : keeps f (countEffective g b c).
Proof.
  unfold countEffective. repeat first [ apply keeps_Add | keeps_step ].
Qed.

Lemma keeps_updatePatternTally g p : keeps f (updatePatternTally g p).
Proof.
  unfold updatePatternTally.
  repeat first [ apply keeps_forBlockInView; intros ? ? | apply keeps_countEffective
               | apply keeps_Add | apply keeps_Multiplay | apply keeps_nonNil
               | apply keeps_writeTally | keeps_step ].
Qed.
End WithOrder.
End KeepsEngine.


(** * The frontier *)


Lemma frontier_wf_core s s' : core s' = core s → frontier_wf s → frontier_wf s'.
Proof.
  unfold core, frontier_wf. intros Hc. injection Hc as -> -> ->. done.
Qed.

Lemma frontier_wf_new layerSize : frontier_wf (newNinjaTortoise layerSize).
Proof.
  unfold frontier_wf, lookup2, maxUint32. simpl. split_and!; try lia.
  - intros ??. by rewrite lookup_empty.
  - intros ???. by rewrite lookup_empty.
Qed.

Lemma wp_keeps {A} (m : M A) (Φ : ninjaTortoise → Prop) w :
  keeps core m → (∀ s s', core s' = core s → Φ s → Φ s') → Φ (ni w) →
  wp m (λ _ w', Φ (ni w')) (λ w', Φ (ni w')) w.
Proof.
  intros Hk HΦ Hw. specialize (Hk w). unfold wp.
  destruct (m w); simpl in Hk; eauto.
Qed.

Lemma wp_conj {A} (m : M A) Q1 Q2 R1 R2 w :
  wp m Q1 R1 w → wp m Q2 R2 w → wp m (λ a w', Q1 a w' ∧ Q2 a w') (λ w', R1 w' ∧ R2 w') w.
Proof. unfold wp. destruct (m w); auto. Qed.

Lemma elem_of_layersBelow j a b : j ∈ layersBelow a b → a ≤ j < b.
Proof. unfold layersBelow. rewrite elem_of_seqZ. lia. Qed.

Lemma startLayer_above s i : 0 ≤ Layer (pBase s) < maxUint32 → Layer (pBase s) < startLayer s i.
Proof.
  intros H. unfold startLayer, wrap32, maxUint32 in *.
  rewrite (Z.mod_small (Layer (pBase s) + 1)) by lia.
  destruct (i <? Window); lia.
Qed.

Lemma voteOnLayer_spec j sU block w :
  votes_wf block → frontier_wf (ni w) → (∀ p, p ∈ sU → Layer p = j) →
  wp (voteOnLayer j sU block)
     (λ sU' w', core (ni w') = core (ni w) ∧ ∀ p, p ∈ sU' → Layer p = j)
     (λ w', core (ni w') = core (ni w)) w.
Proof.
  intros Hv (_ & Hps & _) HsU. unfold voteOnLayer.
  apply wp_bind. unfold wp at 1, getNi.
  destruct (nbVotes block !! j) as [p|] eqn:Hp.
  - unfold wp, bind, modifyNi, addSupport, ret.
    destruct (lookup2 _ _ _); simpl; (split; [done|]); intros q Hq;
      apply elem_of_union in Hq as [Hq|Hq];
      try (apply elem_of_singleton in Hq as ->; by apply Hv);
      apply elem_of_union in Hq as [Hq|Hq];
      try (apply elem_of_singleton in Hq as ->; by apply Hv); by apply HsU.
  - destruct (tEffective (ni w) !! nbID block) as [[eff|]|]; [|done|by split].
    destruct (lookup2 (tPatSupport (ni w)) eff j) as [p|] eqn:Hl; [|by split].
    unfold wp, bind, modifyNi, addSupport, ret. simpl. split; [done|].
    intros q Hq. apply elem_of_union in Hq as [Hq|Hq]; [|by apply HsU].
    apply elem_of_singleton in Hq as ->. by eapply Hps.
Qed.

Lemma markGood_spec i j mg p w :
  Layer p = j → frontier_wf (ni w) →
  wp (markGood i j mg p)
     (λ mg' w', frontier_wf (ni w') ∧ pBase (ni w') = pBase (ni w) ∧ (mg' = mg ∨ mg' = j))
     (λ _, False) w.
Proof.
  intros Hj (Hg & Hps & Hb). unfold markGood. apply wp_bind. unfold wp at 1, getNi.
  destruct (_ && _).
  - unfold wp, bind, modifyNi, ret. simpl. split; [|split; [done|]].
    + split; [|by split]. simpl.
      intros L q Hq. apply lookup_insert_Some in Hq as [[<- <-]|[_ Hq]]; [done|by apply Hg].
    + destruct (Layer p <? i); auto.
  - unfold wp, ret. split; [by split|]. auto.
Qed.

Section Frontier.
Variable rangeOrder : nat → ∀ A : Type, list A → list A.
Hypothesis rangeOrder_perm : ∀ n A (l : list A), rangeOrder n A l ≡ₚ l.

Lemma keeps_processBlock b : keeps core (processBlock rangeOrder b).
Proof.
  unfold processBlock. repeat first [ apply keeps_rangeOver | keeps_step ].
Qed.

Lemma insertBlocks_spec B i w (Φ : ninjaTortoise → Prop) :
  (∀ s s', core s' = core s → Φ s → Φ s') → Φ (ni w) →
  wp (insertBlocks rangeOrder B i)
     (λ bs w', Φ (ni w') ∧ Forall votes_wf bs) (λ w', Φ (ni w')) w.
Proof.
  intros HΦ Hw. unfold insertBlocks.
  apply (wp_foldM _ (λ bs w', Φ (ni w') ∧ Forall votes_wf bs)); [by split|].
  intros bs block w0 _ [Hw0 Hbs]. apply wp_bind.
  eapply wp_mono;
    [apply (wp_conj _ _ _ _ _ _ (wp_keeps _ Φ w0 (keeps_processBlock block) HΦ Hw0)
              (processBlock_spec rangeOrder block w0))| |].
  - intros nb w1 [HΦ1 (_ & Hwf & _)]. unfold wp, bind, modifyNi, ret. simpl.
    split; [eapply HΦ; [|exact HΦ1]; done|].
    apply Forall_app. split; [done|]. by constructor.
  - by intros w1 [? _].
Qed.

Lemma findMinimalGoodLayer_spec i bs w :
  frontier_wf (ni w) → Forall votes_wf bs →
  wp (findMinimalGoodLayer rangeOrder i bs)
     (λ l w', frontier_wf (ni w') ∧ pBase (ni w') = pBase (ni w)
              ∧ Layer (pBase (ni w)) ≤ l)
     (λ w', frontier_wf (ni w') ∧ pBase (ni w') = pBase (ni w)) w.
Proof.
  intros Hwf Hbs. unfold findMinimalGoodLayer. apply wp_bind. unfold wp at 1, getNi.
  eapply wp_mono;
    [apply (wp_foldM _ (λ mg w', frontier_wf (ni w') ∧ pBase (ni w') = pBase (ni w)
               ∧ Layer (pBase (ni w)) ≤ mg)
              (λ w', frontier_wf (ni w') ∧ pBase (ni w') = pBase (ni w)))
    | done | done].
  { split_and!; [done|done|lia]. }
  intros mg j w0 Hj (Hwf0 & Hpb0 & Hmg).
  apply elem_of_layersBelow in Hj.
  pose proof (startLayer_above (ni w) i (proj2 (proj2 Hwf))) as Hstart.
  apply wp_bind.
  eapply wp_mono;
    [apply (wp_foldM _ (λ sU w', core (ni w') = core (ni w0) ∧ ∀ p, p ∈ sU → Layer p = j)
              (λ w', core (ni w') = core (ni w0)))| |].
  - split; [done|]. intros p Hp. by apply not_elem_of_empty in Hp.
  - intros sU block w1 Hblock [Hc1 HsU].
    eapply wp_mono;
      [apply voteOnLayer_spec;
         [by eapply (proj1 (Forall_forall _ _) Hbs)
         |exact (frontier_wf_core _ _ Hc1 Hwf0)|done]| |].
    + intros sU' w2 [Hc2 HsU']. split; [congruence|done].
    + intros w2 Hc2. congruence.
  - intros sU w1 [Hc1 HsU]. apply wp_bind. unfold wp at 1, rangeOver.
    assert (Hps : ∀ p, p ∈ rangeOrder (tick w1) votingPattern (elements sU) → Layer p = j).
    { intros p Hp. rewrite rangeOrder_perm in Hp. apply elem_of_elements in Hp. auto. }
    assert (Hwf1 : frontier_wf (ni w1)) by exact (frontier_wf_core _ _ Hc1 Hwf0).
    assert (Hpb1 : pBase (ni w1) = pBase (ni w)).
    { unfold core in Hc1. injection Hc1 as -> _ _. done. }
    eapply wp_mono;
      [apply (wp_foldM _ (λ mg' w', frontier_wf (ni w') ∧ pBase (ni w') = pBase (ni w)
                 ∧ Layer (pBase (ni w)) ≤ mg') (λ _, False))| |done].
    + simpl. done.
    + intros mg' p w2 Hp (Hwf2 & Hpb2 & Hmg').
      eapply wp_mono; [apply markGood_spec; [by apply Hps|done]| |done].
      intros mg'' w3 (Hwf3 & Hpb3 & Hor). split; [done|split; [congruence|]].
      destruct Hor as [->| ->]; lia.
    + done.
  - intros w1 Hc1. split; [exact (frontier_wf_core _ _ Hc1 Hwf0)|].
    unfold core in Hc1. injection Hc1 as -> _ _. done.
Qed.


Lemma above_core L0 s s' : core s' = core s → above L0 s → above L0 s'.
Proof.
  intros Hc [Hwf HL]. split; [exact (frontier_wf_core _ _ Hc Hwf)|].
  unfold core in Hc. injection Hc as -> _ _. done.
Qed.

Lemma keeps_globalOpinion p x : keeps core (globalOpinion p x).
Proof. unfold globalOpinion. keeps_auto. Qed.

Lemma voteLayer_spec L0 p cnt flag i w :
  above L0 (ni w) →
  wp (voteLayer p cnt flag i) (λ _ w', above L0 (ni w')) (λ w', above L0 (ni w')) w.
Proof.
  intros Hw. unfold voteLayer. apply wp_bind. unfold wp at 1, getNi.
  destruct (layerBlocks (ni w) !! i) as [layer|]; [|done].
  apply wp_bind.
  eapply wp_mono; [apply (wp_keeps _ (above L0)); [|apply above_core|done]| |done].
  { apply keeps_foldM. intros acc bid.
    repeat first [ apply keeps_sumNodesInView | apply keeps_nonNil | apply keeps_writeTally
                 | apply keeps_globalOpinion | keeps_step ]; done. }
  intros r w1 [(Hg & Hps & Hb) HL]. unfold wp, bind, getNi, modifyNi, ret. simpl.
  split; [|done]. split; [done|]. split; [|done]. simpl.
  intros p' m q. unfold lookup2. destruct (decide (p = p')) as [<-|Hne].
  - rewrite lookup_insert_eq. simpl. intros Hq.
    apply lookup_insert_Some in Hq as [[<- <-]|[_ Hq]]; [done|].
    apply (Hps p m q). unfold lookup2.
    destruct (tPatSupport (ni w1) !! p); simpl in *; [done|]. by rewrite lookup_empty in Hq.
  - rewrite lookup_insert_ne by done. apply Hps.
Qed.

Lemma tallyGood_spec L0 j p w :
  above L0 (ni w) → Layer p = j → L0 ≤ j → 0 ≤ j < maxUint32 →
  wp (tallyGood rangeOrder j p) (λ _ w', above L0 (ni w')) (λ w', above L0 (ni w')) w.
Proof.
  intros Hw Hp HL Hj. unfold tallyGood.
  repeat (apply wp_bind;
    eapply wp_mono;
      [apply (wp_keeps _ (above L0));
         [repeat first [ apply keeps_rangeOver | apply keeps_ensureTally
                       | apply keeps_writeTally | apply keeps_updatePatternTally
                       | apply keeps_forBlockInView; intros ? ?
                       | apply keeps_addPatternVote | apply keeps_updateCorrectionVectors
                       | keeps_step ]; done
         |apply above_core|eassumption]
      |clear Hw; intros ? ? Hw |done]).
  apply wp_bind. unfold foldLayersUpTo. apply wp_bind.
  eapply wp_mono; [apply (wp_foldM _ (λ _ w', above L0 (ni w')) (λ w', above L0 (ni w')))| |done].
  { done. }
  { intros ?????. by apply voteLayer_spec. }
  clear Hw. intros flag w1 Hw. destruct (decide _); [done|].
  unfold wp at 1, ret. apply wp_bind. unfold wp at 1, getNi.
  destruct (_ && _); [|done].
  unfold wp, modifyNi. simpl. destruct Hw as [(Hg & Hps & Hb) HL1].
  unfold above, frontier_wf. simpl. rewrite Hp. done.
Qed.

Lemma UpdateTables_spec B i w :
  frontier_wf (ni w) → 0 ≤ i ≤ maxUint32 →
  wp (UpdateTables rangeOrder B i)
     (λ l w', above (Layer (pBase (ni w))) (ni w')
              ∧ (i = 0 → l = 0) ∧ (i ≠ 0 → l = Layer (pBase (ni w'))))
     (λ w', above (Layer (pBase (ni w))) (ni w')) w.
Proof.
  intros Hwf Hi. set (L0 := Layer (pBase (ni w))).
  assert (HL0 : 0 ≤ L0) by (destruct Hwf as (_ & _ & ?); unfold L0; lia).
  unfold UpdateTables. apply wp_bind.
  eapply wp_mono; [apply (insertBlocks_spec _ _ _ (above L0)); [apply above_core|]| |].
  { split; [done|unfold L0; lia]. }
  2: done.
  intros bs w0 [[Hwf0 HL] Hbs]. destruct (decide (i = 0)) as [Hi0|Hi0].
  { unfold wp, ret. split; [by split|]. split; done. }
  apply wp_bind.
  eapply wp_mono; [apply findMinimalGoodLayer_spec; done| |].
  2: { intros w1 [Hwf1 Hpb1]. split; [done|]. by rewrite Hpb1. }
  intros l w1 (Hwf1 & Hpb1 & Hl). apply wp_bind.
  eapply wp_mono; [apply (wp_forEach _ (λ w', above L0 (ni w')) (λ w', above L0 (ni w')))| |done].
  - split; [done|]. by rewrite Hpb1.
  - intros j w2 Hj Hw2. apply elem_of_layersBelow in Hj.
    apply wp_bind. unfold wp at 1, getNi.
    destruct (tGood (ni w2) !! j) as [p|] eqn:Hg; [|done].
    apply tallyGood_spec; [done| |lia|lia].
    destruct Hw2 as [(Hgood & _) _]. by apply Hgood.
  - intros ? w2 Hw2. unfold wp, bind, getNi, ret. simpl. split; [done|]. split; done.
Qed.
End Frontier.

Lemma reachable_frontier_wf rangeOrder w :
  validOrder rangeOrder → reachable rangeOrder w → frontier_wf (ni w).
Proof.
  intros Hvalid Hw. induction Hw as [layerSize|w B i Hw IH Hi].
  - apply frontier_wf_new.
  - pose proof (UpdateTables_spec rangeOrder Hvalid B i w IH Hi) as Hspec.
    unfold wp in Hspec. destruct (UpdateTables rangeOrder B i w); simpl.
    + by destruct Hspec as [[? _] _].
    + by destruct Hspec as [? _].
Qed.


(** * The order in which forBlockInView visits blocks *)



Lemma bfsLoop_trace {C} (foo : ninjaBlock → C → M C) fuel layer queue set cnt c w :
  (∀ b c, keeps blocks (foo b c)) →
  bfsLoop fuel layer foo queue set cnt c w =
    bind (visitAll foo (bfsTrace fuel (blocks (ni w)) layer queue set cnt).1 c)
         (finish (bfsTrace fuel (blocks (ni w)) layer queue set cnt).2) w.
Proof.
  intros Hfoo. revert queue set cnt c w.
  induction fuel as [|fuel IH]; intros queue set cnt c w; destruct queue as [|a rest];
    try reflexivity.
  simpl. unfold bind at 1, getNi at 1.
  destruct (blocks (ni w) !! a) as [block|] eqn:Hb; [|reflexivity].
  simpl. unfold visitAll. simpl. unfold bind at 1 2 3.
  pose proof (Hfoo block c w) as Hk.
  destruct (foo block c w) as [c' w'|e w']; [|reflexivity].
  simpl in Hk. rewrite IH, Hk. reflexivity.
Qed.

(** ** The children pushed for one block *)

Lemma pushChild_below layer block st edges :
  ¬ layer < nbLayer block → foldl (pushChild layer block) st edges = st.
Proof.
  intros Hl. induction edges as [|c edges IH]; [done|]. simpl.
  unfold pushChild at 2. destruct (nbLayer block >? layer) eqn:E; [lia|]. done.
Qed.

Lemma pushChild_above layer block set rest edges :
  layer < nbLayer block →
  ∃ new, foldl (pushChild layer block) (set, rest) edges = (set ∪ list_to_set new, rest ++ new)
         ∧ NoDup new ∧ ∀ c, c ∈ new ↔ c ∈ edges ∧ c ∉ set.
Proof.
  intros Hl. revert set rest. induction edges as [|c edges IH]; intros set rest.
  - exists []. simpl. rewrite app_nil_r, (right_id_L ∅ (∪)). split; [done|]. split; [constructor|].
    intros c. split; [by intros ?%elem_of_nil|]. by intros [?%elem_of_nil _].
  - simpl. unfold pushChild at 2. destruct (nbLayer block >? layer) eqn:E; [|lia]. simpl.
    destruct (decide (c ∈ set)) as [Hin|Hout].
    + destruct (IH set rest) as (new & -> & Hnd & Hnew). exists new. split; [done|].
      split; [done|]. intros x. rewrite Hnew, elem_of_cons. split; [naive_solver|].
      intros [[->|?] ?]; done.
    + destruct (IH ({[c]} ∪ set) (rest ++ [c])) as (new & -> & Hnd & Hnew).
      exists (c :: new). split; [|split].
      * f_equal; [set_solver|]. by rewrite <- app_assoc.
      * constructor; [|done]. rewrite Hnew. set_solver.
      * intros x. rewrite elem_of_cons, Hnew, elem_of_cons. split.
        -- intros [->|[? ?]]; [auto|]. split; [auto|set_solver].
        -- intros [[->|?] ?]; [auto|]. destruct (decide (x = c)) as [->|]; [auto|].
           right. split; [done|set_solver].
Qed.

Lemma edgeTargets_elem bs a nb c :
  bs !! a = Some nb → c ∈ ViewEdges (nbBlock nb) → c ∈ edgeTargets bs.
Proof.
  intros Ha Hc. unfold edgeTargets. apply elem_of_union_list.
  exists (list_to_set (ViewEdges (nbBlock nb))). split; [|by apply elem_of_list_to_set].
  apply list_elem_of_fmap. exists (a, nb). split; [done|]. by apply elem_of_map_to_list.
Qed.

Lemma size_difference_new (T set : gset Z) (new : list Z) :
  NoDup new → (∀ c, c ∈ new → c ∈ T ∧ c ∉ set) →
  (size (T ∖ (set ∪ list_to_set new)) + length new = size (T ∖ set))%nat.
Proof.
  intros Hnd Hnew.
  assert (Heq : T ∖ set = (T ∖ (set ∪ list_to_set new)) ∪ list_to_set new).
  { apply set_eq. intros x. rewrite elem_of_union, !elem_of_difference, elem_of_union,
      elem_of_list_to_set.
    split.
    - intros [HT Hs]. destruct (decide (x ∈ new)); [by right|left]. naive_solver.
    - intros [[HT Hn]|Hx]; [naive_solver|]. by apply Hnew. }
  rewrite Heq.
  rewrite (size_union (T ∖ (set ∪ list_to_set new)) (list_to_set new)).
  - by rewrite size_list_to_set.
  - intros x. rewrite elem_of_difference, elem_of_union. naive_solver.
Qed.

(** ** The per-layer counter *)


Lemma wrapInt_succ n : wrapInt (wrapInt n + 1) = wrapInt (n + 1).
Proof.
  unfold wrapInt. f_equal.
  replace ((n + 2 ^ 63) mod 2 ^ 64 - 2 ^ 63 + 1 + 2 ^ 63) with ((n + 2 ^ 63) mod 2 ^ 64 + 1) by lia.
  rewrite Z.add_mod_idemp_l by lia. f_equal. lia.
Qed.

Lemma layerCount_snoc l trace x :
  layerCount l (trace ++ [x]) =
    (layerCount l trace + if decide (nbLayer x.2 = l) then 1 else 0)%nat.
Proof.
  unfold layerCount. rewrite filter_app, length_app. f_equal.
  destruct (decide (nbLayer x.2 = l)).
  - by rewrite filter_cons_True.
  - by rewrite filter_cons_False.
Qed.

Lemma counts_snoc cnt trace a block :
  counts cnt trace →
  counts (<[nbLayer block := wrapInt (default 0 (cnt !! nbLayer block) + 1)]> cnt)
         (trace ++ [(a, block)]).
Proof.
  intros Hc l. rewrite layerCount_snoc. simpl.
  destruct (decide (nbLayer block = l)) as [<-|Hne].
  - rewrite lookup_insert_eq. rewrite (Hc (nbLayer block)).
    destruct (decide (layerCount (nbLayer block) trace = 0%nat)) as [->|Hn]; simpl.
    + done.
    + destruct (decide _); [lia|]. f_equal. rewrite wrapInt_succ. f_equal. lia.
  - rewrite lookup_insert_ne by done. rewrite Nat.add_0_r. apply Hc.
Qed.

Lemma counts_nil : counts ∅ [].
Proof. intros l. by rewrite lookup_empty. Qed.

(** ** The loop invariant *)

Section View.
Variable bs : gmap Z ninjaBlock.
Variable seeds : list Z.
Variable L : Z.
Hypothesis Hknown : ∀ a, inView bs seeds L a → is_Some (bs !! a).
Hypothesis Hsep : ∀ a nb c,
inView bs seeds L a → bs !! a = Some nb → L < nbLayer nb →
c ∈ ViewEdges (nbBlock nb) → c ∉ seeds.


Lemma bfsInv_complete visited set cnt fuel a :
bfsInv bs seeds L visited [] set cnt fuel → inView bs seeds L a → a ∈ visited.*1.
Proof.
intros Hinv Ha. induction Ha as [a Ha|a nb c Ha IH Hb Hl Hc].
- apply (inv_seeds Hinv) in Ha. by rewrite app_nil_r in Ha.
- apply list_elem_of_fmap in IH as ([a' nb'] & -> & Hin). simpl in *.
  pose proof (inv_known Hinv _ _ Hin) as Hb'.
  assert (nb' = nb) as -> by congruence.
  pose proof (inv_closed Hinv _ _ _ Hin Hl Hc) as Hset.
  apply (inv_set Hinv) in Hset. by rewrite app_nil_r in Hset.
Qed.

Lemma bfsInv_step visited a rest set cnt fuel block :
bfsInv bs seeds L visited (a :: rest) set cnt (S fuel) → bs !! a = Some block →
let st := foldl (pushChild L block) (set, rest) (ViewEdges (nbBlock block)) in
bfsInv bs seeds L (visited ++ [(a, block)]) st.2 st.1
  (<[nbLayer block := wrapInt (default 0 (cnt !! nbLayer block) + 1)]> cnt) fuel.
Proof.
intros Hinv Hb st.
assert (Ha : inView bs seeds L a).
{ apply (inv_sound Hinv). apply elem_of_app. right. left. }
assert (Hmem : ∀ x, x ∈ (visited ++ [(a, block)]).*1 ++ rest ↔ x ∈ visited.*1 ++ a :: rest).
{ intros x. rewrite fmap_app. simpl. rewrite <- app_assoc. done. }
assert (Hvis : ∀ a' nb', (a', nb') ∈ visited ++ [(a, block)] →
               (a', nb') ∈ visited ∨ (a' = a ∧ nb' = block)).
{ intros a' nb' Hin. apply elem_of_app in Hin as [?|Hin]; [by left|right].
  apply list_elem_of_singleton in Hin. by injection Hin. }
destruct (decide (L < nbLayer block)) as [Hl|Hl].
- destruct (pushChild_above L block set rest (ViewEdges (nbBlock block)) Hl)
    as (new & Hst & Hnd & Hnew).
  subst st. rewrite Hst. simpl.
  assert (Hfresh : ∀ c, c ∈ new → c ∉ visited.*1 ++ a :: rest).
  { intros c Hc Hin. apply Hnew in Hc as [Hc Hns].
    apply (inv_origin Hinv) in Hin as [Hin|Hin]; [|done].
    by eapply Hsep. }
  assert (Hmem' : ∀ x, x ∈ (visited ++ [(a, block)]).*1 ++ rest ++ new
                       ↔ x ∈ visited.*1 ++ a :: rest ∨ x ∈ new).
  { intros x. rewrite app_assoc, elem_of_app, Hmem. done. }
  split.
  + rewrite app_assoc. apply NoDup_app. split; [|split; [|done]].
    * rewrite fmap_app. simpl. rewrite <- app_assoc. apply (inv_nodup Hinv).
    * intros x Hx Hx'. apply Hmem in Hx. by apply (Hfresh x).
  + intros x [Hx|Hx]%Hmem'; [by apply (inv_sound Hinv)|].
    apply Hnew in Hx as [Hx _]. by eapply inView_edge.
  + intros x Hx. apply Hmem'. left. by apply (inv_seeds Hinv).
  + intros x [Hx|Hx]%Hmem'.
    * apply (inv_origin Hinv) in Hx as [?|?]; [by left|right].
      apply elem_of_union. by left.
    * right. apply elem_of_union. right. by apply elem_of_list_to_set.
  + intros x [Hx|Hx]%elem_of_union; apply Hmem'.
    * left. by apply (inv_set Hinv).
    * right. by apply elem_of_list_to_set in Hx.
  + intros a' nb' c [Hin|[-> ->]]%Hvis Hl' Hc; apply elem_of_union.
    * left. by eapply (inv_closed Hinv).
    * destruct (decide (c ∈ set)); [by left|right].
      apply elem_of_list_to_set. by apply Hnew.
  + intros a' nb' [Hin|[-> ->]]%Hvis; [by apply (inv_known Hinv)|done].
  + intros x [Hx|Hx]%elem_of_union; [by apply (inv_targets Hinv)|].
    apply elem_of_list_to_set, Hnew in Hx as [Hx _]. by eapply edgeTargets_elem.
  + pose proof (inv_fuel Hinv) as Hf. simpl in Hf.
    rewrite length_app.
    pose proof (size_difference_new (edgeTargets bs) set new Hnd) as Hsz.
    rewrite <- Hsz in Hf; [lia|].
    intros c [Hc Hns]%Hnew. split; [by eapply edgeTargets_elem|done].
  + apply counts_snoc, (inv_counts Hinv).
- subst st. rewrite pushChild_below by done. simpl. split.
  + rewrite fmap_app. simpl. rewrite <- app_assoc. apply (inv_nodup Hinv).
  + intros x Hx%Hmem. by apply (inv_sound Hinv).
  + intros x Hx. apply Hmem. by apply (inv_seeds Hinv).
  + intros x Hx%Hmem. by apply (inv_origin Hinv).
  + intros x Hx. apply Hmem. by apply (inv_set Hinv).
  + intros a' nb' c [Hin|[-> ->]]%Hvis Hl' Hc; [|done].
    by eapply (inv_closed Hinv).
  + intros a' nb' [Hin|[-> ->]]%Hvis; [by apply (inv_known Hinv)|done].
  + apply (inv_targets Hinv).
  + pose proof (inv_fuel Hinv) as Hf. simpl in Hf. lia.
  + apply counts_snoc, (inv_counts Hinv).
Qed.

Lemma bfsTrace_inv fuel visited queue set cnt :
bfsInv bs seeds L visited queue set cnt fuel →
∃ cnt', (bfsTrace fuel bs L queue set cnt).2 = inr cnt'
  ∧ NoDup (visited ++ (bfsTrace fuel bs L queue set cnt).1).*1
  ∧ (∀ a, a ∈ (visited ++ (bfsTrace fuel bs L queue set cnt).1).*1 ↔ inView bs seeds L a)
  ∧ (∀ a nb, (a, nb) ∈ visited ++ (bfsTrace fuel bs L queue set cnt).1 → bs !! a = Some nb)
  ∧ counts cnt' (visited ++ (bfsTrace fuel bs L queue set cnt).1).
Proof.
revert visited queue set cnt. induction fuel as [|fuel IH]; intros visited queue set cnt Hinv.
- destruct queue as [|a rest].
  + simpl. exists cnt. rewrite app_nil_r. split; [done|].
    pose proof (inv_nodup Hinv) as Hnd. rewrite app_nil_r in Hnd.
    split; [done|]. split; [|split].
    * intros a. split; [|by eapply bfsInv_complete].
      intros Ha. apply (inv_sound Hinv). by rewrite app_nil_r.
    * apply (inv_known Hinv).
    * apply (inv_counts Hinv).
  + pose proof (inv_fuel Hinv) as Hf. simpl in Hf. lia.
- destruct queue as [|a rest].
  + simpl. exists cnt. rewrite app_nil_r. split; [done|].
    pose proof (inv_nodup Hinv) as Hnd. rewrite app_nil_r in Hnd.
    split; [done|]. split; [|split].
    * intros a. split; [|by eapply bfsInv_complete].
      intros Ha. apply (inv_sound Hinv). by rewrite app_nil_r.
    * apply (inv_known Hinv).
    * apply (inv_counts Hinv).
  + assert (Ha : inView bs seeds L a).
    { apply (inv_sound Hinv). apply elem_of_app. right. left. }
    destruct (Hknown a Ha) as [block Hb].
    pose proof (bfsInv_step _ _ _ _ _ _ _ Hinv Hb) as Hnext. simpl in Hnext.
    apply IH in Hnext as (cnt' & Hend & Hres).
    simpl. rewrite Hb. simpl. exists cnt'. split; [done|].
    rewrite <- app_assoc in Hres. exact Hres.
Qed.
End View.

(** * Pattern identity *)


Lemma sortIds_sorted bids : Sorted Z.le (sortIds bids).
Proof. apply (Sorted_merge_sort Z.le). Qed.

Lemma sortIds_perm bids : sortIds bids ≡ₚ bids.
Proof. apply merge_sort_Permutation. Qed.

Lemma sortIds_permutation_invariant bids bids' :
  bids ≡ₚ bids' → sortIds bids = sortIds bids'.
Proof.
  intros Hp. apply (Sorted_unique Z.le); try apply sortIds_sorted.
  by rewrite !sortIds_perm.
Qed.

Lemma wrap32_range z : 0 ≤ wrap32 z < 2 ^ 32.
Proof. unfold wrap32. apply Z.mod_pos_bound. lia. Qed.

Lemma lxor_range a c : 0 ≤ a < 2 ^ 32 → 0 ≤ c < 2 ^ 32 → 0 ≤ Z.lxor a c < 2 ^ 32.
Proof.
  intros Ha Hc. split; [apply Z.lxor_nonneg; lia|].
  destruct (decide (Z.lxor a c = 0)) as [->|Hne]; [lia|].
  apply Z.log2_lt_pow2; [pose proof (Z.lxor_nonneg a c); lia|].
  eapply Z.le_lt_trans; [apply Z.log2_lxor; lia|].
  apply Z.max_lub_lt.
  - destruct (decide (a = 0)) as [->|]; [simpl; lia|]. apply Z.log2_lt_pow2; lia.
  - destruct (decide (c = 0)) as [->|]; [simpl; lia|]. apply Z.log2_lt_pow2; lia.
Qed.


Lemma Uint32ToBytes_bytes x : Forall isByte (Uint32ToBytes x).
Proof.
  unfold Uint32ToBytes, isByte. repeat constructor; try (apply Z.mod_pos_bound; lia); apply Z.mod_pos_bound; lia.
Qed.

Lemma Uint32ToBytes_big_endian x :
  0 ≤ x < 2 ^ 32 →
  ∃ b0 b1 b2 b3, Uint32ToBytes x = [b0; b1; b2; b3]
    ∧ x = b0 * 2 ^ 24 + b1 * 2 ^ 16 + b2 * 2 ^ 8 + b3.
Proof.
  intros Hx. do 4 eexists. split; [reflexivity|].
  rewrite (Z.mod_small (x / 2 ^ 24)) by (split; [apply Z.div_pos; lia| apply Z.div_lt_upper_bound; lia]).
  change (2 ^ 24) with (2 ^ 8 * 2 ^ 16) at 1. 
  pose proof (Z.div_mod x (2^8) ltac:(lia)).
  pose proof (Z.div_mod (x / 2^8) (2^8) ltac:(lia)).
  pose proof (Z.div_mod (x / 2^8 / 2^8) (2^8) ltac:(lia)).
  rewrite !Z.div_div in * by lia.
  change (2 ^ 8 * 2 ^ 8) with (2 ^ 16) in *.
  change (2 ^ 16 * 2 ^ 8) with (2 ^ 24) in *.
  change 256 with (2 ^ 8). change (2 ^ 8 * 2 ^ 16) with (2 ^ 24). lia.
Qed.

Lemma fnv32Write_range h data :
  0 ≤ h < 2 ^ 32 → Forall isByte data → 0 ≤ fnv32Write h data < 2 ^ 32.
Proof.
  unfold fnv32Write. revert h. induction data as [|c data IH]; intros h Hh Hd; [done|].
  inversion_clear Hd as [|?? Hc Hd']. simpl. apply IH; [|done].
  apply lxor_range; [apply wrap32_range|]. unfold isByte in Hc. lia.
Qed.

Lemma fnv32Write_app h d1 d2 : fnv32Write h (d1 ++ d2) = fnv32Write (fnv32Write h d1) d2.
Proof. apply foldl_app. Qed.

Lemma foldl_fnv32Write h (f : Z → list Z) l :
  foldl (λ h b, fnv32Write h (f b)) h l = fnv32Write h (concat (f <$> l)).
Proof.
  revert h. induction l as [|b l IH]; intros h; [done|].
  simpl. rewrite IH, fnv32Write_app. done.
Qed.

Lemma getId_range bids : 0 ≤ getId bids < 2 ^ 32.
Proof.
  unfold getId. rewrite foldl_fnv32Write. apply fnv32Write_range; [unfold offset32; lia|].
  induction (sortIds bids) as [|b l IH]; [constructor|].
  rewrite fmap_cons. change (concat (?x :: ?r)) with (x ++ concat r).
  apply Forall_app; split; [apply Uint32ToBytes_bytes | apply IH].
Qed.

(** * The traversal never runs out of steps *)

Lemma fuelSafe_ret {A} (a : A) : fuelSafe (ret a).
Proof. intros w w'. discriminate. Qed.

Lemma fuelSafe_fail {A} e : e ≠ OutOfFuel → fuelSafe (@fail A e).
Proof. intros He w w' [= -> _]. done. Qed.

Lemma fuelSafe_getNi : fuelSafe getNi.
Proof. intros w w'. discriminate. Qed.

Lemma fuelSafe_modifyNi g : fuelSafe (modifyNi g).
Proof. intros w w'. discriminate. Qed.

Lemma fuelSafe_alloc v : fuelSafe (alloc v).
Proof. intros w w'. discriminate. Qed.

Lemma fuelSafe_load a : fuelSafe (load a).
Proof. intros w w'. discriminate. Qed.

Lemma fuelSafe_store a v : fuelSafe (store a v).
Proof. intros w w'. discriminate. Qed.

Lemma fuelSafe_rangeOver rangeOrder {A} (l : list A) : fuelSafe (rangeOver rangeOrder l).
Proof. intros w w'. discriminate. Qed.

Lemma fuelSafe_bind {A B} (m : M A) (k : A → M B) :
  fuelSafe m → (∀ a, fuelSafe (k a)) → fuelSafe (bind m k).
Proof.
  intros Hm Hk w w'. unfold bind. specialize (Hm w).
  destruct (m w) as [a w1|e w1]; [apply Hk|].
  intros [= -> ->]. by apply (Hm w').
Qed.

Lemma fuelSafe_foldM {A C} (body : C → A → M C) l c :
  (∀ c x, fuelSafe (body c x)) → fuelSafe (foldM body l c).
Proof.
  intros Hb. revert c. induction l as [|x l IH]; intros c; [apply fuelSafe_ret|].
  simpl. apply fuelSafe_bind; [apply Hb | apply IH].
Qed.

Lemma fuelSafe_forEach {A} (body : A → M unit) l :
  (∀ x, fuelSafe (body x)) → fuelSafe (forEach l body).
Proof.
  intros Hb. induction l as [|x l IH]; [apply fuelSafe_ret|].
  simpl. apply fuelSafe_bind; [apply Hb | intros _; apply IH].
Qed.

Lemma fuelSafe_foldLayersUpTo {C} a b (body : C → Z → M C) c :
  (∀ c x, fuelSafe (body c x)) → fuelSafe (foldLayersUpTo a b body c).
Proof.
  intros Hb. unfold foldLayersUpTo. apply fuelSafe_bind; [by apply fuelSafe_foldM|].
  intros c'. destruct (decide _); [by apply fuelSafe_fail|apply fuelSafe_ret].
Qed.

Ltac fuelSafe_step :=
  first
    [ apply fuelSafe_ret | apply fuelSafe_fail; discriminate | apply fuelSafe_getNi
    | apply fuelSafe_alloc | apply fuelSafe_load | apply fuelSafe_store
    | apply fuelSafe_modifyNi | apply fuelSafe_rangeOver
    | apply fuelSafe_bind; [|intros ?]
    | apply fuelSafe_foldM; intros ? ?
    | apply fuelSafe_forEach; intros ?
    | apply fuelSafe_foldLayersUpTo; intros ? ?
    | match goal with
      | |- fuelSafe (match ?x with _ => _ end) => destruct x
      end ].

Ltac fuelSafe_auto := repeat fuelSafe_step.

Lemma pushChild_measure bs layer block a set rest :
  bs !! a = Some block → set ⊆ edgeTargets bs →
  let st := foldl (pushChild layer block) (set, rest) (ViewEdges (nbBlock block)) in
  st.1 ⊆ edgeTargets bs
  ∧ (length st.2 + size (edgeTargets bs ∖ st.1)
     = length rest + size (edgeTargets bs ∖ set))%nat.
Proof.
  intros Hb Hset st. subst st. destruct (decide (layer < nbLayer block)) as [Hl|Hl].
  - destruct (pushChild_above layer block set rest (ViewEdges (nbBlock block)) Hl)
      as (new & -> & Hnd & Hnew). simpl. split.
    + intros x [Hx|Hx]%elem_of_union; [by apply Hset|].
      apply elem_of_list_to_set, Hnew in Hx as [Hx _]. by eapply edgeTargets_elem.
    + rewrite length_app.
      pose proof (size_difference_new (edgeTargets bs) set new Hnd) as Hsz.
      rewrite <- Hsz; [lia|].
      intros c [Hc Hns]%Hnew. split; [by eapply edgeTargets_elem|done].
  - rewrite pushChild_below by done. done.
Qed.

Lemma fuelSafe_bfsLoop {C} (foo : ninjaBlock → C → M C) fuel layer queue set cnt c w w' :
  (∀ b c, keeps blocks (foo b c)) → (∀ b c, fuelSafe (foo b c)) →
  set ⊆ edgeTargets (blocks (ni w)) →
  (length queue + size (edgeTargets (blocks (ni w)) ∖ set) ≤ fuel)%nat →
  bfsLoop fuel layer foo queue set cnt c w ≠ Panic OutOfFuel w'.
Proof.
  intros Hkeep Hsafe. revert queue set cnt c w.
  induction fuel as [|fuel IH]; intros queue set cnt c w Hset Hfuel;
    destruct queue as [|a rest]; try discriminate.
  - simpl in Hfuel. lia.
  - simpl. unfold bind at 1, getNi at 1.
    destruct (blocks (ni w) !! a) as [block|] eqn:Hb; [|discriminate].
    unfold bind. pose proof (Hkeep block c w) as Hk. pose proof (Hsafe block c w) as Hs.
    destruct (foo block c w) as [c' w1|e w1]; simpl in Hk.
    + destruct (pushChild_measure (blocks (ni w)) layer block a set rest Hb Hset)
        as [Hset' Hmeasure].
      apply IH; rewrite Hk; [done|]. simpl in Hfuel. lia.
    + intros [= -> ->]. by apply (Hs w').
Qed.

Lemma fuelSafe_forBlockInView {C} (foo : ninjaBlock → C → M C) seeds layer c :
  (∀ b c, keeps blocks (foo b c)) → (∀ b c, fuelSafe (foo b c)) →
  fuelSafe (forBlockInView seeds layer foo c).
Proof.
  intros Hkeep Hsafe w w'. unfold forBlockInView, bind, getNi.
  apply fuelSafe_bfsLoop; [done|done|apply empty_subseteq|].
  rewrite length_reverse, difference_empty_L. lia.
Qed.

Lemma fuelSafe_Add a v : fuelSafe (Add a v).
Proof. unfold Add. fuelSafe_auto. Qed.

Lemma fuelSafe_Negate a : fuelSafe (Negate a).
Proof. unfold Negate. fuelSafe_auto. Qed.

Lemma fuelSafe_Multiplay a x : fuelSafe (Multiplay a x).
Proof. unfold Multiplay. fuelSafe_auto. Qed.

Lemma fuelSafe_nonNil a : fuelSafe (nonNil a).
Proof. unfold nonNil. fuelSafe_auto. Qed.

Lemma fuelSafe_writeTally p b a : fuelSafe (writeTally p b a).
Proof. unfold writeTally. fuelSafe_auto. Qed.

Lemma fuelSafe_ensureTally p : fuelSafe (ensureTally p).
Proof. unfold ensureTally. fuelSafe_auto. Qed.

Ltac fuelSafe_engine_step :=
  first
    [ apply fuelSafe_Add | apply fuelSafe_Negate | apply fuelSafe_Multiplay
    | apply fuelSafe_nonNil | apply fuelSafe_writeTally | apply fuelSafe_ensureTally
    | fuelSafe_step ].

Ltac fuelSafe_engine := repeat fuelSafe_engine_step.

Lemma fuelSafe_addPatternVote p b : fuelSafe (addPatternVote p b).
Proof. unfold addPatternVote. fuelSafe_engine. Qed.

Lemma fuelSafe_countEffective g b c : fuelSafe (countEffective g b c).
Proof. unfold countEffective. fuelSafe_engine. Qed.

Lemma fuelSafe_globalOpinion p x : fuelSafe (globalOpinion p x).
Proof. unfold globalOpinion. fuelSafe_engine. Qed.

Lemma fuelSafe_updateCorrectionVectors p : fuelSafe (updateCorrectionVectors p).
Proof. unfold updateCorrectionVectors. fuelSafe_engine. Qed.

Lemma fuelSafe_updatePatternTally g p : fuelSafe (updatePatternTally g p).
Proof.
  unfold updatePatternTally.
  repeat first
    [ apply fuelSafe_forBlockInView;
        [intros ? ?; apply keeps_countEffective
        |intros ? ?; apply fuelSafe_countEffective]
    | fuelSafe_engine_step ].
Qed.

Lemma fuelSafe_voteOnLayer j sU block : fuelSafe (voteOnLayer j sU block).
Proof. unfold voteOnLayer, addSupport. fuelSafe_engine. Qed.

Lemma fuelSafe_markGood i j mg p : fuelSafe (markGood i j mg p).
Proof. unfold markGood. fuelSafe_engine. Qed.

Lemma fuelSafe_voteLayer p cnt flag i : fuelSafe (voteLayer p cnt flag i).
Proof.
  unfold voteLayer, sumNodesInView.
  repeat first [ apply fuelSafe_globalOpinion | fuelSafe_engine_step ].
Qed.

Section FuelSafe.
Variable rangeOrder : nat → ∀ A : Type, list A → list A.

Lemma fuelSafe_processBlock b : fuelSafe (processBlock rangeOrder b).
Proof. unfold processBlock. fuelSafe_engine. Qed.

Lemma fuelSafe_findMinimalGoodLayer i bs : fuelSafe (findMinimalGoodLayer rangeOrder i bs).
Proof.
  unfold findMinimalGoodLayer.
  repeat first [ apply fuelSafe_voteOnLayer | apply fuelSafe_markGood | fuelSafe_engine_step ].
Qed.

Lemma fuelSafe_tallyGood j p : fuelSafe (tallyGood rangeOrder j p).
Proof.
  unfold tallyGood.
  repeat first
    [ apply fuelSafe_updatePatternTally | apply fuelSafe_updateCorrectionVectors
    | apply fuelSafe_voteLayer
    | apply fuelSafe_forBlockInView;
        [intros ? ?; apply keeps_addPatternVote; intros; reflexivity
        |intros ? ?; apply fuelSafe_addPatternVote]
    | fuelSafe_engine_step ].
Qed.

(** The steps granted to every traversal of a call are enough: a call of
    [UpdateTables] returns, panics as the Go code does, or loops forever
    as the Go code does, and never stops for lack of steps. *)
Lemma UpdateTables_fuel_suffices B i : fuelSafe (UpdateTables rangeOrder B i).
Proof.
  unfold UpdateTables, insertBlocks.
  repeat first
    [ apply fuelSafe_processBlock | apply fuelSafe_findMinimalGoodLayer
    | apply fuelSafe_tallyGood | fuelSafe_engine_step ].
Qed.
End FuelSafe.

(** * Completeness is never withheld *)

Lemma wp_keeps_eq {X A} (f : ninjaTortoise → X) (m : M A) w :
  keeps f m →
  wp m (λ _ w', f (ni w') = f (ni w)) (λ w', f (ni w') = f (ni w)) w.
Proof.
  intros Hk. specialize (Hk w). unfold wp. by destruct (m w).
Qed.

Lemma fillTally_spec p cnt i bid w :
  wp (match lookup2 (tTally (ni w)) p bid with
      | None =>
          t <- sumNodesInView cnt i (Layer p) ;;
          a <- nonNil t ;;
          writeTally p bid a
      | Some _ => ret tt
      end)
     (λ _ w', is_Some (lookup2 (tTally (ni w')) p bid)
              ∧ storeAndComplete (ni w') = storeAndComplete (ni w))
     (λ _, True) w.
Proof.
  destruct (lookup2 (tTally (ni w)) p bid) as [a|] eqn:Hl.
  - unfold wp, ret. rewrite Hl. by split; [eexists|].
  - unfold wp, sumNodesInView, Multiplay, nonNil, writeTally, bind, load, store, ret,
      getNi, modifyNi, fail. simpl.
    destruct (tTally (ni w) !! p) as [m|] eqn:Hm; [|done]. simpl.
    split; [|done]. unfold lookup2. rewrite lookup_insert_eq. simpl.
    rewrite lookup_insert_eq. by eexists.
Qed.

Lemma globalOpinion_found p b w :
  is_Some (lookup2 (tTally (ni w)) p (nbID b)) →
  ∃ v, globalOpinion p b w = Ok (Some v) w.
Proof.
  intros [a Ha]. unfold globalOpinion, bind, getNi, load, ret. rewrite Ha.
  repeat case_match; eauto.
Qed.

Lemma voteLayer_flag p cnt flag i w :
  blocks_keyed (ni w) →
  wp (voteLayer p cnt flag i)
     (λ flag' w', flag' = flag ∧ storeAndComplete (ni w') = storeAndComplete (ni w))
     (λ _, True) w.
Proof.
  intros Hkeyed. unfold voteLayer. apply wp_bind. unfold wp at 1, getNi.
  destruct (layerBlocks (ni w) !! i) as [layer|]; [|done].
  apply wp_bind.
  eapply wp_mono;
    [apply (wp_foldM _ (λ acc w', acc.1 = flag
              ∧ storeAndComplete (ni w') = storeAndComplete (ni w)) (λ _, True))| |done].
  - done.
  - intros acc bid w0 _ [Hacc Hsame]. apply wp_bind. unfold wp at 1, getNi.
    apply wp_bind. eapply wp_mono; [apply fillTally_spec| |done].
    intros _ w1 [Hfound Hsame1]. apply wp_bind. unfold wp at 1, getNi.
    destruct (blocks (ni w1) !! bid) as [b|] eqn:Hb; [|done].
    assert (Hid : nbID b = bid).
    { apply Hkeyed. unfold storeAndComplete in *.
      injection Hsame as Hs _. injection Hsame1 as Hs1 _. congruence. }
    rewrite <- Hid in Hfound.
    destruct (globalOpinion_found p b w1 Hfound) as [v Hv].
    unfold wp, bind. rewrite Hv. unfold getNi, modifyNi, ret. simpl.
    split; [done|]. by rewrite <- Hsame, <- Hsame1.
  - intros r w1 [Hr Hsame]. unfold wp, bind, getNi, modifyNi, ret. simpl. done.
Qed.

Section Completes.
Variable rangeOrder : nat → ∀ A : Type, list A → list A.

(** When the pass over a good pattern [p] returns, [p] is complete: the
    flag of the pass is never cleared, whatever the votes are; if [p] was
    not complete before, it is the frontier afterwards. *)
Lemma tallyGood_completes j p w w' :
  blocks_keyed (ni w) →
  tallyGood rangeOrder j p w = Ok tt w' →
  p ∈ tComplete (ni w') ∧ (p ∉ tComplete (ni w) → pBase (ni w') = p).
Proof.
  intros Hkeyed Hrun.
  assert (Hwp : wp (tallyGood rangeOrder j p)
            (λ _ w', p ∈ tComplete (ni w') ∧ (p ∉ tComplete (ni w) → pBase (ni w') = p))
            (λ _, True) w); [|exact (wp_Ok _ _ _ _ _ _ Hwp Hrun)].
  clear Hrun w'.
  cut (∀ w0, storeAndComplete (ni w0) = storeAndComplete (ni w) →
         wp (tallyGood rangeOrder j p)
           (λ _ w', p ∈ tComplete (ni w') ∧ (p ∉ tComplete (ni w) → pBase (ni w') = p))
           (λ _, True) w0); [by intros H; apply H|].
  intros w0 Hsame. unfold tallyGood.
  repeat (apply wp_bind;
    eapply wp_mono;
      [apply (wp_keeps_eq storeAndComplete);
         repeat first [ apply keeps_rangeOver | apply keeps_ensureTally
                      | apply keeps_writeTally | apply keeps_updatePatternTally
                      | apply keeps_forBlockInView; intros ? ?
                      | apply keeps_addPatternVote | apply keeps_updateCorrectionVectors
                      | keeps_step ]; done
      |intros ? ? Hsame'; rewrite Hsame in Hsame'; clear Hsame; rename Hsame' into Hsame
      |done]).
  apply wp_bind. unfold foldLayersUpTo. apply wp_bind.
  eapply wp_mono;
    [apply (wp_foldM _ (λ flag w', flag = true
              ∧ storeAndComplete (ni w') = storeAndComplete (ni w)) (λ _, True))| |done].
  { done. }
  { intros flag i w1 _ [-> Hsame1]. eapply wp_mono; [apply voteLayer_flag| |done].
    - intros x nb Hx. apply Hkeyed. unfold storeAndComplete in Hsame1.
      injection Hsame1 as Hs _. congruence.
    - intros flag' w2 [-> Hsame2]. split; [done|]. by rewrite Hsame2. }
  intros flag w1 [-> Hsame1]. destruct (decide _); [done|].
  unfold wp at 1, ret. apply wp_bind. unfold wp at 1, getNi.
  unfold storeAndComplete in Hsame1. injection Hsame1 as _ Hc.
  destruct (bool_decide (p ∉ tComplete (ni w1))) eqn:Hd; simpl.
  - unfold wp, modifyNi. simpl. split; [|done]. apply elem_of_union. left.
    by apply elem_of_singleton.
  - unfold wp, ret. apply bool_decide_eq_false in Hd.
    assert (Hin : p ∈ tComplete (ni w1)) by (by apply dec_stable).
    split; [done|]. rewrite <- Hc. done.
Qed.

Lemma keeps_blocks_voteLayer p cnt flag i : keeps blocks (voteLayer p cnt flag i).
Proof.
  unfold voteLayer, globalOpinion.
  repeat first [ apply keeps_sumNodesInView | apply keeps_nonNil | apply keeps_writeTally
               | keeps_step ]; done.
Qed.

Lemma keeps_blocks_tallyGood j p : keeps blocks (tallyGood rangeOrder j p).
Proof.
  unfold tallyGood.
  repeat first [ apply keeps_rangeOver | apply keeps_ensureTally
               | apply keeps_writeTally | apply keeps_updatePatternTally
               | apply keeps_forBlockInView; intros ? ?
               | apply keeps_addPatternVote | apply keeps_updateCorrectionVectors
               | apply keeps_blocks_voteLayer
               | keeps_step ]; done.
Qed.

Lemma keeps_blocks_findMinimalGoodLayer i bs :
  keeps blocks (findMinimalGoodLayer rangeOrder i bs).
Proof.
  unfold findMinimalGoodLayer, voteOnLayer, markGood, addSupport.
  repeat first [ apply keeps_rangeOver | keeps_step ].
Qed.

(** A property of stored blocks that holds of what [processBlock] stores
    holds of every block stored after a call. *)
Lemma UpdateTables_stored (Φ : Z → ninjaBlock → Prop) B i w :
  (∀ b nb, nbBlock nb = b → (size (nbVotes nb) ≤ 1)%nat → Φ (Id b) nb) →
  map_Forall Φ (blocks (ni w)) →
  map_Forall Φ (blocks (ni (finalWorld (UpdateTables rangeOrder B i w)))).
Proof.
  intros HΦ Hw.
  cut (wp (UpdateTables rangeOrder B i) (λ _ w', map_Forall Φ (blocks (ni w')))
          (λ w', map_Forall Φ (blocks (ni w'))) w).
  { unfold wp. by destruct (UpdateTables rangeOrder B i w). }
  unfold UpdateTables. apply wp_bind.
  eapply wp_mono;
    [apply (wp_foldM _ (λ _ w', map_Forall Φ (blocks (ni w')))
              (λ w', map_Forall Φ (blocks (ni w'))))| |done].
  - done.
  - intros bs block w0 _ Hw0. apply wp_bind.
    eapply wp_mono; [apply processBlock_spec| |].
    + intros nb w1 (Hsz & _ & Hnb & Hstore). unfold wp, bind, modifyNi, ret. simpl.
      rewrite Hstore. apply map_Forall_insert_2; [by apply HΦ|done].
    + by intros w1 [-> _].
  - intros bs w0 Hw0. destruct (decide (i = 0)); [done|].
    assert (Hstable : ∀ (A : Type) (m : M A) w1,
              keeps blocks m → map_Forall Φ (blocks (ni w1)) →
              wp m (λ _ w', map_Forall Φ (blocks (ni w')))
                (λ w', map_Forall Φ (blocks (ni w'))) w1).
    { intros A m w1 Hk Hw1. eapply wp_mono; [by apply (wp_keeps_eq blocks)| |].
      - intros ? w2 Heq. by rewrite Heq.
      - intros w2 Heq. by rewrite Heq. }
    apply wp_bind. eapply wp_mono; [apply Hstable;
      [apply keeps_blocks_findMinimalGoodLayer|done]| |done].
    intros l w1 Hw1. apply Hstable; [|done].
    repeat first [ apply keeps_blocks_tallyGood | keeps_step ].
Qed.

Lemma reachable_blocks_keyed w : reachable rangeOrder w → blocks_keyed (ni w).
Proof.
  intros Hw. induction Hw as [layerSize|w B i Hw IH Hi].
  - intros a nb Ha. simpl in Ha. by rewrite lookup_empty in Ha.
  - apply (UpdateTables_stored (λ a nb, nbID nb = a)); [|done].
    intros b nb <- _. done.
Qed.

(** In every world an engine can reach, no stored block holds explicit
    votes for more than one layer. *)
Lemma reachable_blocks_one_vote w a nb :
  reachable rangeOrder w → blocks (ni w) !! a = Some nb → (size (nbVotes nb) ≤ 1)%nat.
Proof.
  intros Hw. revert a nb. induction Hw as [layerSize|w B i Hw IH Hi].
  - intros a nb Ha. simpl in Ha. by rewrite lookup_empty in Ha.
  - apply (UpdateTables_stored (λ _ nb, (size (nbVotes nb) ≤ 1)%nat)); [|done].
    intros b nb _ Hsz. done.
Qed.

(** In every world an engine can reach, a pass over a good pattern that
    returns leaves the pattern complete, whatever its votes are. *)
Lemma reachable_tallyGood_completes j p w w' :
  reachable rangeOrder w →
  tallyGood rangeOrder j p w = Ok tt w' →
  p ∈ tComplete (ni w') ∧ (p ∉ tComplete (ni w) → pBase (ni w') = p).
Proof.
  intros Hw. apply tallyGood_completes. by apply reachable_blocks_keyed.
Qed.
End Completes.

(** * No loop counter wraps around *)

Lemma loopSafe_ret {A} (a : A) : loopSafe (ret a).
Proof. intros w w'. discriminate. Qed.

Lemma loopSafe_fail {A} e : e ≠ Diverges → loopSafe (@fail A e).
Proof. intros He w w' [= -> _]. done. Qed.

Lemma loopSafe_getNi : loopSafe getNi.
Proof. intros w w'. discriminate. Qed.

Lemma loopSafe_modifyNi g : loopSafe (modifyNi g).
Proof. intros w w'. discriminate. Qed.

Lemma loopSafe_alloc v : loopSafe (alloc v).
Proof. intros w w'. discriminate. Qed.

Lemma loopSafe_load a : loopSafe (load a).
Proof. intros w w'. discriminate. Qed.

Lemma loopSafe_store a v : loopSafe (store a v).
Proof. intros w w'. discriminate. Qed.

Lemma loopSafe_rangeOver rangeOrder {A} (l : list A) : loopSafe (rangeOver rangeOrder l).
Proof. intros w w'. discriminate. Qed.

Lemma loopSafe_bind {A B} (m : M A) (k : A → M B) :
  loopSafe m → (∀ a, loopSafe (k a)) → loopSafe (bind m k).
Proof.
  intros Hm Hk w w'. unfold bind. specialize (Hm w).
  destruct (m w) as [a w1|e w1]; [apply Hk|].
  intros [= -> ->]. by apply (Hm w').
Qed.

Lemma loopSafe_foldM {A C} (body : C → A → M C) l c :
  (∀ c x, loopSafe (body c x)) → loopSafe (foldM body l c).
Proof.
  intros Hb. revert c. induction l as [|x l IH]; intros c; [apply loopSafe_ret|].
  simpl. apply loopSafe_bind; [apply Hb | apply IH].
Qed.

Lemma loopSafe_forEach {A} (body : A → M unit) l :
  (∀ x, loopSafe (body x)) → loopSafe (forEach l body).
Proof.
  intros Hb. induction l as [|x l IH]; [apply loopSafe_ret|].
  simpl. apply loopSafe_bind; [apply Hb | intros _; apply IH].
Qed.

Lemma loopSafe_foldLayersUpTo {C} a b (body : C → Z → M C) c :
  b ≠ maxUint32 → (∀ c x, loopSafe (body c x)) → loopSafe (foldLayersUpTo a b body c).
Proof.
  intros Hne Hb. unfold foldLayersUpTo. apply loopSafe_bind; [by apply loopSafe_foldM|].
  intros c'. destruct (decide _); [done|apply loopSafe_ret].
Qed.

Lemma loopSafe_bfsLoop {C} (foo : ninjaBlock → C → M C) fuel layer queue set cnt c :
  (∀ b c, loopSafe (foo b c)) → loopSafe (bfsLoop fuel layer foo queue set cnt c).
Proof.
  intros Hfoo. revert queue set cnt c.
  induction fuel as [|fuel IH]; intros queue set cnt c; destruct queue as [|a rest]; simpl;
    try apply loopSafe_ret; try (apply loopSafe_fail; discriminate).
  apply loopSafe_bind; [apply loopSafe_getNi|]. intros s.
  destruct (blocks s !! a); [|apply loopSafe_fail; discriminate].
  apply loopSafe_bind; [apply Hfoo|]. intros c'. apply IH.
Qed.

Lemma loopSafe_forBlockInView {C} (foo : ninjaBlock → C → M C) seeds layer c :
  (∀ b c, loopSafe (foo b c)) → loopSafe (forBlockInView seeds layer foo c).
Proof.
  intros Hfoo. unfold forBlockInView. apply loopSafe_bind; [apply loopSafe_getNi|].
  intros s. by apply loopSafe_bfsLoop.
Qed.

Ltac loopSafe_step :=
  first
    [ apply loopSafe_ret | apply loopSafe_fail; discriminate | apply loopSafe_getNi
    | apply loopSafe_alloc | apply loopSafe_load | apply loopSafe_store
    | apply loopSafe_modifyNi | apply loopSafe_rangeOver
    | apply loopSafe_forBlockInView; intros ? ?
    | apply loopSafe_bind; [|intros ?]
    | apply loopSafe_foldM; intros ? ?
    | apply loopSafe_forEach; intros ?
    | match goal with
      | |- loopSafe (match ?x with _ => _ end) => destruct x
      end ].

Lemma loopSafe_voteLayer p cnt flag i : loopSafe (voteLayer p cnt flag i).
Proof.
  unfold voteLayer, sumNodesInView, globalOpinion, Multiplay, nonNil, writeTally.
  repeat loopSafe_step.
Qed.

Lemma loopSafe_addPatternVote p b : loopSafe (addPatternVote p b).
Proof.
  unfold addPatternVote, Add, nonNil, writeTally, ensureTally. repeat loopSafe_step.
Qed.

Lemma loopSafe_updateCorrectionVectors p : loopSafe (updateCorrectionVectors p).
Proof. unfold updateCorrectionVectors, Negate, nonNil. repeat loopSafe_step. Qed.

Lemma loopSafe_updatePatternTally g p :
  Layer g ≠ maxUint32 → loopSafe (updatePatternTally g p).
Proof.
  intros Hg. unfold updatePatternTally.
  apply loopSafe_bind; [apply loopSafe_alloc|]. intros corr0.
  apply loopSafe_bind; [apply loopSafe_getNi|]. intros s.
  apply loopSafe_bind.
  { unfold countEffective, Add. repeat loopSafe_step. }
  intros r. apply loopSafe_bind; [apply loopSafe_getNi|]. intros s0.
  apply loopSafe_foldLayersUpTo; [done|]. intros ? i.
  unfold Multiplay, Add, nonNil, writeTally. repeat loopSafe_step.
Qed.

Lemma loopSafeWhen_safe {A} (m : M A) : loopSafe m → loopSafeWhen m.
Proof. intros Hm w w' _. apply Hm. Qed.

Lemma loopSafeWhen_bind {A B} (m : M A) (k : A → M B) :
  loopSafeWhen m → keeps tGood m → (∀ a, loopSafeWhen (k a)) → loopSafeWhen (bind m k).
Proof.
  intros Hm Hkeep Hk w w' Hw. unfold bind. specialize (Hm w). specialize (Hkeep w).
  destruct (m w) as [a w1|e w1]; simpl in Hkeep.
  - apply Hk. unfold goodFiled. by rewrite Hkeep.
  - intros [= -> ->]. by apply (Hm w').
Qed.

Lemma loopSafeWhen_getNi {B} (k : ninjaTortoise → M B) :
  (∀ s, goodFiled s → loopSafeWhen (k s)) → loopSafeWhen (bind getNi k).
Proof. intros Hk w w' Hw. unfold bind, getNi. by apply Hk. Qed.

Lemma loopSafeWhen_forEach {A} (body : A → M unit) l :
  (∀ x, x ∈ l → loopSafeWhen (body x)) → (∀ x, keeps tGood (body x)) →
  loopSafeWhen (forEach l body).
Proof.
  intros Hb Hkeep. induction l as [|x l IH]; [apply loopSafeWhen_safe, loopSafe_ret|].
  simpl. apply loopSafeWhen_bind; [apply Hb; left|apply Hkeep|].
  intros _. apply IH. intros y Hy. apply Hb. by right.
Qed.

Lemma keeps_tGood_voteLayer p cnt flag i : keeps tGood (voteLayer p cnt flag i).
Proof.
  unfold voteLayer, globalOpinion.
  repeat first [ apply keeps_sumNodesInView | apply keeps_nonNil | apply keeps_writeTally
               | keeps_step ]; done.
Qed.

Section LoopSafe.
Variable rangeOrder : nat → ∀ A : Type, list A → list A.
Hypothesis rangeOrder_valid : validOrder rangeOrder.

Lemma keeps_tGood_tallyGood j p : keeps tGood (tallyGood rangeOrder j p).
Proof.
  unfold tallyGood.
  repeat first [ apply keeps_rangeOver | apply keeps_ensureTally
               | apply keeps_writeTally | apply keeps_updatePatternTally
               | apply keeps_forBlockInView; intros ? ?
               | apply keeps_addPatternVote | apply keeps_updateCorrectionVectors
               | apply keeps_tGood_voteLayer
               | keeps_step ]; done.
Qed.

Lemma loopSafeWhen_tallyGood j p :
  j < maxUint32 → loopSafeWhen (tallyGood rangeOrder j p).
Proof.
  intros Hj. unfold tallyGood.
  apply loopSafeWhen_getNi. intros s _.
  apply loopSafeWhen_bind;
    [apply loopSafeWhen_safe, loopSafe_rangeOver|apply keeps_rangeOver|]. intros entries.
  apply loopSafeWhen_bind.
  { apply loopSafeWhen_safe. unfold ensureTally, writeTally. repeat loopSafe_step. }
  { repeat first [ apply keeps_ensureTally | apply keeps_writeTally | keeps_step ]; done. }
  intros _. apply loopSafeWhen_getNi. intros s1 _.
  apply loopSafeWhen_bind.
  { apply loopSafeWhen_forEach.
    - intros k Hk. apply elem_of_layersBelow in Hk.
      apply loopSafeWhen_getNi. intros s2 Hs2.
      destruct (tGood s2 !! k) as [gK|] eqn:HgK; [|apply loopSafeWhen_safe, loopSafe_ret].
      apply loopSafeWhen_safe, loopSafe_updatePatternTally.
      rewrite (Hs2 _ _ HgK). lia.
    - intros k. repeat first [ apply keeps_updatePatternTally | keeps_step ]; done. }
  { repeat first [ apply keeps_updatePatternTally | keeps_step ]; done. }
  intros _. apply loopSafeWhen_safe.
  apply loopSafe_bind; [apply loopSafe_getNi|]. intros s3.
  apply loopSafe_bind.
  { apply loopSafe_forBlockInView. intros ? ?. apply loopSafe_addPatternVote. }
  intros r. apply loopSafe_bind; [apply loopSafe_updateCorrectionVectors|]. intros _.
  apply loopSafe_bind; [apply loopSafe_getNi|]. intros s4.
  apply loopSafe_bind.
  { apply loopSafe_foldLayersUpTo; [lia|]. intros ? ?. apply loopSafe_voteLayer. }
  intros flag. repeat loopSafe_step.
Qed.

Lemma loopSafe_insertBlocks B i : loopSafe (insertBlocks rangeOrder B i).
Proof. unfold insertBlocks, processBlock. repeat loopSafe_step. Qed.

Lemma loopSafe_findMinimalGoodLayer i bs : loopSafe (findMinimalGoodLayer rangeOrder i bs).
Proof.
  unfold findMinimalGoodLayer, voteOnLayer, markGood, addSupport. repeat loopSafe_step.
Qed.

(** In a world an engine can reach, no loop of [UpdateTables] sees its
    counter wrap around. *)
Lemma UpdateTables_never_diverges B i w w' :
  reachable rangeOrder w → 0 ≤ i ≤ maxUint32 →
  UpdateTables rangeOrder B i w ≠ Panic Diverges w'.
Proof.
  intros Hw Hi.
  pose proof (reachable_frontier_wf rangeOrder w rangeOrder_valid Hw) as Hwf.
  unfold UpdateTables, bind at 1.
  pose proof (insertBlocks_spec rangeOrder B i w frontier_wf frontier_wf_core Hwf) as Hins.
  unfold wp in Hins. pose proof (loopSafe_insertBlocks B i w) as Hsafe.
  destruct (insertBlocks rangeOrder B i w) as [bs w0|e w0].
  2: { intros [= -> ->]. by apply (Hsafe w'). }
  destruct Hins as [Hwf0 Hbs]. destruct (decide (i = 0)); [discriminate|].
  unfold bind at 1.
  pose proof (findMinimalGoodLayer_spec rangeOrder rangeOrder_valid i bs w0 Hwf0 Hbs) as Hfind.
  unfold wp in Hfind. pose proof (loopSafe_findMinimalGoodLayer i bs w0) as Hsafe0.
  destruct (findMinimalGoodLayer rangeOrder i bs w0) as [l w1|e w1].
  2: { intros [= -> ->]. by apply (Hsafe0 w'). }
  destruct Hfind as ((Hgood & _) & _). clear Hsafe0.
  refine (loopSafeWhen_bind _ _ _ _ _ w1 w' Hgood).
  - apply loopSafeWhen_forEach.
    + intros j Hj. apply elem_of_layersBelow in Hj.
      apply loopSafeWhen_getNi. intros s _.
      destruct (tGood s !! j); [|apply loopSafeWhen_safe, loopSafe_ret].
      apply loopSafeWhen_tallyGood. lia.
    + intros j. repeat first [ apply keeps_tGood_tallyGood | keeps_step ].
  - repeat first [ apply keeps_tGood_tallyGood | keeps_step ].
  - intros _. apply loopSafeWhen_safe. repeat loopSafe_step.
Qed.
End LoopSafe.


(** * Properties of the engine *)

Lemma listedOrder_valid : validOrder listedOrder.
Proof. intros n A l. reflexivity. Qed.

Lemma reverseOrder_valid : validOrder reverseOrder.
Proof. intros n A l. apply reverse_Permutation. Qed.

(** ** C1: the support test *)

(** C1, what the code does.  With a layer size of 4, three blocks of layer
    4 vote for the pattern of block 13 in layer 3.  Its support, 6, is
    above half the layer size times the one layer that separates the two,
    yet the test of the code fails and no good pattern is recorded for
    layer 3. *)
Theorem majority_test_rejects_supported_pattern :
  ∃ w', UpdateTables listedOrder voters4 4 (after listedOrder chain4 (newWorld 4)) = Ok 0 w'
        ∧ tSupport (ni w') !! pattern13 = Some 6
        ∧ 2 * 6 > LayerSize (ni w') * (4 - Layer pattern13)
        ∧ majority (ni w') 4 pattern13 = false
        ∧ tGood (ni w') !! 3 = None.
Proof.
  eexists. split; [vm_compute; reflexivity|].
  split; [vm_compute; reflexivity|]. split; [vm_compute; reflexivity|].
  split; vm_compute; reflexivity.
Qed.

(** ** C2: completeness *)

(** C2, what the code does.  After the chain of blocks 10, 11 and 12 with
    a layer size of 1, the pattern of block 11 is complete and is the
    frontier, while its vote on block 10 of layer 0 is [Abstain]. *)
Theorem abstaining_pattern_completes :
  pattern11 ∈ tComplete (ni (after listedOrder chain3 (newWorld 1)))
  ∧ pBase (ni (after listedOrder chain3 (newWorld 1))) = pattern11
  ∧ layerBlocks (ni (after listedOrder chain3 (newWorld 1))) !! 0 = Some [10]
  ∧ lookup2 (tVote (ni (after listedOrder chain3 (newWorld 1)))) pattern11 10 = Some Abstain.
Proof.
  split; [vm_compute; reflexivity|].
  split; [vm_compute; reflexivity|]. split; vm_compute; reflexivity.
Qed.

(** ** C3: determinism *)

(** C3, what the code does.  The same three calls, the last with a block
    that votes into layers 0 and 1, are run twice: once with every map
    ranged over in the order in which the embedding lists its entries, once
    in the reverse order; both are orders a Go run may see.  The explicit
    vote kept for the block is the one on layer 0 in the first run and the
    one on layer 1 in the second, and the frontier ends at layer 0 in the
    first run and at layer 1 in the second. *)
Theorem range_order_decides_frontier :
  validOrder listedOrder ∧ validOrder reverseOrder
  ∧ nbVotes <$> blocks (ni (after listedOrder (chain2 ++ [([twoLayerVoter], 2)]) (newWorld 1))) !! 12
    = Some {[0 := pattern10]}
  ∧ nbVotes <$> blocks (ni (after reverseOrder (chain2 ++ [([twoLayerVoter], 2)]) (newWorld 1))) !! 12
    = Some {[1 := pattern11]}
  ∧ Layer (pBase (ni (after listedOrder (chain2 ++ [([twoLayerVoter], 2)]) (newWorld 1)))) = 0
  ∧ Layer (pBase (ni (after reverseOrder (chain2 ++ [([twoLayerVoter], 2)]) (newWorld 1)))) = 1.
Proof.
  split; [apply listedOrder_valid|]. split; [apply reverseOrder_valid|].
  split; [vm_compute; reflexivity|]. split; [vm_compute; reflexivity|].
  split; vm_compute; reflexivity.
Qed.

(** ** C4: unknown ancestors *)

(** C4, as the code has it.  When the vote edges of a block of the batch
    name an identifier that is not stored once the blocks before it are
    inserted, [UpdateTables] panics with "unknown block!"; the world it
    leaves is the one reached after inserting the blocks before it, so a
    first block leaves the world as it was. *)
Theorem UpdateTables_unknown_vote_edge rangeOrder B1 b B2 i w bs w1 :
  insertBlocks rangeOrder B1 i w = Ok bs w1 →
  (∃ bid, bid ∈ BlockVotes b ∧ blocks (ni w1) !! bid = None) →
  UpdateTables rangeOrder (B1 ++ b :: B2) i w = Panic UnknownBlock w1.
Proof.
  intros Hpre Hunknown. unfold UpdateTables, bind at 1.
  unfold insertBlocks at 1. rewrite foldM_app. unfold bind at 1.
  unfold insertBlocks in Hpre. rewrite Hpre. simpl. unfold bind at 1 2.
  by rewrite (processBlock_unknown_vote rangeOrder b w1 Hunknown).
Qed.

Lemma UpdateTables_unknown_vote_edge_witness :
  insertBlocks listedOrder [] 1 (newWorld 1) = Ok [] (newWorld 1)
  ∧ UpdateTables listedOrder ([] ++ danglingVote :: []) 1 (newWorld 1)
    = Panic UnknownBlock (newWorld 1).
Proof.
  split; [reflexivity|].
  apply (UpdateTables_unknown_vote_edge listedOrder [] danglingVote [] 1 (newWorld 1) []
           (newWorld 1)); [reflexivity|].
  exists 99. split; [vm_compute; left|reflexivity].
Defined.

(** C4, counterexample.  A genesis block whose view edge names an
    identifier that was never inserted is accepted: the call returns layer
    0 and the block is stored. *)
Lemma unknown_view_edge_accepted :
  blocks (ni (newWorld 1)) !! 99 = None
  ∧ ∃ w', UpdateTables listedOrder [danglingView] 0 (newWorld 1) = Ok 0 w'
          ∧ blocks (ni w') !! 10 = Some (mkNinja danglingView ∅)
          ∧ w' ≠ newWorld 1.
Proof.
  split; [reflexivity|]. eexists. split; [vm_compute; reflexivity|].
  split; [vm_compute; reflexivity|]. intros Heq.
  apply (f_equal (λ w, blocks (ni w) !! 10)) in Heq. vm_compute in Heq. discriminate.
Qed.

(** ** C5: Negate and Multiplay *)

(** C5, what the code does.  [Negate] and [Multiplay] return their
    receiver after overwriting it: negating [Support] leaves (-1, 0) in the
    shared vector, scaling [Against] by 0 leaves (0, 0) in it, and a run of
    the engine in which a block lies outside the view of a good pattern
    ends with [Against] holding (0, 0). *)
Theorem Negate_Multiplay_overwrite_shared :
  heap (newWorld 1) !! Support = Some (1, 0)
  ∧ heap (newWorld 1) !! Against = Some (0, 1)
  ∧ (∃ w', Negate (Some Support) (newWorld 1) = Ok (Some Support) w'
           ∧ heap w' !! Support = Some (-1, 0))
  ∧ (∃ w', Multiplay (Some Against) 0 (newWorld 1) = Ok (Some Against) w'
           ∧ heap w' !! Against = Some (0, 0))
  ∧ heap (after listedOrder (wideLayer1 ++ [([block12], 2)]) (newWorld 1)) !! Against
    = Some (0, 0).
Proof.
  split; [reflexivity|]. split; [reflexivity|].
  split; [eexists; split; vm_compute; reflexivity|].
  split; [eexists; split; vm_compute; reflexivity|].
  vm_compute. reflexivity.
Qed.

(** ** C6: forBlockInView *)

Lemma bfsInv_start bs seeds L :
  NoDup seeds →
  bfsInv bs seeds L [] (reverse seeds) ∅ ∅ (length seeds + size (edgeTargets bs)).
Proof.
  intros Hnd. split; simpl.
  - by rewrite reverse_Permutation.
  - intros x Hx. rewrite elem_of_reverse in Hx. by apply inView_seed.
  - intros x Hx. by apply elem_of_reverse.
  - intros x Hx. rewrite elem_of_reverse in Hx. by left.
  - intros x Hx. by apply not_elem_of_empty in Hx.
  - intros a nb c Hin. by apply elem_of_nil in Hin.
  - intros a nb Hin. by apply elem_of_nil in Hin.
  - apply empty_subseteq.
  - rewrite length_reverse, difference_empty_L. lia.
  - apply counts_nil.
Qed.

(** C6, as the code has it.  Let the seeds be free of repetitions, let
    every block in the view be stored, and let no seed be the target of a
    view edge of a block in the view above the cutoff [L] (as when the
    seeds lie in one layer and view edges lead to earlier layers).  Then,
    for a visitor that leaves the block store alone, [forBlockInView]
    amounts to running the visitor along a list of blocks in which every
    block in the view occurs exactly once and no other block occurs; the
    view descends from a block only if its layer is above [L]; and the
    counter returned holds, per layer, the number of blocks visited. *)
Theorem forBlockInView_visits_view_once {C} (foo : ninjaBlock → C → M C) seeds L c w :
  NoDup seeds →
  (∀ a, inView (blocks (ni w)) seeds L a → is_Some (blocks (ni w) !! a)) →
  (∀ a nb x, inView (blocks (ni w)) seeds L a → blocks (ni w) !! a = Some nb →
             L < nbLayer nb → x ∈ ViewEdges (nbBlock nb) → x ∉ seeds) →
  (∀ b c, keeps blocks (foo b c)) →
  ∃ trace cnt,
    NoDup trace.*1
    ∧ (∀ a, a ∈ trace.*1 ↔ inView (blocks (ni w)) seeds L a)
    ∧ (∀ a nb, (a, nb) ∈ trace → blocks (ni w) !! a = Some nb)
    ∧ counts cnt trace
    ∧ forBlockInView seeds L foo c w = bind (visitAll foo trace c) (λ c', ret (c', cnt)) w.
Proof.
  intros Hnd Hknown Hsep Hfoo.
  destruct (bfsTrace_inv (blocks (ni w)) seeds L Hknown Hsep _ [] _ _ _
              (bfsInv_start (blocks (ni w)) seeds L Hnd))
    as (cnt & Hend & Hnodup & Hview & Hstored & Hcnt).
  simpl in *.
  exists (bfsTrace (length seeds + size (edgeTargets (blocks (ni w)))) (blocks (ni w)) L
            (reverse seeds) ∅ ∅).1, cnt.
  split; [done|]. split; [done|]. split; [done|]. split; [done|].
  unfold forBlockInView, bind at 1, getNi at 1.
  rewrite bfsLoop_trace by done. rewrite Hend. reflexivity.
Qed.

Lemma ladder_store :
  ∃ nb7 nb5 nb1,
    blocks (ni (after listedOrder ladder (newWorld 100))) !! 7 = Some nb7
    ∧ blocks (ni (after listedOrder ladder (newWorld 100))) !! 5 = Some nb5
    ∧ blocks (ni (after listedOrder ladder (newWorld 100))) !! 1 = Some nb1
    ∧ ViewEdges (nbBlock nb7) = [5] ∧ ViewEdges (nbBlock nb5) = [1] ∧ nbLayer nb1 = 0.
Proof.
  eexists _, _, _. split; [vm_compute; reflexivity|].
  split; [vm_compute; reflexivity|]. split; [vm_compute; reflexivity|].
  split; [reflexivity|]. split; reflexivity.
Defined.

Lemma ladder_view seeds a :
  seeds ⊆ [7; 5; 1] →
  inView (blocks (ni (after listedOrder ladder (newWorld 100)))) seeds 0 a → a ∈ [7; 5; 1].
Proof.
  destruct ladder_store as (nb7 & nb5 & nb1 & H7 & H5 & H1 & E7 & E5 & L1).
  generalize dependent (blocks (ni (after listedOrder ladder (newWorld 100)))).
  intros bs H7 H5 H1 Hseeds Ha.
  induction Ha as [a Ha|a nb c Ha IH Hb Hl Hc]; [by apply Hseeds|].
  apply elem_of_cons in IH as [->|IH]; [|apply elem_of_cons in IH as [->|IH]].
  - rewrite H7 in Hb. injection Hb as <-. rewrite E7 in Hc.
    apply list_elem_of_singleton in Hc as ->. right. left.
  - rewrite H5 in Hb. injection Hb as <-. rewrite E5 in Hc.
    apply list_elem_of_singleton in Hc as ->. right. right. left.
  - apply list_elem_of_singleton in IH as ->.
    rewrite H1 in Hb. injection Hb as <-. lia.
Defined.

Lemma ladder_known seeds a :
  seeds ⊆ [7; 5; 1] →
  inView (blocks (ni (after listedOrder ladder (newWorld 100)))) seeds 0 a →
  is_Some (blocks (ni (after listedOrder ladder (newWorld 100))) !! a).
Proof.
  intros Hseeds Ha. apply (ladder_view seeds a Hseeds) in Ha.
  destruct ladder_store as (nb7 & nb5 & nb1 & H7 & H5 & H1 & _).
  apply elem_of_cons in Ha as [->|Ha]; [rewrite H7; by eexists|].
  apply elem_of_cons in Ha as [->|Ha]; [rewrite H5; by eexists|].
  apply list_elem_of_singleton in Ha as ->. rewrite H1. by eexists.
Defined.

Lemma forBlockInView_visits_view_once_witness :
  NoDup [7]
  ∧ (∀ a, inView (blocks (ni (after listedOrder ladder (newWorld 100)))) [7] 0 a →
          is_Some (blocks (ni (after listedOrder ladder (newWorld 100))) !! a))
  ∧ (∀ a nb x, inView (blocks (ni (after listedOrder ladder (newWorld 100)))) [7] 0 a →
       blocks (ni (after listedOrder ladder (newWorld 100))) !! a = Some nb →
       0 < nbLayer nb → x ∈ ViewEdges (nbBlock nb) → x ∉ [7])
  ∧ (∀ b c, keeps blocks (logVisit b c))
  ∧ ∃ trace cnt,
      NoDup trace.*1
      ∧ (∀ a, a ∈ trace.*1 ↔ inView (blocks (ni (after listedOrder ladder (newWorld 100)))) [7] 0 a)
      ∧ (∀ a nb, (a, nb) ∈ trace →
           blocks (ni (after listedOrder ladder (newWorld 100))) !! a = Some nb)
      ∧ counts cnt trace
      ∧ forBlockInView [7] 0 logVisit [] (after listedOrder ladder (newWorld 100))
        = bind (visitAll logVisit trace []) (λ c', ret (c', cnt))
            (after listedOrder ladder (newWorld 100)).
Proof.
  assert (Hseeds : [7] ⊆ [7; 5; 1]).
  { intros x Hx. apply list_elem_of_singleton in Hx as ->. left. }
  assert (Hsep : ∀ a nb x,
            inView (blocks (ni (after listedOrder ladder (newWorld 100)))) [7] 0 a →
            blocks (ni (after listedOrder ladder (newWorld 100))) !! a = Some nb →
            0 < nbLayer nb → x ∈ ViewEdges (nbBlock nb) → x ∉ [7]).
  { intros a nb x Ha Hb Hl Hx Hseed. apply (ladder_view [7] a Hseeds) in Ha.
    apply list_elem_of_singleton in Hseed as ->.
    destruct ladder_store as (nb7 & nb5 & nb1 & H7 & H5 & H1 & E7 & E5 & L1).
    apply elem_of_cons in Ha as [->|Ha]; [|apply elem_of_cons in Ha as [->|Ha]].
    - rewrite H7 in Hb. injection Hb as <-. rewrite E7 in Hx.
      apply list_elem_of_singleton in Hx. discriminate Hx.
    - rewrite H5 in Hb. injection Hb as <-. rewrite E5 in Hx.
      apply list_elem_of_singleton in Hx. discriminate Hx.
    - apply list_elem_of_singleton in Ha as ->.
      rewrite H1 in Hb. injection Hb as <-. clear -Hl L1. lia. }
  split; [apply NoDup_singleton|].
  split; [intros a; apply (ladder_known [7] a Hseeds)|].
  split; [exact Hsep|].
  split; [intros b c w; reflexivity|].
  apply (forBlockInView_visits_view_once logVisit [7] 0 []
           (after listedOrder ladder (newWorld 100))).
  - apply NoDup_singleton.
  - intros a. apply (ladder_known [7] a Hseeds).
  - exact Hsep.
  - intros b c w. reflexivity.
Defined.

(** C6, counterexample.  With seeds 5 and 7, where block 7 of layer 2 sees
    block 5 of layer 1, every block in the view is stored and yet the
    visitor is handed block 5 twice; the counter of layer 1 reads 2. *)
Lemma forBlockInView_seed_visited_twice :
  (∀ a, inView (blocks (ni (after listedOrder ladder (newWorld 100)))) [5; 7] 0 a →
        is_Some (blocks (ni (after listedOrder ladder (newWorld 100))) !! a))
  ∧ forBlockInView [5; 7] 0 logVisit [] (after listedOrder ladder (newWorld 100))
    = Ok ([7; 5; 5; 1], {[0 := 1; 1 := 2; 2 := 1]}) (after listedOrder ladder (newWorld 100)).
Proof.
  split; [|vm_compute; reflexivity].
  intros a. apply ladder_known. intros x Hx.
  apply elem_of_cons in Hx as [->|Hx]; [right; left|].
  apply list_elem_of_singleton in Hx as ->. left.
Qed.

(** ** C7: support and explicit registrations *)

(** C7, what the code does.  Two new blocks of layer 2 vote explicitly for
    the same pattern of layer 1: its support is 4 afterwards, two
    increments per block, and the registrations of layer 1 hold the second
    block only. *)
Theorem explicit_vote_counted_twice_registration_lost :
  ∃ w', UpdateTables listedOrder voters2 2 (after listedOrder chain2 (newWorld 100)) = Ok 0 w'
        ∧ tSupport (ni w') !! pattern11 = Some 4
        ∧ tExplicit (ni w') !! 1 = Some {[13 := pattern11]}.
Proof.
  eexists. split; [vm_compute; reflexivity|]. split; vm_compute; reflexivity.
Qed.

(** ** C8: the frontier never moves back *)

(** C8, as the code has it.  In every world an engine can reach, a call
    of [UpdateTables] leaves [pBase] in a layer at least as high as
    before, also when the call panics.  A call for a layer other than 0
    returns the layer of the new [pBase], which is therefore no lower than
    the frontier before the call; a call for layer 0 returns 0. *)
Theorem pBase_layer_never_decreases rangeOrder w B i :
  validOrder rangeOrder → reachable rangeOrder w → 0 ≤ i ≤ maxUint32 →
  Layer (pBase (ni w)) ≤ Layer (pBase (ni (finalWorld (UpdateTables rangeOrder B i w))))
  ∧ ∀ l w', UpdateTables rangeOrder B i w = Ok l w' →
      (i ≠ 0 → l = Layer (pBase (ni w')) ∧ Layer (pBase (ni w)) ≤ l)
      ∧ (i = 0 → l = 0).
Proof.
  intros Hvalid Hw Hi.
  pose proof (UpdateTables_spec rangeOrder Hvalid B i w
                (reachable_frontier_wf rangeOrder w Hvalid Hw) Hi) as Hspec.
  unfold wp in Hspec. destruct (UpdateTables rangeOrder B i w) as [l0 w0|e w0]; simpl.
  - destruct Hspec as ([_ Hle] & Hzero & Hret). split; [done|].
    intros l w' [= <- <-]. split; [|done].
    intros Hne. rewrite (Hret Hne). done.
  - destruct Hspec as [_ Hle]. split; [done|]. intros ?? [=].
Qed.

Lemma pBase_layer_never_decreases_witness :
  validOrder listedOrder
  ∧ reachable listedOrder (after listedOrder chain2 (newWorld 1))
  ∧ 0 ≤ 2 ≤ maxUint32
  ∧ Layer (pBase (ni (after listedOrder chain2 (newWorld 1))))
    ≤ Layer (pBase (ni (finalWorld
          (UpdateTables listedOrder [block12] 2 (after listedOrder chain2 (newWorld 1))))))
  ∧ ∀ l w', UpdateTables listedOrder [block12] 2 (after listedOrder chain2 (newWorld 1)) = Ok l w' →
      (2 ≠ 0 → l = Layer (pBase (ni w'))
               ∧ Layer (pBase (ni (after listedOrder chain2 (newWorld 1)))) ≤ l)
      ∧ (2 = 0 → l = 0).
Proof.
  assert (Hreach : reachable listedOrder (after listedOrder chain2 (newWorld 1))).
  { apply (reachable_call listedOrder _ [block11] 1); [|vm_compute; split; discriminate].
    apply (reachable_call listedOrder _ [genesis10] 0); [|vm_compute; split; discriminate].
    apply reachable_new. }
  assert (Hi : 0 ≤ 2 ≤ maxUint32) by (vm_compute; split; discriminate).
  split; [apply listedOrder_valid|]. split; [exact Hreach|]. split; [exact Hi|].
  exact (pBase_layer_never_decreases listedOrder (after listedOrder chain2 (newWorld 1))
           [block12] 2 listedOrder_valid Hreach Hi).
Defined.

(** C8, counterexample.  Once the frontier stands at layer 1, a call for
    layer 0 returns 0. *)
Lemma genesis_call_returns_below_frontier :
  reachable listedOrder (after listedOrder chain3 (newWorld 1))
  ∧ Layer (pBase (ni (after listedOrder chain3 (newWorld 1)))) = 1
  ∧ ∃ w', UpdateTables listedOrder [] 0 (after listedOrder chain3 (newWorld 1)) = Ok 0 w'.
Proof.
  split; [|split; [vm_compute; reflexivity|eexists; vm_compute; reflexivity]].
  apply (reachable_call listedOrder _ [block12] 2); [|vm_compute; split; discriminate].
  apply (reachable_call listedOrder _ [block11] 1); [|vm_compute; split; discriminate].
  apply (reachable_call listedOrder _ [genesis10] 0); [|vm_compute; split; discriminate].
  apply reachable_new.
Qed.

(** ** C9: the pattern identifier *)

(** C9, as the code has it.  [getId] does not depend on the order of the
    identifiers it is given and returns a 32-bit value: it sorts the
    identifiers in ascending order and folds the big-endian four-byte
    encodings of their [uint32] values through the 32-bit FNV-1 hash,
    which multiplies by the prime before it xors the byte in. *)
Theorem getId_order_invariant_fnv1 (bids bids' : list Z) :
  bids ≡ₚ bids' →
  getId bids = getId bids'
  ∧ 0 ≤ getId bids < 2 ^ 32
  ∧ ∃ sorted, Sorted Z.le sorted ∧ sorted ≡ₚ bids
      ∧ getId bids = fnv32Write offset32 (concat ((λ b, Uint32ToBytes (wrap32 b)) <$> sorted)).
Proof.
  intros Hp. split; [|split].
  - unfold getId. by rewrite (sortIds_permutation_invariant _ _ Hp).
  - apply getId_range.
  - exists (sortIds bids). split; [apply sortIds_sorted|]. split; [apply sortIds_perm|].
    unfold getId. apply foldl_fnv32Write.
Qed.

Lemma getId_order_invariant_fnv1_witness :
  [3; 1; 2] ≡ₚ [2; 3; 1] ∧ getId [3; 1; 2] = getId [2; 3; 1].
Proof.
  assert (H : [3; 1; 2] ≡ₚ [2; 3; 1]).
  { exact (Permutation_app_comm [3; 1] [2]). }
  split; [exact H|]. exact (proj1 (getId_order_invariant_fnv1 _ _ H)).
Defined.

(** C9, counterexample.  On the single identifier 1 the value of [getId]
    differs from the FNV-1a digest of the same bytes. *)
Lemma getId_not_fnv1a : getId [1] ≠ patternId_spec [1].
Proof. vm_compute. discriminate. Qed.

(** ** C10: explicit votes kept in a stored block *)

(** C10.  When [processBlock] returns, the block store is the one before
    the call with the returned block filed under the identifier of the
    argument, and the [BlockVotes] map of that block has at most one
    entry, whatever the number of layers the vote edges reach and whatever
    the order of the range. *)
Theorem processBlock_keeps_one_vote rangeOrder b w nb w' :
  processBlock rangeOrder b w = Ok nb w' →
  blocks (ni w') = <[Id b := nb]> (blocks (ni w)) ∧ (size (nbVotes nb) ≤ 1)%nat.
Proof.
  intros Hrun. pose proof (processBlock_spec rangeOrder b w) as Hspec.
  apply (wp_Ok _ _ _ _ _ _ Hspec) in Hrun as (Hsz & _ & _ & Hstored). done.
Qed.

Lemma processBlock_keeps_one_vote_witness :
  ∃ nb w',
    processBlock listedOrder twoLayerVoter (after listedOrder chain2 (newWorld 1)) = Ok nb w'
    ∧ blocks (ni w') = <[12 := nb]> (blocks (ni (after listedOrder chain2 (newWorld 1))))
    ∧ (size (nbVotes nb) ≤ 1)%nat.
Proof.
  eexists _, _. split; [vm_compute; reflexivity|].
  apply (processBlock_keeps_one_vote listedOrder twoLayerVoter
           (after listedOrder chain2 (newWorld 1))).
  vm_compute. reflexivity.
Defined.

(** * Further properties of the engine *)

Lemma wrapInt_small z : isInt z → wrapInt z = z.
Proof. unfold isInt, wrapInt. intros H. rewrite Z.mod_small; lia. Qed.

Lemma wrapInt_shift z k : wrapInt (z + k * 2 ^ 64) = wrapInt z.
Proof.
  unfold wrapInt. replace (z + k * 2 ^ 64 + 2 ^ 63) with (z + 2 ^ 63 + k * 2 ^ 64) by lia.
  by rewrite Z.mod_add.
Qed.

Lemma wrapInt_repr z : ∃ k, wrapInt z = z + k * 2 ^ 64.
Proof.
  exists (- ((z + 2 ^ 63) / 2 ^ 64)). unfold wrapInt.
  rewrite Z.mod_eq by lia. lia.
Qed.

Lemma wrapInt_mul_l a b : wrapInt (wrapInt a * b) = wrapInt (a * b).
Proof.
  destruct (wrapInt_repr a) as [k ->].
  replace ((a + k * 2 ^ 64) * b) with (a * b + (k * b) * 2 ^ 64) by lia.
  apply wrapInt_shift.
Qed.

Lemma wrapInt_neg_neg z : isInt z → wrapInt (wrapInt (z * -1) * -1) = z.
Proof.
  intros Hz. rewrite wrapInt_mul_l. replace (z * -1 * -1) with z by lia.
  by apply wrapInt_small.
Qed.

(** X1.  Negating a vector twice gives back the vector: the second call undoes
    the in-place update of the first, for every pair of Go [int]s, the
    smallest one included. *)
Theorem Negate_twice_restores a v w :
  heap w !! a = Some v → isInt v.1 → isInt v.2 →
  bind (Negate (Some a)) Negate w = Ok (Some a) w.
Proof.
  intros Ha H1 H2. unfold Negate, bind, load, store, ret. simpl.
  rewrite Ha. simpl.
  assert (Hlt : (a < length (heap w))%nat) by (by eapply lookup_lt_Some).
  rewrite list_lookup_insert_eq by done. simpl.
  rewrite list_insert_insert_eq, !wrapInt_neg_neg by done.
  destruct w as [h t s], v as [x y]. simpl in *. f_equal. f_equal.
  by apply list_insert_id.
Qed.

Lemma Negate_twice_restores_witness :
  heap (newWorld 1) !! Support = Some (1, 0)
  ∧ bind (Negate (Some Support)) Negate (newWorld 1) = Ok (Some Support) (newWorld 1).
Proof.
  split; [reflexivity|].
  apply (Negate_twice_restores Support (1, 0) (newWorld 1)); [reflexivity| |];
    unfold isInt; simpl; lia.
Defined.

(** X2.  Scaling a vector by [x] and then by [y] is scaling it by [x * y]: the
    two in-place updates compose, wrap-around included. *)
Theorem Multiplay_composes a x y w :
  bind (Multiplay (Some a) x) (λ r, Multiplay r y) w = Multiplay (Some a) (x * y) w.
Proof.
  unfold Multiplay, bind, load, store, ret. simpl.
  destruct (heap w !! a) as [v|] eqn:Ha; simpl.
  - assert (Hlt : (a < length (heap w))%nat) by (by eapply lookup_lt_Some).
    rewrite list_lookup_insert_eq by done. simpl.
    rewrite list_insert_insert_eq, !wrapInt_mul_l.
    by rewrite !Z.mul_assoc.
  - assert (Hge : (length (heap w) ≤ a)%nat) by (by apply lookup_ge_None).
    by rewrite !(list_insert_ge (heap w)) by done.
Qed.

(** * Vectors only change by scaling *)

Lemma zerosKept_refl h : zerosKept h h.
Proof. intros a v Ha. by exists v. Qed.

Lemma zerosKept_trans h1 h2 h3 : zerosKept h1 h2 → zerosKept h2 h3 → zerosKept h1 h3.
Proof.
  intros H12 H23 a v Ha. destruct (H12 a v Ha) as (v2 & Ha2 & Hx & Hy).
  destruct (H23 a v2 Ha2) as (v3 & Ha3 & Hx3 & Hy3). exists v3. auto.
Qed.

Lemma zerosKept_app h v : zerosKept h (h ++ [v]).
Proof.
  intros a x Ha. exists x. split; [|done]. by apply lookup_app_l_Some.
Qed.

Lemma zerosKept_scale h a x :
  zerosKept h (<[a := (wrapInt ((default (0, 0) (h !! a)).1 * x),
                       wrapInt ((default (0, 0) (h !! a)).2 * x))]> h).
Proof.
  intros b v Hb. destruct (decide (a = b)) as [->|Hne].
  - rewrite Hb. simpl. eexists. split.
    + apply list_lookup_insert_eq. by eapply lookup_lt_Some.
    + simpl. split; intros ->; done.
  - exists v. by rewrite list_lookup_insert_ne.
Qed.

Lemma scalesOnly_ret {A} (a : A) : scalesOnly (ret a).
Proof. intros w. apply zerosKept_refl. Qed.

Lemma scalesOnly_fail {A} e : scalesOnly (@fail A e).
Proof. intros w. apply zerosKept_refl. Qed.

Lemma scalesOnly_getNi : scalesOnly getNi.
Proof. intros w. apply zerosKept_refl. Qed.

Lemma scalesOnly_modifyNi g : scalesOnly (modifyNi g).
Proof. intros w. apply zerosKept_refl. Qed.

Lemma scalesOnly_alloc v : scalesOnly (alloc v).
Proof. intros w. apply zerosKept_app. Qed.

Lemma scalesOnly_load a : scalesOnly (load a).
Proof. intros w. apply zerosKept_refl. Qed.

Lemma scalesOnly_rangeOver rangeOrder {A} (l : list A) : scalesOnly (rangeOver rangeOrder l).
Proof. intros w. apply zerosKept_refl. Qed.

Lemma scalesOnly_bind {A B} (m : M A) (k : A → M B) :
  scalesOnly m → (∀ a, scalesOnly (k a)) → scalesOnly (bind m k).
Proof.
  intros Hm Hk w. unfold bind. specialize (Hm w).
  destruct (m w) as [a w'|e w']; [|done].
  eapply zerosKept_trans; [exact Hm|apply Hk].
Qed.

Lemma scalesOnly_foldM {A C} (body : C → A → M C) l c :
  (∀ c x, scalesOnly (body c x)) → scalesOnly (foldM body l c).
Proof.
  intros Hb. revert c. induction l as [|x l IH]; intros c; [apply scalesOnly_ret|].
  simpl. apply scalesOnly_bind; [apply Hb | apply IH].
Qed.

Lemma scalesOnly_forEach {A} (body : A → M unit) l :
  (∀ x, scalesOnly (body x)) → scalesOnly (forEach l body).
Proof.
  intros Hb. induction l as [|x l IH]; [apply scalesOnly_ret|].
  simpl. apply scalesOnly_bind; [apply Hb | intros _; apply IH].
Qed.

Lemma scalesOnly_foldLayersUpTo {C} a b (body : C → Z → M C) c :
  (∀ c x, scalesOnly (body c x)) → scalesOnly (foldLayersUpTo a b body c).
Proof.
  intros Hb. unfold foldLayersUpTo. apply scalesOnly_bind; [by apply scalesOnly_foldM|].
  intros c'. destruct (decide _); [apply scalesOnly_fail|apply scalesOnly_ret].
Qed.

Lemma scalesOnly_Multiplay a x : scalesOnly (Multiplay a x).
Proof.
  destruct a as [pa|]; [|apply scalesOnly_fail].
  intros w. unfold Multiplay, bind, load, store, ret. simpl. apply zerosKept_scale.
Qed.

Lemma scalesOnly_Negate a : scalesOnly (Negate a).
Proof.
  destruct a as [pa|].
  - intros w. unfold Negate, bind, load, store, ret. simpl. apply zerosKept_scale.
  - intros w. apply zerosKept_app.
Qed.

Lemma scalesOnly_Add a v : scalesOnly (Add a v).
Proof.
  destruct a as [pa|], v as [pv|]; try apply scalesOnly_ret.
  intros w. apply zerosKept_app.
Qed.

Lemma scalesOnly_bfsLoop {C} fuel layer (foo : ninjaBlock → C → M C) queue set cnt c :
  (∀ b c, scalesOnly (foo b c)) → scalesOnly (bfsLoop fuel layer foo queue set cnt c).
Proof.
  intros Hfoo. revert queue set cnt c.
  induction fuel as [|fuel IH]; intros queue set cnt c; destruct queue as [|a rest]; simpl;
    try apply scalesOnly_ret; try apply scalesOnly_fail.
  apply scalesOnly_bind; [apply scalesOnly_getNi|]. intros s.
  destruct (blocks s !! a); [|apply scalesOnly_fail].
  apply scalesOnly_bind; [apply Hfoo|]. intros c'. apply IH.
Qed.

Lemma scalesOnly_forBlockInView {C} seeds layer (foo : ninjaBlock → C → M C) c :
  (∀ b c, scalesOnly (foo b c)) → scalesOnly (forBlockInView seeds layer foo c).
Proof.
  intros Hfoo. unfold forBlockInView. apply scalesOnly_bind; [apply scalesOnly_getNi|].
  intros s. by apply scalesOnly_bfsLoop.
Qed.

Ltac scalesOnly_step :=
  first
    [ apply scalesOnly_ret | apply scalesOnly_fail | apply scalesOnly_getNi
    | apply scalesOnly_alloc | apply scalesOnly_load | apply scalesOnly_modifyNi
    | apply scalesOnly_rangeOver
    | apply scalesOnly_Add | apply scalesOnly_Negate | apply scalesOnly_Multiplay
    | apply scalesOnly_forBlockInView; intros ? ?
    | apply scalesOnly_foldLayersUpTo; intros ? ?
    | apply scalesOnly_bind; [|intros ?]
    | apply scalesOnly_foldM; intros ? ?
    | apply scalesOnly_forEach; intros ?
    | match goal with
      | |- scalesOnly (match ?x with _ => _ end) => destruct x
      | |- scalesOnly (if ?x then _ else _) => destruct x
      end ].

Lemma scalesOnly_UpdateTables rangeOrder B i : scalesOnly (UpdateTables rangeOrder B i).
Proof.
  unfold UpdateTables, insertBlocks, processBlock, findMinimalGoodLayer, voteOnLayer,
    markGood, addSupport, tallyGood, updatePatternTally, countEffective, addPatternVote,
    updateCorrectionVectors, voteLayer, sumNodesInView, globalOpinion, writeTally,
    ensureTally, nonNil.
  repeat scalesOnly_step.
Qed.

(** X3.  A call of [UpdateTables] keeps every vector that exists when it starts
    and never gives a value other than 0 to a component that was 0: the
    only writes to an existing vector are the scalings done by [Negate] and
    [Multiplay]. *)
Theorem UpdateTables_keeps_zero_components rangeOrder B i w a v :
  heap w !! a = Some v →
  ∃ v', heap (finalWorld (UpdateTables rangeOrder B i w)) !! a = Some v'
        ∧ (v.1 = 0 → v'.1 = 0) ∧ (v.2 = 0 → v'.2 = 0).
Proof. apply scalesOnly_UpdateTables. Qed.

(** X4.  In every world an engine can reach, the three shared vectors are
    still multiples of what they were declared as: [Support] has the form
    [(s, 0)], [Against] the form [(0, a)], and [Abstain] is [(0, 0)]. *)
Theorem shared_vectors_keep_their_zeros rangeOrder w :
  reachable rangeOrder w →
  ∃ s a, heap w !! Support = Some (s, 0) ∧ heap w !! Against = Some (0, a)
         ∧ heap w !! Abstain = Some (0, 0).
Proof.
  intros Hw. induction Hw as [layerSize|w B i Hw IH Hi].
  - by exists 1, 1.
  - destruct IH as (s & a & Hs & Ha & Hz).
    pose proof (scalesOnly_UpdateTables rangeOrder B i w) as Hk.
    destruct (Hk _ _ Hs) as ([s1 s2] & Hs' & _ & Hs2).
    destruct (Hk _ _ Ha) as ([a1 a2] & Ha' & Ha1 & _).
    destruct (Hk _ _ Hz) as ([z1 z2] & Hz' & Hz1 & Hz2).
    simpl in *. exists s1, a2.
    rewrite Hs', Ha', Hz', Hs2, Ha1, Hz1, Hz2 by done. done.
Qed.

Lemma groupVotes_spec bs votes acc patterns :
  groupVotes bs votes acc = Some patterns →
  ∀ l, patterns !! l =
       if decide (votesInLayer bs l votes = []) then acc !! l
       else Some (default [] (acc !! l) ++ votesInLayer bs l votes).
Proof.
  revert acc. induction votes as [|bid rest IH]; intros acc Hg l; simpl in Hg.
  - injection Hg as <-. done.
  - destruct (bs !! bid) as [b|] eqn:Hb; [|done].
    rewrite (IH _ Hg l). unfold votesInLayer.
    destruct (decide (nbLayer b = l)) as [<-|Hne].
    + rewrite filter_cons_True by (by rewrite Hb).
      rewrite lookup_insert_eq. simpl.
      destruct (decide (filter _ rest = [])) as [->|Hr]; [done|].
      by rewrite <- app_assoc.
    + rewrite filter_cons_False by (rewrite Hb; simpl; congruence).
      by rewrite lookup_insert_ne.
Qed.

Lemma groupVotes_known bs votes acc :
  (∀ bid, bid ∈ votes → is_Some (bs !! bid)) → is_Some (groupVotes bs votes acc).
Proof.
  intros Hk. destruct (groupVotes bs votes acc) eqn:Hg; [by eexists|].
  apply groupVotes_None in Hg as (bid & Hin & Hn). destruct (Hk bid Hin) as [? ?]. congruence.
Qed.

Lemma votesInLayer_elem bs l votes bid :
  bid ∈ votesInLayer bs l votes ↔ bid ∈ votes ∧ ∃ v, bs !! bid = Some v ∧ nbLayer v = l.
Proof.
  unfold votesInLayer. rewrite list_elem_of_filter. split.
  - intros [Hl Hin]. split; [done|]. destruct (bs !! bid) as [v|]; [|done].
    exists v. split; [done|]. by injection Hl.
  - intros [Hin (v & Hv & <-)]. split; [|done]. by rewrite Hv.
Qed.

(** The second loop on its local variables. *)
Lemma keepVote_effective entries acc :
  let r := foldl keepVote acc entries in
  (entries ≠ [] → r.1 = {[ (default (0, []) (last entries)).1 := patternOf (default (0, []) (last entries)) ]})
  ∧ (entries = [] → r = acc)
  ∧ match r.2 with
    | None => acc.2 = None ∧ entries = []
    | Some p =>
        (acc.2 = Some p ∨ ∃ e, e ∈ entries ∧ p = patternOf e)
        ∧ (∀ e, e ∈ entries → e.1 ≤ Layer p)
        ∧ (∀ q, acc.2 = Some q → Layer q ≤ Layer p)
    end.
Proof.
  revert acc. induction entries as [|e entries IH]; intros acc; simpl.
  - split; [done|]. split; [done|]. destruct (acc.2) as [p|] eqn:Hp.
    + split; [by left|]. split; [intros ? H; by apply elem_of_nil in H|].
      intros q [= ->]. lia.
    + done.
  - destruct (IH (keepVote acc e)) as (H1 & H2 & H3). split_and!.
    + intros _. destruct entries as [|e' entries'].
      * simpl. done.
      * rewrite H1 by done. done.
    + done.
    + destruct ((foldl keepVote (keepVote acc e) entries).2) as [p|] eqn:Hr.
      * destruct H3 as (Hsrc & Hmax & Hacc). unfold keepVote in Hsrc, Hacc. simpl in *.
        destruct (acc.2) as [q|] eqn:Hq.
        -- destruct (e.1 >? Layer q) eqn:Hcmp.
           ++ specialize (Hacc _ eq_refl). simpl in Hacc. split_and!.
              ** right. destruct Hsrc as [[= <-]|(e' & He' & ->)].
                 --- exists e. split; [left|done].
                 --- exists e'. split; [by right|done].
              ** intros e' [->|He']%elem_of_cons; [done|by apply Hmax].
              ** intros ? [= <-]. lia.
           ++ specialize (Hacc _ eq_refl). split_and!.
              ** destruct Hsrc as [[= <-]|(e' & He' & ->)]; [by left|].
                 right. exists e'. split; [by right|done].
              ** intros e' [->|He']%elem_of_cons; [lia|by apply Hmax].
              ** intros ? [= <-]. done.
        -- specialize (Hacc _ eq_refl). simpl in Hacc. split_and!.
           ++ right. destruct Hsrc as [[= <-]|(e' & He' & ->)].
              ** exists e. split; [left|done].
              ** exists e'. split; [by right|done].
           ++ intros e' [->|He']%elem_of_cons; [done|by apply Hmax].
           ++ done.
      * destruct H3 as [Hk _]. unfold keepVote in Hk. simpl in Hk.
        by destruct (acc.2) as [q|]; [destruct (e.1 >? Layer q)|].
Qed.

Section ProcessBlockRun.
Variable rangeOrder : nat → ∀ A : Type, list A → list A.

Lemma processBlock_loop entries acc h t s :
  foldM (λ (acc : gmap Z votingPattern * option votingPattern) (e : Z * list Z),
           let vp := mkPattern (getId e.2) e.1 in
           modifyNi (λ s1, set_tPattern (<[vp := sortIds e.2]> (tPattern s1)) s1) ;;;
           ret ({[e.1 := vp]},
                match acc.2 with
                | None => Some vp
                | Some eff => if e.1 >? Layer eff then Some vp else Some eff
                end))
        entries acc (mkWorld h t s)
  = Ok (foldl keepVote acc entries) (mkWorld h t (foldl registerPattern s entries)).
Proof.
  revert acc s. induction entries as [|e entries IH]; intros acc s; [reflexivity|].
  simpl. unfold bind at 1. unfold bind at 1, modifyNi at 1, ret at 1. simpl.
  apply IH.
Qed.

(** What a call of [processBlock] that finds every vote edge does. *)
Lemma processBlock_run b w patterns :
  groupVotes (blocks (ni w)) (BlockVotes b) ∅ = Some patterns →
  let entries := rangeOrder (tick w) (Z * list Z)%type (map_to_list patterns) in
  let r := foldl keepVote (∅, None) entries in
  processBlock rangeOrder b w
  = Ok (mkNinja b r.1)
       (mkWorld (heap w) (S (tick w)) (storeBlock b r (foldl registerPattern (ni w) entries))).
Proof.
  intros Hg entries r. unfold processBlock, bind at 1, getNi at 1. rewrite Hg.
  unfold bind at 1, rangeOver at 1. unfold bind at 1.
  rewrite processBlock_loop. fold entries. fold r.
  unfold bind, modifyNi, ret, storeBlock. simpl. by destruct (r.2).
Qed.
End ProcessBlockRun.

Lemma registerPattern_frame {X} (f : ninjaTortoise → X) s entries :
  (∀ v s, f (set_tPattern v s) = f s) → f (foldl registerPattern s entries) = f s.
Proof.
  intros Hf. revert s. induction entries as [|e es IH]; intros s; [done|]. simpl.
  rewrite IH. apply Hf.
Qed.

Lemma registerPattern_tPattern s entries :
  tPattern (foldl registerPattern s entries)
  = foldl (λ m e, <[patternOf e := sortIds e.2]> m) (tPattern s) entries.
Proof.
  revert s. induction entries as [|e es IH]; intros s; [done|]. simpl. by rewrite IH.
Qed.

Lemma groupVotes_Some_known bs votes acc patterns bid :
  groupVotes bs votes acc = Some patterns → bid ∈ votes → is_Some (bs !! bid).
Proof.
  intros Hg Hin. destruct (bs !! bid) eqn:Hb; [by eexists|].
  assert (groupVotes bs votes acc = None) as Hn; [|congruence].
  apply groupVotes_None. eauto.
Qed.

(** The entries of the map built by the first loop of [processBlock]. *)
Lemma groupVotes_entries bs votes patterns l v :
  groupVotes bs votes ∅ = Some patterns →
  patterns !! l = Some v ↔ (v = votesInLayer bs l votes ∧ v ≠ []).
Proof.
  intros Hg. rewrite (groupVotes_spec _ _ _ _ Hg l), lookup_empty. simpl.
  destruct (decide (votesInLayer bs l votes = [])) as [He|Hne].
  - split; [done|]. intros [-> ?]. done.
  - split; [by intros [= <-]|]. by intros [-> _].
Qed.

(** X5.  [processBlock] returns exactly when every vote edge of the block names
    a stored block; otherwise it panics with "unknown block!" before it has
    written anything, and it panics in no other way. *)
Theorem processBlock_succeeds_iff_votes_known rangeOrder b w :
  ((∀ bid, bid ∈ BlockVotes b → is_Some (blocks (ni w) !! bid))
     ↔ ∃ nb w', processBlock rangeOrder b w = Ok nb w')
  ∧ ((∃ bid, bid ∈ BlockVotes b ∧ blocks (ni w) !! bid = None)
     ↔ processBlock rangeOrder b w = Panic UnknownBlock w)
  ∧ (∀ e w', processBlock rangeOrder b w = Panic e w' → e = UnknownBlock ∧ w' = w).
Proof.
  destruct (groupVotes (blocks (ni w)) (BlockVotes b) ∅) as [patterns|] eqn:Hg.
  - pose proof (processBlock_run rangeOrder b w patterns Hg) as Hrun. simpl in Hrun.
    split_and!.
    + split; [intros _; eauto|]. intros _ bid Hin. by eapply groupVotes_Some_known.
    + rewrite Hrun. split; [|done]. intros (bid & Hin & Hn).
      destruct (groupVotes_Some_known _ _ _ _ bid Hg Hin) as [? ?]. congruence.
    + rewrite Hrun. done.
  - pose proof Hg as Hunknown. apply groupVotes_None in Hunknown.
    pose proof (processBlock_unknown_vote rangeOrder b w Hunknown) as Hrun.
    split_and!.
    + rewrite Hrun. split; [|by intros (? & ? & ?)].
      intros Hk. destruct Hunknown as (bid & Hin & Hn).
      destruct (Hk bid Hin) as [? ?]. congruence.
    + done.
    + rewrite Hrun. by intros e w' [= <- <-].
Qed.

(** X6.  The effective pattern of a block is decided by its vote edges alone,
    whatever the order of the range: a block without vote edges gets the
    nil pattern and no explicit vote; otherwise the effective pattern is
    the one made of the vote edges into the highest layer voted for, and
    the block is appended to the blocks filed under that pattern. *)
Theorem processBlock_effective_is_highest_voted_layer rangeOrder b w nb w' :
  validOrder rangeOrder →
  processBlock rangeOrder b w = Ok nb w' →
  (BlockVotes b = [] ∧ tEffective (ni w') !! Id b = Some None ∧ nbVotes nb = ∅
   ∧ tEffectiveToBlocks (ni w') = tEffectiveToBlocks (ni w))
  ∨ ∃ L, votesInLayer (blocks (ni w)) L (BlockVotes b) ≠ []
      ∧ (∀ bid v, bid ∈ BlockVotes b → blocks (ni w) !! bid = Some v → nbLayer v ≤ L)
      ∧ tEffective (ni w') !! Id b
        = Some (Some (mkPattern (getId (votesInLayer (blocks (ni w)) L (BlockVotes b))) L))
      ∧ tEffectiveToBlocks (ni w')
          !! mkPattern (getId (votesInLayer (blocks (ni w)) L (BlockVotes b))) L
        = Some (default [] (tEffectiveToBlocks (ni w)
                  !! mkPattern (getId (votesInLayer (blocks (ni w)) L (BlockVotes b))) L)
                ++ [Id b]).
Proof.
  intros Hvalid Hrun.
  destruct (groupVotes (blocks (ni w)) (BlockVotes b) ∅) as [patterns|] eqn:Hg.
  2: { apply groupVotes_None in Hg.
       rewrite (processBlock_unknown_vote rangeOrder b w Hg) in Hrun. discriminate Hrun. }
  rewrite (processBlock_run rangeOrder b w patterns Hg) in Hrun.
  set (entries := rangeOrder (tick w) (Z * list Z)%type (map_to_list patterns)) in Hrun.
  assert (Hni : ni w' = storeBlock b (foldl keepVote (∅, None) entries)
                          (foldl registerPattern (ni w) entries))
    by (injection Hrun as _ <-; reflexivity).
  assert (Hnb : nbVotes nb = (foldl keepVote (∅, None) entries).1)
    by (injection Hrun as <- _; reflexivity).
  clear Hrun. rewrite Hni, Hnb. clear Hni Hnb.
  assert (Hentries : ∀ e, e ∈ entries ↔ patterns !! e.1 = Some e.2).
  { intros [l v]. unfold entries. rewrite (Hvalid _ _ _). apply elem_of_map_to_list. }
  destruct (keepVote_effective entries (∅, None)) as (Hlast & Hnil & Heff).
  simpl in Hlast, Hnil, Heff.
  assert (Hfields : ∀ r, tEffective (storeBlock b r (foldl registerPattern (ni w) entries))
                         = <[Id b := r.2]> (tEffective (ni w))
                       ∧ tEffectiveToBlocks (storeBlock b r (foldl registerPattern (ni w) entries))
                         = match r.2 with
                           | Some eff => <[eff := default [] (tEffectiveToBlocks (ni w) !! eff)
                                                  ++ [Id b]]> (tEffectiveToBlocks (ni w))
                           | None => tEffectiveToBlocks (ni w)
                           end).
  { intros r. unfold storeBlock.
    destruct (r.2); simpl;
      rewrite (registerPattern_frame tEffective), (registerPattern_frame tEffectiveToBlocks);
      done. }
  destruct (Hfields (foldl keepVote (∅, None) entries)) as [HtE HtB].
  rewrite HtE, HtB, lookup_insert_eq. clear Hfields HtE HtB.
  destruct ((foldl keepVote (∅, None) entries).2) as [p|] eqn:Hr.
  - right. destruct Heff as ([Habs|(e & He & ->)] & Hmax & _); [done|].
    apply Hentries in He as Hpat. apply (groupVotes_entries _ _ _ _ _ Hg) in Hpat as [Hv Hne].
    exists e.1. unfold patternOf. rewrite <- Hv. split; [done|].
    split; [|by rewrite lookup_insert_eq].
    intros bid v Hin Hb.
    assert (Hl : votesInLayer (blocks (ni w)) (nbLayer v) (BlockVotes b) ≠ []).
    { intros Hnone. assert (Hm : bid ∈ votesInLayer (blocks (ni w)) (nbLayer v) (BlockVotes b)).
      { apply votesInLayer_elem. eauto. }
      rewrite Hnone in Hm. by apply elem_of_nil in Hm. }
    apply (Hmax (nbLayer v, votesInLayer (blocks (ni w)) (nbLayer v) (BlockVotes b))).
    apply Hentries. simpl. by apply (groupVotes_entries _ _ _ _ _ Hg).
  - left. destruct Heff as [_ Hempty]. rewrite (Hnil Hempty). simpl.
    split; [|done].
    destruct (BlockVotes b) as [|bid rest] eqn:Hvotes; [done|]. exfalso.
    destruct (groupVotes_Some_known _ _ _ _ bid Hg) as [v Hv]; [left|].
    assert (Hin : (nbLayer v, votesInLayer (blocks (ni w)) (nbLayer v) (bid :: rest)) ∈ entries).
    { apply Hentries. simpl. apply (groupVotes_entries _ _ _ _ _ Hg). split; [done|].
      intros Hnone.
      assert (Hm : bid ∈ votesInLayer (blocks (ni w)) (nbLayer v) (bid :: rest)).
      { apply votesInLayer_elem. split; [left|eauto]. }
      rewrite Hnone in Hm. by apply elem_of_nil in Hm. }
    rewrite Hempty in Hin. by apply elem_of_nil in Hin.
Qed.

Lemma storeBlock_fields b r s :
  blocks (storeBlock b r s) = <[Id b := mkNinja b r.1]> (blocks s)
  ∧ tEffective (storeBlock b r s) = <[Id b := r.2]> (tEffective s)
  ∧ tEffectiveToBlocks (storeBlock b r s)
    = match r.2 with
      | Some eff => <[eff := default [] (tEffectiveToBlocks s !! eff) ++ [Id b]]>
                      (tEffectiveToBlocks s)
      | None => tEffectiveToBlocks s
      end
  ∧ tPattern (storeBlock b r s) = tPattern s
  ∧ layerBlocks (storeBlock b r s) = layerBlocks s
  ∧ LayerSize (storeBlock b r s) = LayerSize s
  ∧ voteTables (storeBlock b r s) = voteTables s.
Proof. unfold storeBlock. by destruct (r.2). Qed.

Lemma foldl_insert_lookup {K V E} `{Countable K} (f : E → K) (g : E → V) entries
    (m : gmap K V) k v :
  foldl (λ m e, <[f e := g e]> m) m entries !! k = Some v →
  (∃ e, e ∈ entries ∧ k = f e ∧ v = g e)
  ∨ (m !! k = Some v ∧ ∀ e, e ∈ entries → f e ≠ k).
Proof.
  revert m. induction entries as [|e es IH]; intros m Hl; simpl in Hl.
  { right. split; [done|]. intros ? He. by apply elem_of_nil in He. }
  apply IH in Hl as [(e' & He' & -> & ->)|[Hl Hnone]].
  - left. exists e'. split; [by right|done].
  - apply lookup_insert_Some in Hl as [[<- <-]|[Hne Hl]].
    + left. exists e. split; [left|done].
    + right. split; [done|]. intros e' [->|He']%elem_of_cons; [done|by apply Hnone].
Qed.

Lemma foldl_insert_is_Some {K V E} `{Countable K} (f : E → K) (g : E → V) entries
    (m : gmap K V) k :
  is_Some (m !! k) ∨ (∃ e, e ∈ entries ∧ k = f e) →
  is_Some (foldl (λ m e, <[f e := g e]> m) m entries !! k).
Proof.
  revert m. induction entries as [|e es IH]; intros m Hk; simpl.
  - destruct Hk as [?|(e & He & _)]; [done|]. by apply elem_of_nil in He.
  - apply IH. destruct Hk as [Hk|(e' & [->|He']%elem_of_cons & ->)].
    + left. rewrite lookup_insert_is_Some. destruct (decide (f e = k)); auto.
    + left. rewrite lookup_insert_eq. by eexists.
    + right. eauto.
Qed.

Section Structure.
Variable rangeOrder : nat → ∀ A : Type, list A → list A.

Lemma keeps_structure_voteLayer p cnt flag i : keeps structure (voteLayer p cnt flag i).
Proof.
  unfold voteLayer, globalOpinion.
  repeat first [ apply keeps_sumNodesInView | apply keeps_nonNil | apply keeps_writeTally
               | keeps_step ]; done.
Qed.

Lemma keeps_structure_tallyGood j p : keeps structure (tallyGood rangeOrder j p).
Proof.
  unfold tallyGood.
  repeat first [ apply keeps_rangeOver | apply keeps_ensureTally
               | apply keeps_writeTally | apply keeps_updatePatternTally
               | apply keeps_forBlockInView; intros ? ?
               | apply keeps_addPatternVote | apply keeps_updateCorrectionVectors
               | apply keeps_structure_voteLayer
               | keeps_step ]; done.
Qed.

Lemma keeps_structure_findMinimalGoodLayer i bs :
  keeps structure (findMinimalGoodLayer rangeOrder i bs).
Proof.
  unfold findMinimalGoodLayer, voteOnLayer, markGood, addSupport.
  repeat first [ apply keeps_rangeOver | keeps_step ].
Qed.

(** The part of a call that follows the insertion of the blocks. *)
Lemma keeps_structure_count i bs :
  keeps structure
    (if decide (i = 0) then ret 0
     else
       l <- findMinimalGoodLayer rangeOrder i bs ;;
       forEach (layersBelow l i) (λ j,
         s <- getNi ;;
         match tGood s !! j with
         | Some p => tallyGood rangeOrder j p
         | None => ret tt
         end) ;;;
       s <- getNi ;;
       ret (Layer (pBase s))).
Proof.
  destruct (decide (i = 0)); [apply keeps_ret|].
  repeat first [ apply keeps_structure_findMinimalGoodLayer
               | apply keeps_structure_tallyGood | keeps_step ].
Qed.

(** A property of the insertion tables that each inserted block keeps is
    kept by a call, also when the call panics. *)
Lemma UpdateTables_structure_inv (Φ : ninjaTortoise → Prop) B i w :
  (∀ s s', structure s' = structure s → Φ s → Φ s') →
  (∀ b w0 nb w1, Φ (ni w0) → processBlock rangeOrder b w0 = Ok nb w1 →
                 Φ (fileUnder i (ni w1) (Id b))) →
  Φ (ni w) → Φ (ni (finalWorld (UpdateTables rangeOrder B i w))).
Proof.
  intros Hstr Hstep Hw.
  cut (wp (UpdateTables rangeOrder B i) (λ _ w', Φ (ni w')) (λ w', Φ (ni w')) w).
  { unfold wp. by destruct (UpdateTables rangeOrder B i w). }
  unfold UpdateTables. apply wp_bind.
  eapply wp_mono;
    [apply (wp_foldM _ (λ _ w', Φ (ni w')) (λ w', Φ (ni w')))| |done].
  - done.
  - intros bs block w0 _ Hw0. apply wp_bind. unfold wp at 1.
    pose proof (processBlock_spec rangeOrder block w0) as Hspec. unfold wp in Hspec.
    destruct (processBlock rangeOrder block w0) as [nb w1|e w1] eqn:Hrun.
    + unfold wp, bind, modifyNi, ret. simpl. by eapply Hstep.
    + by destruct Hspec as [-> _].
  - intros bs w0 Hw0.
    pose proof (keeps_structure_count i bs w0) as Hk. unfold wp.
    destruct (_ w0) as [l w1|e w1]; simpl in Hk; by eapply Hstr.
Qed.
End Structure.

Section Invariants.
Variable rangeOrder : nat → ∀ A : Type, list A → list A.

Lemma processBlock_Ok b w nb w' :
  processBlock rangeOrder b w = Ok nb w' →
  ∃ patterns,
    groupVotes (blocks (ni w)) (BlockVotes b) ∅ = Some patterns
    ∧ nb = mkNinja b (foldl keepVote (∅, None)
                        (rangeOrder (tick w) (Z * list Z)%type (map_to_list patterns))).1
    ∧ ni w' = storeBlock b
                (foldl keepVote (∅, None)
                   (rangeOrder (tick w) (Z * list Z)%type (map_to_list patterns)))
                (foldl registerPattern (ni w)
                   (rangeOrder (tick w) (Z * list Z)%type (map_to_list patterns)))
    ∧ heap w' = heap w.
Proof.
  intros Hrun.
  destruct (groupVotes (blocks (ni w)) (BlockVotes b) ∅) as [patterns|] eqn:Hg.
  2: { apply groupVotes_None in Hg.
       rewrite (processBlock_unknown_vote rangeOrder b w Hg) in Hrun. discriminate Hrun. }
  exists patterns. split; [done|].
  rewrite (processBlock_run rangeOrder b w patterns Hg) in Hrun.
  by injection Hrun as <- <-.
Qed.

Lemma getId_sortIds l : getId (sortIds l) = getId l.
Proof.
  unfold getId. by rewrite (sortIds_permutation_invariant (sortIds l) l (sortIds_perm l)).
Qed.

Lemma patterns_wf_step i b w0 nb w1 :
  validOrder rangeOrder →
  patterns_wf (ni w0) → processBlock rangeOrder b w0 = Ok nb w1 →
  patterns_wf (fileUnder i (ni w1) (Id b)).
Proof.
  intros Hvalid Hwf Hrun.
  apply processBlock_Ok in Hrun as (patterns & Hg & _ & Hni & _).
  set (entries := rangeOrder (tick w0) (Z * list Z)%type (map_to_list patterns)) in *.
  set (r := foldl keepVote (∅, None) entries) in *.
  destruct (storeBlock_fields b r (foldl registerPattern (ni w0) entries))
    as (Hblocks & _ & _ & Hpat & _).
  rewrite (registerPattern_frame blocks) in Hblocks by done.
  rewrite registerPattern_tPattern in Hpat.
  intros p l. unfold fileUnder. simpl. rewrite Hni, Hpat, Hblocks. intros Hl.
  assert (Hstill : ∀ x, is_Some (blocks (ni w0) !! x) →
                        is_Some (<[Id b := mkNinja b r.1]> (blocks (ni w0)) !! x)).
  { intros x Hx. rewrite lookup_insert_is_Some. destruct (decide (Id b = x)); auto. }
  apply foldl_insert_lookup in Hl as [(e & He & -> & ->)|[Hold _]].
  - assert (Hpe : patterns !! e.1 = Some e.2).
    { pose proof (Hvalid (tick w0) _ (map_to_list patterns)) as Hperm.
      fold entries in Hperm. rewrite Hperm in He.
      destruct e as [k v]. by apply elem_of_map_to_list. }
    apply (groupVotes_entries _ _ _ _ _ Hg) in Hpe as [Hv Hne].
    split_and!.
    + intros Hnil. apply Hne. apply Permutation_nil_r. rewrite <- Hnil.
      symmetry. apply sortIds_perm.
    + apply sortIds_sorted.
    + simpl. by rewrite getId_sortIds.
    + intros x Hx. rewrite sortIds_perm, Hv in Hx.
      apply votesInLayer_elem in Hx as (_ & v & Hv' & _). apply Hstill. by eexists.
  - destruct (Hwf p l Hold) as (? & ? & ? & Hmem). split_and!; try done.
    intros x Hx. by apply Hstill, Hmem.
Qed.

Lemma patterns_wf_structure s s' : structure s' = structure s → patterns_wf s → patterns_wf s'.
Proof.
  unfold structure, patterns_wf. intros Heq. injection Heq as _ -> _ _ -> _. done.
Qed.

Lemma indexes_wf_structure s s' : structure s' = structure s → indexes_wf s → indexes_wf s'.
Proof.
  unfold structure, indexes_wf. intros Heq. injection Heq as _ -> -> -> -> ->. done.
Qed.

Lemma indexes_wf_step i b w0 nb w1 :
  indexes_wf (ni w0) → processBlock rangeOrder b w0 = Ok nb w1 →
  indexes_wf (fileUnder i (ni w1) (Id b)).
Proof.
  intros (Hlayer & Hfiled & Hdom & Heff) Hrun.
  apply processBlock_Ok in Hrun as (patterns & Hg & _ & Hni & _).
  set (entries := rangeOrder (tick w0) (Z * list Z)%type (map_to_list patterns)) in *.
  set (r := foldl keepVote (∅, None) entries) in *.
  destruct (storeBlock_fields b r (foldl registerPattern (ni w0) entries))
    as (Hblocks & HtE & HtB & Hpat & Hlb & _).
  rewrite (registerPattern_frame blocks) in Hblocks by done.
  rewrite (registerPattern_frame tEffective) in HtE by done.
  rewrite (registerPattern_frame tEffectiveToBlocks) in HtB by done.
  rewrite (registerPattern_frame layerBlocks) in Hlb by done.
  rewrite registerPattern_tPattern in Hpat.
  assert (Hstill : ∀ x, is_Some (blocks (ni w0) !! x) →
                        is_Some (<[Id b := mkNinja b r.1]> (blocks (ni w0)) !! x)).
  { intros x Hx. rewrite lookup_insert_is_Some. destruct (decide (Id b = x)); auto. }
  assert (Hnew : is_Some (<[Id b := mkNinja b r.1]> (blocks (ni w0)) !! Id b)).
  { rewrite lookup_insert_eq. by eexists. }
  unfold indexes_wf, fileUnder. simpl. rewrite Hni, Hblocks, HtE, HtB, Hpat, Hlb.
  split_and!.
  - intros j l x Hl Hx. apply lookup_insert_Some in Hl as [[<- <-]|[_ Hl]].
    + apply elem_of_app in Hx as [Hx|Hx].
      * destruct (layerBlocks (ni w0) !! i) as [old|] eqn:Hold; simpl in Hx.
        -- apply Hstill. by eapply Hlayer.
        -- by apply elem_of_nil in Hx.
      * apply list_elem_of_singleton in Hx as ->. done.
    + apply Hstill. by eapply Hlayer.
  - intros p l x Hl Hx. destruct (r.2) as [eff|] eqn:Hr.
    + apply lookup_insert_Some in Hl as [[<- <-]|[_ Hl]].
      * apply elem_of_app in Hx as [Hx|Hx].
        -- destruct (tEffectiveToBlocks (ni w0) !! eff) as [old|] eqn:Hold; simpl in Hx.
           ++ apply Hstill. by eapply Hfiled.
           ++ by apply elem_of_nil in Hx.
        -- apply list_elem_of_singleton in Hx as ->. done.
      * apply Hstill. by eapply Hfiled.
    + apply Hstill. by eapply Hfiled.
  - intros x. rewrite !lookup_insert_is_Some. by rewrite Hdom.
  - intros x p Hx. apply lookup_insert_Some in Hx as [[<- Hx]|[Hne Hx]].
    + split.
      * apply foldl_insert_is_Some. right.
        destruct (keepVote_effective entries (∅, None)) as (_ & _ & Hk). fold r in Hk.
        rewrite Hx in Hk. destruct Hk as ([Habs|(e & He & ->)] & _); [done|]. eauto.
      * rewrite Hx. rewrite lookup_insert_eq. eexists. split; [done|].
        apply elem_of_app. right. by left.
    + destruct (Heff x p Hx) as [Hreg (l & Hl & Hin)]. split.
      * apply foldl_insert_is_Some. by left.
      * destruct (r.2) as [eff|]; [|eauto].
        destruct (decide (eff = p)) as [->|Hnp].
        -- rewrite lookup_insert_eq, Hl. simpl. eexists. split; [done|].
           apply elem_of_app. by left.
        -- rewrite lookup_insert_ne by done. eauto.
Qed.

Lemma patterns_wf_new layerSize : patterns_wf (newNinjaTortoise layerSize).
Proof. intros p l Hl. simpl in Hl. by rewrite lookup_empty in Hl. Qed.

Lemma indexes_wf_new layerSize : indexes_wf (newNinjaTortoise layerSize).
Proof.
  unfold indexes_wf. simpl. split_and!.
  - intros ??? Hl. by rewrite lookup_empty in Hl.
  - intros ??? Hl. by rewrite lookup_empty in Hl.
  - intros b. by rewrite !lookup_empty.
  - intros ?? Hl. by rewrite lookup_empty in Hl.
Qed.

Lemma reachable_patterns_wf w :
  validOrder rangeOrder → reachable rangeOrder w → patterns_wf (ni w).
Proof.
  intros Hvalid Hw. induction Hw as [layerSize|w B i Hw IH Hi].
  - apply patterns_wf_new.
  - apply (UpdateTables_structure_inv rangeOrder patterns_wf); [|by intros; eapply patterns_wf_step|done].
    apply patterns_wf_structure.
Qed.

Lemma reachable_indexes_wf w : reachable rangeOrder w → indexes_wf (ni w).
Proof.
  intros Hw. induction Hw as [layerSize|w B i Hw IH Hi].
  - apply indexes_wf_new.
  - apply (UpdateTables_structure_inv rangeOrder indexes_wf); [|by intros; eapply indexes_wf_step|done].
    apply indexes_wf_structure.
Qed.
End Invariants.

Section Insertion.
Variable rangeOrder : nat → ∀ A : Type, list A → list A.

(** What the insertion of a batch does, block by block. *)
Lemma insertBlocks_gen B i acc w bs w1 :
  foldM (λ b block,
      nb <- processBlock rangeOrder block ;;
      modifyNi (λ s, set_layerBlocks
        (<[i := default [] (layerBlocks s !! i) ++ [Id block]]> (layerBlocks s)) s) ;;;
      ret (b ++ [nb])) B acc w = Ok bs w1 →
  ∃ new, bs = acc ++ new ∧ nbBlock <$> new = B
    ∧ blocks (ni w1) = foldl (λ m nb, <[nbID nb := nb]> m) (blocks (ni w)) new
    ∧ layerBlocks (ni w1)
      = foldl (λ lb a, <[i := default [] (lb !! i) ++ [a]]> lb) (layerBlocks (ni w)) (Id <$> B)
    ∧ heap w1 = heap w ∧ voteTables (ni w1) = voteTables (ni w)
    ∧ LayerSize (ni w1) = LayerSize (ni w).
Proof.
  revert acc w. induction B as [|b B IH]; intros acc w Hrun; simpl in Hrun.
  - injection Hrun as <- <-. exists []. by rewrite app_nil_r.
  - unfold bind at 1 in Hrun. unfold bind at 1 in Hrun.
    destruct (processBlock rangeOrder b w) as [nb w0|e w0] eqn:Hb; [|discriminate Hrun].
    unfold bind at 1, modifyNi at 1, ret at 1 in Hrun. simpl in Hrun.
    apply IH in Hrun as (new & -> & HB & Hblocks & Hlb & Hheap & Hvt & Hls).
    apply processBlock_Ok in Hb as (patterns & Hg & Hnb & Hni & Hh).
    simpl in Hblocks, Hlb, Hheap, Hvt, Hls.
    set (entries := rangeOrder (tick w) (Z * list Z)%type (map_to_list patterns)) in *.
    set (r := foldl keepVote (∅, None) entries) in *.
    destruct (storeBlock_fields b r (foldl registerPattern (ni w) entries))
      as (Hblocks0 & _ & _ & _ & Hlb0 & Hls0 & Hvt0).
    rewrite (registerPattern_frame blocks) in Hblocks0 by done.
    rewrite (registerPattern_frame layerBlocks) in Hlb0 by done.
    rewrite (registerPattern_frame LayerSize) in Hls0 by done.
    rewrite (registerPattern_frame voteTables) in Hvt0 by done.
    rewrite Hni in Hblocks, Hlb, Hvt, Hls.
    exists (nb :: new). split; [by rewrite <- app_assoc|]. split.
    { rewrite fmap_cons, HB. f_equal. by rewrite Hnb. }
    rewrite fmap_cons. simpl. rewrite Hblocks, Hlb, Hheap, Hh, Hblocks0, Hlb0.
    split; [by rewrite Hnb|]. split; [done|]. split; [done|].
    split; [|by rewrite <- Hls0]. rewrite <- Hvt0. exact Hvt.
Qed.

Lemma insertBlocks_run B i w bs w1 :
  insertBlocks rangeOrder B i w = Ok bs w1 →
  nbBlock <$> bs = B
  ∧ blocks (ni w1) = foldl (λ m nb, <[nbID nb := nb]> m) (blocks (ni w)) bs
  ∧ layerBlocks (ni w1)
    = (if decide (B = []) then layerBlocks (ni w)
       else <[i := default [] (layerBlocks (ni w) !! i) ++ (Id <$> B)]> (layerBlocks (ni w)))
  ∧ heap w1 = heap w ∧ voteTables (ni w1) = voteTables (ni w)
  ∧ LayerSize (ni w1) = LayerSize (ni w).
Proof.
  intros Hrun. apply insertBlocks_gen in Hrun as (new & -> & HB & Hb & Hlb & Hh & Hvt & Hls).
  simpl. split_and!; try done.
  rewrite Hlb. clear. generalize (layerBlocks (ni w)). intros lb.
  assert (Hgen : ∀ (ids : list Z) (lb : gmap Z (list Z)),
            foldl (λ lb a, <[i := default [] (lb !! i) ++ [a]]> lb) lb ids
            = if decide (ids = []) then lb else <[i := default [] (lb !! i) ++ ids]> lb).
  { clear. induction ids as [|a ids IH]; intros lb; [done|]. simpl. rewrite IH.
    destruct (decide (ids = [])) as [->|Hne]; [done|].
    rewrite lookup_insert_eq, insert_insert_eq. simpl. by rewrite <- app_assoc. }
  rewrite Hgen. destruct B; done.
Qed.

(** The count that follows the insertion leaves the insertion tables
    alone. *)
Lemma UpdateTables_structure B i w bs w1 :
  insertBlocks rangeOrder B i w = Ok bs w1 →
  structure (ni (finalWorld (UpdateTables rangeOrder B i w))) = structure (ni w1).
Proof.
  intros Hrun. unfold UpdateTables, bind at 1. rewrite Hrun.
  apply keeps_structure_count.
Qed.

Lemma UpdateTables_Ok_inserted B i w l w' :
  UpdateTables rangeOrder B i w = Ok l w' →
  ∃ bs w1, insertBlocks rangeOrder B i w = Ok bs w1 ∧ structure (ni w') = structure (ni w1).
Proof.
  intros Hrun. destruct (insertBlocks rangeOrder B i w) as [bs w1|e w1] eqn:Hins.
  - exists bs, w1. split; [done|].
    pose proof (UpdateTables_structure B i w bs w1 Hins) as Hs. by rewrite Hrun in Hs.
  - unfold UpdateTables, bind at 1 in Hrun. rewrite Hins in Hrun. discriminate Hrun.
Qed.
End Insertion.


(** X10.  When a call returns, the identifiers of its blocks have been appended,
    in the order of the batch and repetitions included, to the list of the
    layer the call was made for, whatever layer the blocks themselves
    carry; the lists of the other layers are as before. *)
Theorem UpdateTables_files_blocks_under_call_layer rangeOrder B i w l w' :
  UpdateTables rangeOrder B i w = Ok l w' →
  layerBlocks (ni w')
  = if decide (B = []) then layerBlocks (ni w)
    else <[i := default [] (layerBlocks (ni w) !! i) ++ (Id <$> B)]> (layerBlocks (ni w)).
Proof.
  intros Hrun. apply UpdateTables_Ok_inserted in Hrun as (bs & w1 & Hins & Hstr).
  apply insertBlocks_run in Hins as (_ & _ & <- & _).
  unfold structure in Hstr. by injection Hstr as _ _ _ -> _ _.
Qed.

(** X11.  A call works in two phases that do not touch each other's tables: the
    insertion of the blocks leaves the vectors and the tables of the vote
    count as they are, and the count that follows leaves the tables of the
    insertion as they are, also when it panics. *)
Theorem UpdateTables_inserts_then_counts rangeOrder B i w bs w1 :
  insertBlocks rangeOrder B i w = Ok bs w1 →
  heap w1 = heap w ∧ voteTables (ni w1) = voteTables (ni w)
  ∧ structure (ni (finalWorld (UpdateTables rangeOrder B i w))) = structure (ni w1).
Proof.
  intros Hins. split_and!.
  - by apply insertBlocks_run in Hins as (_ & _ & _ & ? & _).
  - by apply insertBlocks_run in Hins as (_ & _ & _ & _ & ? & _).
  - by eapply UpdateTables_structure.
Qed.

(** * Blocks without vote edges *)

Lemma keeps_tEffective_voteOnLayer j sU block : keeps tEffective (voteOnLayer j sU block).
Proof. unfold voteOnLayer, addSupport. keeps_auto. Qed.

Lemma voteOnLayer_panic j sU block w e w' :
  voteOnLayer j sU block w = Panic e w' → e = NilDeref.
Proof.
  unfold voteOnLayer, addSupport, bind, getNi, modifyNi, ret, fail.
  repeat case_match; simpl; congruence.
Qed.

Lemma voteOnLayer_nil_effective j sU block w :
  nbVotes block !! j = None → tEffective (ni w) !! nbID block = Some None →
  voteOnLayer j sU block w = Panic NilDeref w.
Proof.
  intros Hv He. unfold voteOnLayer, bind, getNi. by rewrite Hv, He.
Qed.

Lemma foldM_voteOnLayer_panics j bs sU w nb :
  nb ∈ bs → nbVotes nb !! j = None → tEffective (ni w) !! nbID nb = Some None →
  ∃ w', foldM (voteOnLayer j) bs sU w = Panic NilDeref w'.
Proof.
  revert sU w. induction bs as [|x bs IH]; intros sU w Hin Hv He.
  { by apply elem_of_nil in Hin. }
  simpl. unfold bind.
  destruct (voteOnLayer j sU x w) as [sU' w1|e w1] eqn:Hx.
  - apply elem_of_cons in Hin as [->|Hin].
    + rewrite (voteOnLayer_nil_effective j sU x w Hv He) in Hx. discriminate Hx.
    + apply IH; [done|done|].
      pose proof (keeps_tEffective_voteOnLayer j sU x w) as Hk. rewrite Hx in Hk.
      simpl in Hk. by rewrite Hk.
  - apply voteOnLayer_panic in Hx as Heq. subst e. eauto.
Qed.

Section Voteless.
Variable rangeOrder : nat → ∀ A : Type, list A → list A.
Hypothesis rangeOrder_valid : validOrder rangeOrder.

Lemma processBlock_effective b w nb w' :
  processBlock rangeOrder b w = Ok nb w' →
  (∀ a, a ≠ Id b → tEffective (ni w') !! a = tEffective (ni w) !! a)
  ∧ (BlockVotes b = [] → tEffective (ni w') !! Id b = Some None ∧ nbVotes nb = ∅)
  ∧ nbBlock nb = b.
Proof.
  intros Hrun.
  apply processBlock_Ok in Hrun as (patterns & Hg & -> & -> & _).
  set (entries := rangeOrder (tick w) (Z * list Z)%type (map_to_list patterns)) in *.
  set (r := foldl keepVote (∅, None) entries) in *.
  destruct (storeBlock_fields b r (foldl registerPattern (ni w) entries)) as (_ & -> & _).
  rewrite (registerPattern_frame tEffective) by done.
  split; [intros a Ha; by rewrite lookup_insert_ne|]. split; [|done].
  intros Hvotes. rewrite Hvotes in Hg. simpl in Hg. injection Hg as <-.
  assert (Hnil : entries = []).
  { apply Permutation_nil_r. unfold entries. rewrite (rangeOrder_valid _ _ _).
    by rewrite map_to_list_empty. }
  unfold r. rewrite Hnil. simpl. by rewrite lookup_insert_eq.
Qed.

Lemma insertBlocks_voteless B i acc w bs w1 b :
  foldM (λ b block,
      nb <- processBlock rangeOrder block ;;
      modifyNi (λ s, set_layerBlocks
        (<[i := default [] (layerBlocks s !! i) ++ [Id block]]> (layerBlocks s)) s) ;;;
      ret (b ++ [nb])) B acc w = Ok bs w1 →
  (∀ b', b' ∈ B → Id b' = Id b → BlockVotes b' = []) →
  (b ∈ B ∨ tEffective (ni w) !! Id b = Some None) →
  tEffective (ni w1) !! Id b = Some None
  ∧ (b ∈ B → ∃ nb, nb ∈ bs ∧ nbID nb = Id b ∧ nbVotes nb = ∅).
Proof.
  revert acc w. induction B as [|x B IH]; intros acc w Hrun Hvl Hb; simpl in Hrun.
  - injection Hrun as <- <-. destruct Hb as [Hb|Hb]; [by apply elem_of_nil in Hb|].
    split; [done|]. intros Hin. by apply elem_of_nil in Hin.
  - unfold bind at 1 in Hrun. unfold bind at 1 in Hrun.
    destruct (processBlock rangeOrder x w) as [nb w0|e w0] eqn:Hx; [|discriminate Hrun].
    unfold bind at 1, modifyNi at 1, ret at 1 in Hrun. simpl in Hrun.
    apply processBlock_effective in Hx as (Hother & Hsame & Hnb).
    pose proof (insertBlocks_gen rangeOrder B i _ _ _ _ Hrun) as (new & Hbs & _).
    apply IH in Hrun as [HtE Hfound].
    + split; [done|]. intros Hin. apply elem_of_cons in Hin as [->|Hin].
      * destruct (Hsame (Hvl x ltac:(left) eq_refl)) as [_ Hv].
        exists nb. split; [|split; [by unfold nbID; rewrite Hnb|done]].
        rewrite Hbs. apply elem_of_app. left. apply elem_of_app. right. left.
      * by apply Hfound.
    + intros b' Hb'. apply Hvl. by right.
    + simpl. destruct (decide (Id x = Id b)) as [Heq|Hne].
      * right. rewrite <- Heq. apply Hsame, Hvl; [left|done].
      * destruct Hb as [[->|Hb]%elem_of_cons|Hb]; [done|by left|].
        right. by rewrite Hother.
Qed.

(** X12.  A block without vote edges gets the nil effective pattern, and the
    scan of [findMinimalGoodLayer] dereferences it: when the batch of a
    call holds such a block and there is a layer to scan, the call panics
    with a nil dereference once the batch is inserted. *)
Theorem UpdateTables_panics_on_block_without_votes B i w bs w1 b :
  insertBlocks rangeOrder B i w = Ok bs w1 →
  b ∈ B → (∀ b', b' ∈ B → Id b' = Id b → BlockVotes b' = []) →
  i ≠ 0 → startLayer (ni w) i < i →
  ∃ w2, UpdateTables rangeOrder B i w = Panic NilDeref w2.
Proof.
  intros Hins Hb Hvl Hi Hscan.
  pose proof (insertBlocks_run rangeOrder B i w bs w1 Hins) as (_ & _ & _ & _ & Hvt & _).
  assert (Hstart : startLayer (ni w1) i = startLayer (ni w) i).
  { unfold startLayer, voteTables in *. by injection Hvt as -> _ _ _ _ _ _ _ _. }
  unfold insertBlocks in Hins.
  pose proof (insertBlocks_voteless B i [] w bs w1 b Hins Hvl (or_introl Hb)) as [HtE Hnb].
  destruct (Hnb Hb) as (nb & Hin & Hid & Hvotes).
  unfold UpdateTables, bind at 1. unfold insertBlocks. rewrite Hins.
  rewrite decide_False by done.
  unfold bind at 1, findMinimalGoodLayer, bind at 1, getNi at 1.
  unfold layersBelow. rewrite Hstart.
  rewrite seqZ_cons by lia. simpl. unfold bind at 1. unfold bind at 1.
  destruct (foldM_voteOnLayer_panics (startLayer (ni w) i) bs ∅ w1 nb) as [w2 ->]; eauto.
  - rewrite Hvotes. apply lookup_empty.
  - by rewrite Hid.
Qed.
End Voteless.

Lemma markGood_scan i j mg p w :
  Layer p = j →
  wp (markGood i j mg p)
     (λ _ w', tComplete (ni w') = tComplete (ni w) ∧ LayerSize (ni w') = LayerSize (ni w)
              ∧ ∀ L, L ≠ j → tGood (ni w') !! L = tGood (ni w) !! L)
     (λ _, False) w.
Proof.
  intros Hj. unfold markGood. apply wp_bind. unfold wp at 1, getNi.
  destruct (_ && _).
  - unfold wp, bind, modifyNi, ret. simpl. split; [done|]. split; [done|].
    intros L HL. rewrite lookup_insert_ne; [done|congruence].
  - unfold wp, ret. done.
Qed.

Lemma keeps_voteOnLayer_complete j sU block :
  keeps (λ s, (tComplete s, LayerSize s)) (voteOnLayer j sU block).
Proof. unfold voteOnLayer, addSupport. keeps_auto. Qed.

Section Settled.
Variable rangeOrder : nat → ∀ A : Type, list A → list A.
Hypothesis rangeOrder_valid : validOrder rangeOrder.

(** The scan writes good patterns for scanned layers only. *)
Lemma findMinimalGoodLayer_scan i bs w :
  frontier_wf (ni w) → Forall votes_wf bs →
  wp (findMinimalGoodLayer rangeOrder i bs)
     (λ _ w', tComplete (ni w') = tComplete (ni w) ∧ LayerSize (ni w') = LayerSize (ni w)
              ∧ ∀ L, ¬ (startLayer (ni w) i ≤ L < i) → tGood (ni w') !! L = tGood (ni w) !! L)
     (λ w', tComplete (ni w') = tComplete (ni w) ∧ LayerSize (ni w') = LayerSize (ni w)
              ∧ ∀ L, ¬ (startLayer (ni w) i ≤ L < i) → tGood (ni w') !! L = tGood (ni w) !! L) w.
Proof.
  intros Hwf Hbs. unfold findMinimalGoodLayer. apply wp_bind. unfold wp at 1, getNi.
  set (Θ := λ w', tComplete (ni w') = tComplete (ni w) ∧ LayerSize (ni w') = LayerSize (ni w)
              ∧ ∀ L, ¬ (startLayer (ni w) i ≤ L < i) → tGood (ni w') !! L = tGood (ni w) !! L).
  eapply wp_mono;
    [apply (wp_foldM _ (λ _ w', frontier_wf (ni w') ∧ Θ w') (λ w', Θ w'))| |done].
  { by split. }
  2: { by intros ? ? [_ ?]. }
  intros mg j w0 Hj (Hwf0 & Hc0 & Hs0 & Hg0).
  apply elem_of_layersBelow in Hj. apply wp_bind.
  eapply wp_mono;
    [apply (wp_foldM _ (λ sU w', (core (ni w') = core (ni w0)
                                   ∧ tComplete (ni w') = tComplete (ni w0)
                                   ∧ LayerSize (ni w') = LayerSize (ni w0))
                                  ∧ ∀ p, p ∈ sU → Layer p = j)
              (λ w', core (ni w') = core (ni w0) ∧ tComplete (ni w') = tComplete (ni w0)
                     ∧ LayerSize (ni w') = LayerSize (ni w0)))| |].
  - split; [done|]. intros p Hp. by apply not_elem_of_empty in Hp.
  - intros sU block w1 Hblock [(Hc1 & Hcm1 & Hs1) HsU].
    eapply wp_mono;
      [apply (wp_conj _ _ _ _ _ _
                (voteOnLayer_spec j sU block w1
                   (proj1 (Forall_forall _ _) Hbs _ Hblock)
                   (frontier_wf_core _ _ Hc1 Hwf0) HsU)
                (wp_keeps_eq _ _ w1 (keeps_voteOnLayer_complete j sU block)))| |].
    + intros sU' w2 [[Hc2 HsU'] Hk]. injection Hk as Hk1 Hk2.
      split; [|done]. split_and!; congruence.
    + intros w2 [Hc2 Hk]. injection Hk as Hk1 Hk2. split_and!; congruence.
  - intros sU w1 [(Hc1 & Hcm1 & Hs1) HsU]. apply wp_bind. unfold wp at 1, rangeOver.
    assert (Hps : ∀ p, p ∈ rangeOrder (tick w1) votingPattern (elements sU) → Layer p = j).
    { intros p Hp. rewrite (rangeOrder_valid _ _ _) in Hp. apply elem_of_elements in Hp. auto. }
    assert (Hwf1 : frontier_wf (ni w1)) by exact (frontier_wf_core _ _ Hc1 Hwf0).
    assert (Hg1 : tGood (ni w1) = tGood (ni w0)).
    { unfold core in Hc1. by injection Hc1 as _ -> _. }
    eapply wp_mono;
      [apply (wp_foldM _ (λ _ w', frontier_wf (ni w') ∧ Θ w') (λ _, False))| |done].
    + simpl. split; [done|]. unfold Θ. simpl. rewrite Hcm1, Hs1, Hg1. done.
    + intros mg' p w2 Hp (Hwf2 & Hc2 & Hs2 & Hg2).
      eapply wp_mono;
        [apply (wp_conj _ _ _ _ _ _ (markGood_spec i j mg' p w2 (Hps p Hp) Hwf2)
                  (markGood_scan i j mg' p w2 (Hps p Hp)))| |by intros ? [? ?]].
      intros mg'' w3 [(Hwf3 & _) (Hc3 & Hs3 & Hg3)]. split; [done|].
      unfold Θ. rewrite Hc3, Hs3. split; [done|]. split; [done|].
      intros L HL. rewrite Hg3; [by apply Hg2|]. intros ->. apply HL. lia.
    + done.
  - intros w1 (Hc1 & Hcm1 & Hs1). unfold Θ. rewrite Hcm1, Hs1.
    unfold core in Hc1. injection Hc1 as _ -> _. done.
Qed.

Lemma keeps_frontierTables_voteLayer p cnt flag i :
  keeps (λ s, (frontierTables s, LayerSize s)) (voteLayer p cnt flag i).
Proof.
  unfold voteLayer, globalOpinion.
  repeat first [ apply keeps_sumNodesInView | apply keeps_nonNil | apply keeps_writeTally
               | keeps_step ]; done.
Qed.

(** The pass over a good pattern moves the frontier to that pattern or
    leaves it where it is. *)
Lemma tallyGood_settled j p w :
  frontier_settled (ni w) → tGood (ni w) !! j = Some p → Layer p = j →
  wp (tallyGood rangeOrder j p)
     (λ _ w', frontier_settled (ni w') ∧ tGood (ni w') = tGood (ni w))
     (λ w', frontier_settled (ni w') ∧ tGood (ni w') = tGood (ni w)) w.
Proof.
  intros Hset Hgood Hp.
  set (f := λ s, (frontierTables s, LayerSize s)).
  assert (Hstable : ∀ w0, f (ni w0) = f (ni w) →
            frontier_settled (ni w0) ∧ tGood (ni w0) = tGood (ni w)).
  { intros w0 Heq. unfold f, frontierTables, frontier_settled in *.
    injection Heq as -> -> -> ->. done. }
  cut (∀ w0, f (ni w0) = f (ni w) →
         wp (tallyGood rangeOrder j p)
            (λ _ w', frontier_settled (ni w') ∧ tGood (ni w') = tGood (ni w))
            (λ w', frontier_settled (ni w') ∧ tGood (ni w') = tGood (ni w)) w0);
    [by intros H; apply H|].
  intros w0 Hsame. unfold tallyGood.
  repeat (apply wp_bind;
    eapply wp_mono;
      [apply (wp_keeps_eq f);
         repeat first [ apply keeps_rangeOver | apply keeps_ensureTally
                      | apply keeps_writeTally | apply keeps_updatePatternTally
                      | apply keeps_forBlockInView; intros ? ?
                      | apply keeps_addPatternVote | apply keeps_updateCorrectionVectors
                      | apply keeps_foldLayersUpTo; intros ? ?
                      | apply keeps_frontierTables_voteLayer
                      | keeps_step ]; done
      |intros ? ? Hsame'; rewrite Hsame in Hsame'; clear Hsame; rename Hsame' into Hsame
      |intros ? Hsame'; rewrite Hsame in Hsame'; by apply Hstable]).
  destruct (_ && _).
  - unfold wp, modifyNi. simpl. split; [|unfold f, frontierTables in Hsame; by injection Hsame].
    right. simpl. split; [apply elem_of_union; left; by apply elem_of_singleton|].
    unfold f, frontierTables in Hsame. injection Hsame as _ _ -> _. by rewrite Hp.
  - unfold wp, ret. by apply Hstable.
Qed.

Lemma keeps_voteTables_insertBlocks B i : keeps voteTables (insertBlocks rangeOrder B i).
Proof.
  unfold insertBlocks, processBlock. repeat first [ apply keeps_rangeOver | keeps_step ].
Qed.

Lemma frontier_settled_tables s s' :
  frontierTables s' = frontierTables s → frontier_settled s → frontier_settled s'.
Proof.
  unfold frontierTables, frontier_settled. intros Heq. injection Heq as -> -> ->. done.
Qed.

Lemma UpdateTables_settled B i w :
  frontier_wf (ni w) → frontier_settled (ni w) → 0 ≤ i ≤ maxUint32 →
  wp (UpdateTables rangeOrder B i)
     (λ _ w', frontier_settled (ni w')) (λ w', frontier_settled (ni w')) w.
Proof.
  intros Hwf Hset Hi. set (L0 := Layer (pBase (ni w))).
  assert (HL00 : 0 ≤ L0) by (destruct Hwf as (_ & _ & ?); unfold L0; lia).
  assert (Hvt : ∀ s s', voteTables s' = voteTables s → frontier_settled s → frontier_settled s').
  { intros s s' Heq. apply frontier_settled_tables.
    unfold voteTables, frontierTables in *. by injection Heq as -> _ _ -> _ _ _ -> _. }
  unfold UpdateTables. apply wp_bind.
  eapply wp_mono;
    [apply (wp_conj _ _ _ _ _ _
              (insertBlocks_spec rangeOrder B i w (above L0) (above_core L0)
                 (conj Hwf (Z.le_refl _)))
              (wp_keeps_eq voteTables _ w (keeps_voteTables_insertBlocks B i)))| |].
  2: { intros w0 [_ Heq]. by eapply Hvt. }
  intros bs w0 [[Habove Hbs] Heq].
  assert (Hset0 : frontier_settled (ni w0)) by (by eapply Hvt).
  destruct (decide (i = 0)); [done|].
  destruct Habove as [Hwf0 HL0]. apply wp_bind.
  eapply wp_mono;
    [apply (wp_conj _ _ _ _ _ _
              (findMinimalGoodLayer_spec rangeOrder rangeOrder_valid i bs w0 Hwf0 Hbs)
              (findMinimalGoodLayer_scan i bs w0 Hwf0 Hbs))| |].
  2: { intros w1 [[_ Hpb] (Hc & _ & Hg)].
       destruct Hset0 as [Hnew|[Hin Hgood]]; [left; by rewrite Hpb|right].
       rewrite Hpb, Hc. split; [done|]. rewrite Hg; [done|].
       pose proof (startLayer_above (ni w0) i (proj2 (proj2 Hwf0))). lia. }
  intros l w1 [(Hwf1 & Hpb1 & Hl) (Hc1 & Hs1 & Hg1)].
  assert (Hset1 : frontier_settled (ni w1)).
  { destruct Hset0 as [Hnew|[Hin Hgood]].
    - left. rewrite Hpb1. rewrite Hnew. done.
    - right. rewrite Hpb1, Hc1. split; [done|]. rewrite Hg1; [done|].
      pose proof (startLayer_above (ni w0) i (proj2 (proj2 Hwf0))). lia. }
  apply wp_bind.
  eapply wp_mono;
    [apply (wp_forEach _ (λ w', above L0 (ni w') ∧ frontier_settled (ni w'))
              (λ w', frontier_settled (ni w')))| |done].
  - split; [|done]. split; [done|]. rewrite Hpb1. done.
  - intros j w2 Hj [Hab2 Hset2]. apply elem_of_layersBelow in Hj.
    apply wp_bind. unfold wp at 1, getNi.
    destruct (tGood (ni w2) !! j) as [p|] eqn:Hg; [|done].
    assert (Hp : Layer p = j) by (destruct Hab2 as [(Hgood & _) _]; by apply Hgood).
    eapply wp_mono;
      [apply (wp_conj _ _ _ _ _ _
                (tallyGood_spec rangeOrder L0 j p w2 Hab2 Hp ltac:(lia) ltac:(lia))
                (tallyGood_settled j p w2 Hset2 Hg Hp))| |].
    + by intros _ w3 [? [? _]].
    + by intros w3 [_ [? _]].
  - intros ? w2 [_ Hset2]. unfold wp, bind, getNi, ret. done.
Qed.

Lemma reachable_frontier_settled w : reachable rangeOrder w → frontier_settled (ni w).
Proof.
  intros Hw. induction Hw as [layerSize|w B i Hw IH Hi].
  - by left.
  - pose proof (UpdateTables_settled B i w
                  (reachable_frontier_wf rangeOrder w rangeOrder_valid Hw) IH Hi) as Hspec.
    unfold wp in Hspec. by destruct (UpdateTables rangeOrder B i w).
Qed.
End Settled.

Lemma majority_same s s' i p :
  tSupport s' !! p = tSupport s !! p → LayerSize s' = LayerSize s →
  majority s' i p = majority s i p.
Proof. unfold majority. by intros -> ->. Qed.

Lemma voteOnLayer_support j sU block w :
  votes_wf block → frontier_wf (ni w) →
  wp (voteOnLayer j sU block)
     (λ _ w', LayerSize (ni w') = LayerSize (ni w)
              ∧ ∀ q, Layer q ≠ j → tSupport (ni w') !! q = tSupport (ni w) !! q)
     (λ _, True) w.
Proof.
  intros Hv (_ & Hps & _). unfold voteOnLayer.
  apply wp_bind. unfold wp at 1, getNi.
  destruct (nbVotes block !! j) as [p|] eqn:Hp.
  - apply Hv in Hp. unfold wp, bind, modifyNi, addSupport, ret.
    destruct (lookup2 _ _ _); simpl; (split; [done|]); intros q Hq;
      rewrite !lookup_insert_ne; congruence.
  - destruct (tEffective (ni w) !! nbID block) as [[eff|]|]; [|done|by split].
    destruct (lookup2 (tPatSupport (ni w)) eff j) as [p|] eqn:Hl; [|by split].
    apply Hps in Hl. unfold wp, bind, modifyNi, addSupport, ret. simpl. split; [done|].
    intros q Hq. rewrite lookup_insert_ne; congruence.
Qed.

Lemma markGood_last i j mg p w :
  Layer p = j → j < i →
  wp (markGood i j mg p)
     (λ mg' w', tSupport (ni w') = tSupport (ni w)
                ∧ ((mg' = mg ∧ tGood (ni w') = tGood (ni w))
                   ∨ (mg' = j ∧ tGood (ni w') !! j = Some p ∧ majority (ni w) i p = true)))
     (λ _, False) w.
Proof.
  intros Hj Hlt. unfold markGood. apply wp_bind. unfold wp at 1, getNi.
  destruct (bool_decide _ && majority (ni w) i p) eqn:Hc.
  - apply andb_true_iff in Hc as [_ Hm].
    unfold wp, bind, modifyNi, ret. simpl. split; [done|]. right.
    rewrite Hj, lookup_insert_eq. split; [|done].
    destruct (j <? i) eqn:Hcmp; [done|]. apply Z.ltb_ge in Hcmp. lia.
  - unfold wp, ret. split; [done|]. by left.
Qed.

Section LastMarked.
Variable rangeOrder : nat → ∀ A : Type, list A → list A.
Hypothesis rangeOrder_valid : validOrder rangeOrder.

(** One layer of the scan. *)
Lemma scanLayer_spec i bs j mg w0 :
  frontier_wf (ni w0) → Forall votes_wf bs → j < i →
  wp (sUpdated <- foldM (voteOnLayer j) bs ∅ ;;
      ps <- rangeOver rangeOrder (elements sUpdated) ;;
      foldM (markGood i j) ps mg)
     (λ mg' w3, frontier_wf (ni w3) ∧ pBase (ni w3) = pBase (ni w0)
                ∧ LayerSize (ni w3) = LayerSize (ni w0)
                ∧ (∀ q, Layer q ≠ j → tSupport (ni w3) !! q = tSupport (ni w0) !! q)
                ∧ (∀ L, L ≠ j → tGood (ni w3) !! L = tGood (ni w0) !! L)
                ∧ ((mg' = mg ∧ tGood (ni w3) = tGood (ni w0))
                   ∨ (mg' = j ∧ ∃ p, tGood (ni w3) !! j = Some p ∧ Layer p = j
                                     ∧ majority (ni w3) i p = true)))
     (λ _, True) w0.
Proof.
  intros Hwf0 Hbs Hlt. apply wp_bind.
  eapply wp_mono;
    [apply (wp_foldM _ (λ sU w', (core (ni w') = core (ni w0)
                                   ∧ LayerSize (ni w') = LayerSize (ni w0)
                                   ∧ ∀ q, Layer q ≠ j →
                                          tSupport (ni w') !! q = tSupport (ni w0) !! q)
                                  ∧ ∀ p, p ∈ sU → Layer p = j)
              (λ _, True))| |done].
  - split; [done|]. intros p Hp. by apply not_elem_of_empty in Hp.
  - intros sU block w1 Hblock [(Hc1 & Hs1 & Hsup1) HsU].
    assert (Hvb : votes_wf block) by (by eapply (proj1 (Forall_forall _ _) Hbs)).
    assert (Hwf1 : frontier_wf (ni w1)) by exact (frontier_wf_core _ _ Hc1 Hwf0).
    eapply wp_mono;
      [apply (wp_conj _ _ _ _ _ _ (voteOnLayer_spec j sU block w1 Hvb Hwf1 HsU)
                (voteOnLayer_support j sU block w1 Hvb Hwf1))| |done].
    intros sU' w2 [[Hc2 HsU'] [Hs2 Hsup2]]. split; [|done].
    split; [congruence|]. split; [congruence|].
    intros q Hq. rewrite Hsup2 by done. by apply Hsup1.
  - intros sU w1 [(Hc1 & Hs1 & Hsup1) HsU]. apply wp_bind. unfold wp at 1, rangeOver.
    assert (Hps : ∀ p, p ∈ rangeOrder (tick w1) votingPattern (elements sU) → Layer p = j).
    { intros p Hp. rewrite (rangeOrder_valid _ _ _) in Hp. apply elem_of_elements in Hp. auto. }
    assert (Hwf1 : frontier_wf (ni w1)) by exact (frontier_wf_core _ _ Hc1 Hwf0).
    assert (Hpb1 : pBase (ni w1) = pBase (ni w0) ∧ tGood (ni w1) = tGood (ni w0)).
    { unfold core in Hc1. by injection Hc1 as -> -> _. }
    destruct Hpb1 as [Hpb1 Hg1].
    eapply wp_mono;
      [apply (wp_foldM _
                (λ mg' w', frontier_wf (ni w') ∧ pBase (ni w') = pBase (ni w0)
                   ∧ LayerSize (ni w') = LayerSize (ni w0)
                   ∧ tSupport (ni w') = tSupport (ni w1)
                   ∧ (∀ L, L ≠ j → tGood (ni w') !! L = tGood (ni w0) !! L)
                   ∧ ((mg' = mg ∧ tGood (ni w') = tGood (ni w0))
                      ∨ (mg' = j ∧ ∃ p, tGood (ni w') !! j = Some p ∧ Layer p = j
                                        ∧ majority (ni w') i p = true)))
                (λ _, False))| |done].
    + simpl. rewrite Hg1. split_and!; try done. by left.
    + intros mg' p w2 Hp (Hwf2 & Hpb2 & Hs2 & Hsup2 & Hg2 & Hlast).
      eapply wp_mono;
        [apply (wp_conj _ _ _ _ _ _
                  (wp_conj _ _ _ _ _ _ (markGood_spec i j mg' p w2 (Hps p Hp) Hwf2)
                     (markGood_scan i j mg' p w2 (Hps p Hp)))
                  (markGood_last i j mg' p w2 (Hps p Hp) Hlt))| |by intros ? [[? ?] ?]].
      intros mg'' w3 [[(Hwf3 & Hpb3 & _) (_ & Hs3 & Hg3)] [Hsup3 Hcase]].
      split; [done|]. split; [congruence|]. split; [congruence|]. split; [congruence|].
      split; [intros L HL; rewrite Hg3 by done; by apply Hg2|].
      destruct Hcase as [[-> Hsame]|(-> & Hp3 & Hm)].
      * destruct Hlast as [[-> Hsame0]|(-> & q & Hq & Hlq & Hmq)].
        -- left. split; [done|congruence].
        -- right. split; [done|]. exists q. rewrite Hsame. split; [done|]. split; [done|].
           rewrite <- Hmq. apply majority_same; congruence.
      * right. split; [done|]. exists p. split; [done|]. split; [by apply Hps|].
        rewrite <- Hm. apply majority_same; congruence.
    + intros mg' w2 (Hwf2 & Hpb2 & Hs2 & Hsup2 & Hg2 & Hlast).
      split_and!; try done. intros q Hq. rewrite Hsup2. by apply Hsup1.
Qed.

(** The scan over the layers [lo, lo+1, ..., lo+n-1]. *)
Lemma scanLayers_spec i bs w n : ∀ lo mg w0,
  Forall votes_wf bs → startLayer (ni w) i ≤ lo → lo + Z.of_nat n ≤ i →
  frontier_wf (ni w0) → pBase (ni w0) = pBase (ni w) →
  (∀ L, lo ≤ L → tGood (ni w0) !! L = tGood (ni w) !! L) →
  lastMarked i w mg w0 → (mg = Layer (pBase (ni w)) ∨ mg < lo) →
  wp (foldM (λ minGood j,
        sUpdated <- foldM (voteOnLayer j) bs ∅ ;;
        ps <- rangeOver rangeOrder (elements sUpdated) ;;
        foldM (markGood i j) ps minGood) (seqZ lo (Z.of_nat n)) mg)
     (λ mg' w', lastMarked i w mg' w') (λ _, True) w0.
Proof.
  induction n as [|n IH]; intros lo mg w0 Hbs Hlo Hhi Hwf0 Hpb0 Habove Hlast Hmg.
  { done. }
  rewrite seqZ_cons by lia. simpl foldM. apply wp_bind.
  eapply wp_mono; [apply (scanLayer_spec i bs lo mg w0 Hwf0 Hbs); lia| |done].
  intros mg' w3 (Hwf3 & Hpb3 & Hs3 & Hsup3 & Hg3 & Hcase).
  replace (Z.pred (Z.of_nat (S n))) with (Z.of_nat n) by lia.
  replace (Z.succ lo) with (lo + 1) by lia.
  assert (Habove3 : ∀ L, lo + 1 ≤ L → tGood (ni w3) !! L = tGood (ni w) !! L).
  { intros L HL. rewrite Hg3 by lia. apply Habove. lia. }
  apply IH; try done; try lia; try congruence.
  destruct Hcase as [[-> Hsame]|(-> & p & Hp & Hlp & Hm)].
  - destruct Hlast as [[-> Hsame0]|(Hrange & (q & Hq & Hlq & Hmq) & Hhigher)].
    + left. split; [done|congruence].
    + right. split; [done|]. split.
      * exists q. rewrite Hsame. split; [done|]. split; [done|].
        rewrite <- Hmq. apply majority_same; [|done].
        apply Hsup3. destruct Hmg as [Heq|Hlt]; [|lia].
        pose proof (startLayer_above (ni w) i) as Hst.
        destruct Hwf0 as (_ & _ & Hb). rewrite Hpb0 in Hb. specialize (Hst Hb). lia.
      * intros L HL. rewrite Hsame. by apply Hhigher.
  - right. split; [lia|]. split; [by exists p|].
    intros L HL. apply Habove3. lia.
Qed.

Lemma findMinimalGoodLayer_last i bs w :
  frontier_wf (ni w) → Forall votes_wf bs →
  wp (findMinimalGoodLayer rangeOrder i bs) (λ l w', lastMarked i w l w') (λ _, True) w.
Proof.
  intros Hwf Hbs. unfold findMinimalGoodLayer. apply wp_bind. unfold wp at 1, getNi.
  unfold layersBelow.
  destruct (decide (i - startLayer (ni w) i ≤ 0)) as [Hempty|Hscan].
  - rewrite seqZ_nil by done. unfold wp. simpl. by left.
  - replace (i - startLayer (ni w) i) with (Z.of_nat (Z.to_nat (i - startLayer (ni w) i)))
      by lia.
    apply scanLayers_spec; try done; try lia; by left.
Qed.
End LastMarked.

(** X13.  Despite its name, [findMinimalGoodLayer] returns the highest layer
    for which it has written a good pattern during the call, or the layer
    of the frontier when it has written none: the pattern it wrote for the
    returned layer passes the support test, and the good patterns of the
    layers above are as before. *)
Theorem findMinimalGoodLayer_returns_last_marked rangeOrder i bs w l w' :
  validOrder rangeOrder → frontier_wf (ni w) → Forall votes_wf bs →
  findMinimalGoodLayer rangeOrder i bs w = Ok l w' →
  (l = Layer (pBase (ni w)) ∧ tGood (ni w') = tGood (ni w))
  ∨ (startLayer (ni w) i ≤ l < i
     ∧ (∃ p, tGood (ni w') !! l = Some p ∧ Layer p = l ∧ majority (ni w') i p = true)
     ∧ ∀ L, l < L → tGood (ni w') !! L = tGood (ni w) !! L).
Proof.
  intros Hvalid Hwf Hbs Hrun.
  exact (wp_Ok _ _ _ _ _ _ (findMinimalGoodLayer_last rangeOrder Hvalid i bs w Hwf Hbs) Hrun).
Qed.

(** * Traversals that return *)

Lemma pushChild_grows layer block set rest edges :
  let st := foldl (pushChild layer block) (set, rest) edges in
  (∀ x, x ∈ rest → x ∈ st.2)
  ∧ (∀ x, x ∈ st.1 → x ∈ set ∨ x ∈ st.2)
  ∧ (layer < nbLayer block → ∀ c, c ∈ edges → c ∈ st.1).
Proof.
  intros st. subst st. destruct (decide (layer < nbLayer block)) as [Hl|Hl].
  - destruct (pushChild_above layer block set rest edges Hl) as (new & -> & _ & Hnew).
    simpl. split_and!.
    + intros x Hx. apply elem_of_app. by left.
    + intros x [Hx|Hx]%elem_of_union; [by left|]. right.
      apply elem_of_app. right. by apply elem_of_list_to_set in Hx.
    + intros _ c Hc. apply elem_of_union. destruct (decide (c ∈ set)); [by left|].
      right. apply elem_of_list_to_set, Hnew. done.
  - rewrite pushChild_below by done. simpl. split_and!; auto. done.
Qed.

(** A traversal that reaches its end has handed every queued block to
    the visitor, has found every one of them in the store, and has queued
    or found queued every child it had to descend to. *)
Lemma bfsTrace_closed fuel bs L : ∀ queue set cnt cnt',
  (bfsTrace fuel bs L queue set cnt).2 = inr cnt' →
  (∀ x, x ∈ queue → x ∈ (bfsTrace fuel bs L queue set cnt).1.*1)
  ∧ (∀ a nb, (a, nb) ∈ (bfsTrace fuel bs L queue set cnt).1 → bs !! a = Some nb)
  ∧ (∀ a nb c, (a, nb) ∈ (bfsTrace fuel bs L queue set cnt).1 → L < nbLayer nb →
               c ∈ ViewEdges (nbBlock nb) →
               c ∈ set ∨ c ∈ (bfsTrace fuel bs L queue set cnt).1.*1).
Proof.
  induction fuel as [|fuel IH]; intros queue set cnt cnt' Hend;
    destruct queue as [|a rest]; simpl in *; try discriminate Hend.
  - split_and!; [intros ? H|intros ?? H|intros ??? H]; by apply elem_of_nil in H.
  - split_and!; [intros ? H|intros ?? H|intros ??? H]; by apply elem_of_nil in H.
  - destruct (bs !! a) as [block|] eqn:Hb; [|discriminate Hend]. simpl in *.
    destruct (pushChild_grows L block set rest (ViewEdges (nbBlock block)))
      as (Hrest & Hset & Hedges).
    destruct (IH _ _ _ _ Hend) as (Hq & Hk & Hc).
    split_and!.
    + intros x [->|Hx]%elem_of_cons; [left|]. right. by apply Hq, Hrest.
    + intros x nb [[= -> ->]|Hx]%elem_of_cons; [done|by apply Hk].
    + intros x nb c [[= -> ->]|Hx]%elem_of_cons Hl Hin.
      * destruct (Hset c (Hedges Hl c Hin)) as [?|Hc2]; [by left|].
        right. right. by apply Hq.
      * destruct (Hc x nb c Hx Hl Hin) as [Hc1|Hc2]; [|by right; right].
        destruct (Hset c Hc1) as [?|Hc3]; [by left|]. right. right. by apply Hq.
Qed.

Lemma bfsTrace_covers_view fuel bs seeds L cnt' :
  (bfsTrace fuel bs L (reverse seeds) ∅ ∅).2 = inr cnt' →
  ∀ a, inView bs seeds L a →
       ∃ nb, (a, nb) ∈ (bfsTrace fuel bs L (reverse seeds) ∅ ∅).1 ∧ bs !! a = Some nb.
Proof.
  intros Hend. destruct (bfsTrace_closed fuel bs L _ _ _ _ Hend) as (Hq & Hk & Hc).
  intros a Ha. induction Ha as [a Ha|a nb x Ha IH Hb Hl Hx].
  - assert (Hin : a ∈ (bfsTrace fuel bs L (reverse seeds) ∅ ∅).1.*1)
      by (apply Hq; by apply elem_of_reverse).
    apply list_elem_of_fmap in Hin as ([a' nb'] & -> & Hin). eauto.
  - destruct IH as (nb' & Hin & Hb'). rewrite Hb in Hb'. injection Hb' as <-.
    destruct (Hc _ _ x Hin Hl Hx) as [Habs|Hin'].
    + by apply not_elem_of_empty in Habs.
    + apply list_elem_of_fmap in Hin' as ([a' nb'] & -> & Hin'). eauto.
Qed.

(** X16.  [forBlockInView] returns only if every block in the view is stored:
    as soon as it takes from the queue an identifier that is not stored it
    dereferences nil.  This holds for every list of seeds, repetitions
    included, and for every visitor that leaves the block store alone. *)
Theorem forBlockInView_returns_only_on_stored_view {C} (foo : ninjaBlock → C → M C)
    seeds L c w r w' :
  (∀ b c, keeps blocks (foo b c)) →
  forBlockInView seeds L foo c w = Ok r w' →
  ∀ a, inView (blocks (ni w)) seeds L a → is_Some (blocks (ni w) !! a).
Proof.
  intros Hfoo Hrun. unfold forBlockInView, bind at 1, getNi at 1 in Hrun.
  rewrite bfsLoop_trace in Hrun by done. unfold bind in Hrun.
  set (fuel := (length seeds + size (edgeTargets (blocks (ni w))))%nat) in *.
  destruct (visitAll foo (bfsTrace fuel (blocks (ni w)) L (reverse seeds) ∅ ∅).1 c w)
    as [c' w1|e w1]; [|discriminate Hrun].
  destruct ((bfsTrace fuel (blocks (ni w)) L (reverse seeds) ∅ ∅).2) as [e|cnt'] eqn:Hend;
    [discriminate Hrun|].
  intros a Ha.
  destruct (bfsTrace_covers_view fuel (blocks (ni w)) seeds L cnt' Hend a Ha) as (nb & _ & Hb).
  by exists nb.
Qed.

(** * Traversals end *)

Lemma bfsLoop_fuel_irrelevant {C} (foo : ninjaBlock → C → M C) fuel extra layer :
  ∀ queue set cnt c w,
  (∀ b c, keeps blocks (foo b c)) →
  set ⊆ edgeTargets (blocks (ni w)) →
  (length queue + size (edgeTargets (blocks (ni w)) ∖ set) ≤ fuel)%nat →
  bfsLoop (fuel + extra) layer foo queue set cnt c w
  = bfsLoop fuel layer foo queue set cnt c w.
Proof.
  induction fuel as [|fuel IH]; intros queue set cnt c w Hkeep Hset Hfuel;
    destruct queue as [|a rest].
  - by destruct extra.
  - simpl in Hfuel. lia.
  - done.
  - simpl. unfold bind at 1 3, getNi at 1 2.
    destruct (blocks (ni w) !! a) as [block|] eqn:Hb; [|done].
    unfold bind. pose proof (Hkeep block c w) as Hk.
    destruct (foo block c w) as [c' w1|e w1]; [|done]. simpl in Hk.
    destruct (pushChild_measure (blocks (ni w)) layer block a set rest Hb Hset)
      as [Hset' Hmeasure].
    apply IH; [done|by rewrite Hk|]. rewrite Hk. simpl in Hfuel. lia.
Qed.

(** X17.  The loop of [forBlockInView] ends: a child is queued at most once, so
    the loop runs at most once per seed and once per identifier that
    occurs as a view edge in the store.  With a visitor that leaves the
    block store alone, the traversal never stops for lack of rounds, and
    allowing it more rounds changes nothing. *)
Theorem forBlockInView_ends {C} (foo : ninjaBlock → C → M C) seeds L c w :
  (∀ b c, keeps blocks (foo b c)) → (∀ b c, fuelSafe (foo b c)) →
  (∀ w', forBlockInView seeds L foo c w ≠ Panic OutOfFuel w')
  ∧ ∀ extra,
      bfsLoop (length seeds + size (edgeTargets (blocks (ni w))) + extra) L foo
        (reverse seeds) ∅ ∅ c w
      = forBlockInView seeds L foo c w.
Proof.
  intros Hkeep Hsafe. split.
  - intros w'. by apply fuelSafe_forBlockInView.
  - intros extra. unfold forBlockInView, bind, getNi.
    apply bfsLoop_fuel_irrelevant; [done|apply empty_subseteq|].
    rewrite length_reverse, difference_empty_L. lia.
Qed.

(** * The frontier stays below the layer of the call *)

Section Below.
Variable rangeOrder : nat → ∀ A : Type, list A → list A.
Hypothesis rangeOrder_valid : validOrder rangeOrder.

Lemma keeps_pBase_voteLayer p cnt flag i : keeps pBase (voteLayer p cnt flag i).
Proof.
  unfold voteLayer, globalOpinion.
  repeat first [ apply keeps_sumNodesInView | apply keeps_nonNil | apply keeps_writeTally
               | keeps_step ]; done.
Qed.

Lemma tallyGood_moves j p w :
  wp (tallyGood rangeOrder j p)
     (λ _ w', pBase (ni w') = pBase (ni w) ∨ pBase (ni w') = p)
     (λ w', pBase (ni w') = pBase (ni w) ∨ pBase (ni w') = p) w.
Proof.
  cut (∀ w0, pBase (ni w0) = pBase (ni w) →
         wp (tallyGood rangeOrder j p)
            (λ _ w', pBase (ni w') = pBase (ni w) ∨ pBase (ni w') = p)
            (λ w', pBase (ni w') = pBase (ni w) ∨ pBase (ni w') = p) w0);
    [by intros H; apply H|].
  intros w0 Hsame. unfold tallyGood.
  repeat (apply wp_bind;
    eapply wp_mono;
      [apply (wp_keeps_eq pBase);
         repeat first [ apply keeps_rangeOver | apply keeps_ensureTally
                      | apply keeps_writeTally | apply keeps_updatePatternTally
                      | apply keeps_forBlockInView; intros ? ?
                      | apply keeps_addPatternVote | apply keeps_updateCorrectionVectors
                      | apply keeps_foldLayersUpTo; intros ? ?
                      | apply keeps_pBase_voteLayer
                      | keeps_step ]; done
      |intros ? ? Hsame'; rewrite Hsame in Hsame'; clear Hsame; rename Hsame' into Hsame
      |intros ? Hsame'; rewrite Hsame in Hsame'; by left]).
  destruct (_ && _).
  - unfold wp, modifyNi. simpl. by right.
  - unfold wp, ret. by left.
Qed.

Lemma UpdateTables_below B i w :
  frontier_wf (ni w) → 0 ≤ i ≤ maxUint32 →
  wp (UpdateTables rangeOrder B i)
     (λ _ w', pBase (ni w') = pBase (ni w) ∨ Layer (pBase (ni w')) < i)
     (λ w', pBase (ni w') = pBase (ni w) ∨ Layer (pBase (ni w')) < i) w.
Proof.
  intros Hwf Hi. set (L0 := Layer (pBase (ni w))).
  assert (HL00 : 0 ≤ L0) by (destruct Hwf as (_ & _ & ?); unfold L0; lia).
  unfold UpdateTables. apply wp_bind.
  eapply wp_mono;
    [apply (insertBlocks_spec rangeOrder B i w
              (λ s, above L0 s ∧ pBase s = pBase (ni w)))| |].
  { intros s s' Hc [Hab Hpb]. split; [by eapply above_core|].
    unfold core in Hc. by injection Hc as -> _ _. }
  { split; [|done]. split; [done|]. unfold L0. lia. }
  2: { intros w0 [_ ?]. by left. }
  intros bs w0 [[[Hwf0 HL0] Hpb0] Hbs].
  destruct (decide (i = 0)); [by left|]. apply wp_bind.
  eapply wp_mono;
    [apply (findMinimalGoodLayer_spec rangeOrder rangeOrder_valid i bs w0 Hwf0 Hbs)| |].
  2: { intros w1 [_ Hpb]. left. congruence. }
  intros l w1 (Hwf1 & Hpb1 & Hl). apply wp_bind.
  eapply wp_mono;
    [apply (wp_forEach _ (λ w', above L0 (ni w')
                               ∧ (pBase (ni w') = pBase (ni w) ∨ Layer (pBase (ni w')) < i))
              (λ w', pBase (ni w') = pBase (ni w) ∨ Layer (pBase (ni w')) < i))| |done].
  - split; [|left; congruence]. split; [done|]. rewrite Hpb1. done.
  - intros j w2 Hj [Hab2 Hcase]. apply elem_of_layersBelow in Hj.
    apply wp_bind. unfold wp at 1, getNi.
    destruct (tGood (ni w2) !! j) as [p|] eqn:Hg; [|done].
    assert (Hp : Layer p = j) by (destruct Hab2 as [(Hgood & _) _]; by apply Hgood).
    eapply wp_mono;
      [apply (wp_conj _ _ _ _ _ _
                (tallyGood_spec rangeOrder L0 j p w2 Hab2 Hp ltac:(lia) ltac:(lia))
                (tallyGood_moves j p w2))| |].
    + intros _ w3 [Hab3 [Hsame| ->]]; (split; [done|]); [|right; lia].
      rewrite Hsame. done.
    + intros w3 [_ [Hsame| ->]]; [|right; lia]. rewrite Hsame. done.
  - intros ? w2 [_ Hcase]. unfold wp, bind, getNi, ret. done.
Qed.
End Below.

(** * The votes of one layer (lines 355-383) *)

Lemma globalOpinion_shared p b w :
  ∀ r w', globalOpinion p b w = Ok r w' →
    w' = w ∧ match r with
             | Some v => isShared v ∧ is_Some (lookup2 (tTally (ni w)) p (nbID b))
             | None => lookup2 (tTally (ni w)) p (nbID b) = None
             end.
Proof.
  intros r w'. unfold globalOpinion, bind, getNi, load, ret, isShared.
  destruct (lookup2 (tTally (ni w)) p (nbID b)) as [a|] eqn:Ha.
  - repeat case_match; intros [= <- <-]; (split; [done|split; [auto|by eexists]]).
  - intros [= <- <-]. done.
Qed.

Lemma fillTally_against p cnt i bid w :
  wp (match lookup2 (tTally (ni w)) p bid with
      | None =>
          t <- sumNodesInView cnt i (Layer p) ;;
          a <- nonNil t ;;
          writeTally p bid a
      | Some _ => ret tt
      end)
     (λ _ w', blocks (ni w') = blocks (ni w) ∧ tVote (ni w') = tVote (ni w)
              ∧ tPatSupport (ni w') = tPatSupport (ni w)
              ∧ is_Some (lookup2 (tTally (ni w')) p bid)
              ∧ (lookup2 (tTally (ni w)) p bid = None →
                 lookup2 (tTally (ni w')) p bid = Some Against)
              ∧ (∀ x a, lookup2 (tTally (ni w)) p x = Some a →
                        lookup2 (tTally (ni w')) p x = Some a)
              ∧ ∀ x, x ≠ bid → lookup2 (tTally (ni w')) p x = lookup2 (tTally (ni w)) p x)
     (λ _, True) w.
Proof.
  destruct (lookup2 (tTally (ni w)) p bid) as [a|] eqn:Hl.
  - unfold wp, ret. rewrite Hl. split_and!; done.
  - unfold wp, sumNodesInView, Multiplay, nonNil, writeTally, bind, load, store, ret,
      getNi, modifyNi, fail. simpl.
    destruct (tTally (ni w) !! p) as [m|] eqn:Hm; [|done]. simpl.
    assert (Hm' : m !! bid = None).
    { unfold lookup2 in Hl. rewrite Hm in Hl. done. }
    unfold lookup2. rewrite lookup_insert_eq. simpl. rewrite lookup_insert_eq.
    split_and!; try done.
    + intros x a. rewrite Hm. simpl. intros Hx. rewrite lookup_insert_ne; [done|].
      intros <-. congruence.
    + intros x Hx. rewrite Hm. simpl. by rewrite lookup_insert_ne.
Qed.

Section VoteLayer.
Variable p : votingPattern.
Variable cnt : gmap Z Z.
Variable i : Z.

(** The body of the loop of lines 358-376. *)
Lemma voteLayer_fold layer : ∀ acc w r w',
  blocks_keyed (ni w) →
  foldM (λ (acc : bool * list Z) bid,
           s1 <- getNi ;;
           (match lookup2 (tTally s1) p bid with
            | None =>
                t <- sumNodesInView cnt i (Layer p) ;;
                a <- nonNil t ;;
                writeTally p bid a
            | Some _ => ret tt
            end) ;;;
           s2 <- getNi ;;
           match blocks s2 !! bid with
           | None => fail NilDeref
           | Some b =>
               vote <- globalOpinion p b ;;
               match vote with
               | Some v =>
                   s3 <- getNi ;;
                   modifyNi (set_tVote
                     (<[p := <[nbID b := v]> (default ∅ (tVote s3 !! p))]> (tVote s3))) ;;;
                   ret (acc.1, acc.2 ++ [bid])
               | None => ret (false, acc.2)
               end
           end) layer acc w = Ok r w' →
  r = (acc.1, acc.2 ++ layer)
  ∧ blocks (ni w') = blocks (ni w) ∧ tPatSupport (ni w') = tPatSupport (ni w)
  ∧ (∀ bid, (∃ a, lookup2 (tVote (ni w)) p bid = Some a ∧ isShared a) ∨ bid ∈ layer →
            ∃ a, lookup2 (tVote (ni w')) p bid = Some a ∧ isShared a)
  ∧ (∀ bid, lookup2 (tTally (ni w)) p bid = Some Against
            ∨ (bid ∈ layer ∧ lookup2 (tTally (ni w)) p bid = None) →
            lookup2 (tTally (ni w')) p bid = Some Against).
Proof.
  induction layer as [|bid layer IH]; intros acc w r w' Hkeyed Hrun.
  { simpl in Hrun. injection Hrun as <- <-. rewrite app_nil_r. destruct acc.
    split_and!; try done.
    - intros bid [?|Hin]; [done|]. by apply elem_of_nil in Hin.
    - intros bid [?|[Hin _]]; [done|]. by apply elem_of_nil in Hin. }
  simpl in Hrun. unfold bind at 1 in Hrun. unfold bind at 1, getNi at 1 in Hrun.
  unfold bind at 1 in Hrun.
  pose proof (fillTally_against p cnt i bid w) as Hfill. unfold wp in Hfill.
  destruct (match lookup2 (tTally (ni w)) p bid with
            | Some _ => ret ()
            | None => _
            end w) as [[] w1|e w1]; [|discriminate Hrun].
  destruct Hfill as (Hb1 & Hv1 & Hs1 & Hfound & Hagainst & Hkept & Hother).
  unfold bind at 1, getNi at 1 in Hrun.
  destruct (blocks (ni w1) !! bid) as [b|] eqn:Hb; [|discriminate Hrun].
  assert (Hid : nbID b = bid) by (apply Hkeyed; congruence).
  unfold bind at 1 in Hrun.
  destruct (globalOpinion p b w1) as [vote w2|e w2] eqn:Hgo; [|discriminate Hrun].
  apply globalOpinion_shared in Hgo as [-> Hvote].
  destruct vote as [v|].
  2: { rewrite Hid in Hvote. destruct Hfound as [? ?]. congruence. }
  destruct Hvote as [Hshared _].
  unfold bind at 1, getNi at 1 in Hrun. unfold bind at 1, modifyNi at 1 in Hrun.
  unfold ret at 1 in Hrun. simpl in Hrun.
  apply IH in Hrun as (-> & Hb' & Hs' & Hvotes & Htally).
  2: { intros x nb Hx. simpl in Hx. apply Hkeyed. congruence. }
  simpl in *. rewrite <- app_assoc. simpl.
  split; [done|]. split; [congruence|]. split; [congruence|]. split.
  - intros x Hx. apply Hvotes. unfold lookup2. rewrite lookup_insert_eq. simpl.
    rewrite Hid. destruct (decide (x = bid)) as [->|Hne].
    + left. rewrite lookup_insert_eq. eauto.
    + rewrite lookup_insert_ne by done.
      destruct Hx as [(a & Ha & Hsa)|[->|Hin]%elem_of_cons]; [|done|by right].
      left. exists a. split; [|done]. rewrite <- Hv1 in Ha. unfold lookup2 in Ha.
      destruct (tVote (ni w1) !! p); [done|]. simpl in Ha. discriminate Ha.
  - intros x Hx. apply Htally. destruct (decide (x = bid)) as [->|Hne].
    + left. destruct Hx as [Hx|[_ Hx]]; [by apply Hkept|by apply Hagainst].
    + rewrite (Hother x Hne). destruct Hx as [?|[[->|Hin]%elem_of_cons Hnone]]; [by left|done|].
      right. done.
Qed.
End VoteLayer.

(** X19.  When the pass over one layer returns, every block of the layer has
    been given an opinion, and that opinion is one of the three shared
    vectors themselves; a block that had no tally under the pattern has
    been given the shared vector [Against] itself as its tally; the flag
    is as it was; and the pattern recorded as the one the pattern supports
    in that layer is the one made of all the blocks of the layer. *)
Theorem voteLayer_votes_on_whole_layer p cnt flag i w flag' w' layer :
  blocks_keyed (ni w) → layerBlocks (ni w) !! i = Some layer →
  voteLayer p cnt flag i w = Ok flag' w' →
  flag' = flag
  ∧ lookup2 (tPatSupport (ni w')) p i = Some (mkPattern (getId layer) i)
  ∧ ∀ bid, bid ∈ layer →
      (∃ a, lookup2 (tVote (ni w')) p bid = Some a
            ∧ (a = Support ∨ a = Against ∨ a = Abstain))
      ∧ (lookup2 (tTally (ni w)) p bid = None →
         lookup2 (tTally (ni w')) p bid = Some Against).
Proof.
  intros Hkeyed Hlayer Hrun. unfold voteLayer, bind at 1, getNi at 1 in Hrun.
  rewrite Hlayer in Hrun. unfold bind at 1 in Hrun.
  match type of Hrun with
  | match ?m with _ => _ end = _ => destruct m as [r w1|e w1] eqn:Hfold
  end; [|discriminate Hrun].
  apply voteLayer_fold in Hfold as (-> & Hb & Hs & Hvotes & Htally); [|done].
  unfold bind, getNi, modifyNi, ret in Hrun. simpl in Hrun. injection Hrun as <- <-.
  split; [done|]. split.
  - unfold lookup2. simpl. rewrite lookup_insert_eq. simpl. by rewrite lookup_insert_eq.
  - intros bid Hin. simpl. split.
    + apply Hvotes. by right.
    + intros Hnone. apply Htally. right. done.
Qed.

(** * The visitor of updatePatternTally *)

Lemma keeps_tEffective_countEffective g b c : keeps tEffective (countEffective g b c).
Proof. by apply keeps_countEffective. Qed.

Lemma visitAll_countEffective g trace : ∀ c w c' w',
  visitAll (countEffective g) trace c w = Ok c' w' →
  ∀ a nb, (a, nb) ∈ trace → ∃ e, tEffective (ni w) !! nbID nb = Some (Some e).
Proof.
  induction trace as [|[a0 nb0] trace IH]; intros c w c' w' Hrun a nb Hin.
  { by apply elem_of_nil in Hin. }
  unfold visitAll in Hrun. simpl in Hrun. unfold bind at 1 in Hrun.
  pose proof (keeps_tEffective_countEffective g nb0 c w) as Hk.
  destruct (countEffective g nb0 c w) as [c1 w1|e w1] eqn:Hstep; [|discriminate Hrun].
  simpl in Hk. apply elem_of_cons in Hin as [[= -> ->]|Hin].
  - unfold countEffective, bind, getNi in Hstep.
    destruct (tEffective (ni w) !! nbID nb0) as [[e|]|]; [eauto|discriminate Hstep..].
  - rewrite <- Hk. by eapply (IH c1 w1 c' w').
Qed.

(** X20.  [updatePatternTally] returns only if every block in the view of the
    pattern, down to the layer of the good pattern, is stored and has an
    effective pattern that is not nil: its visitor dereferences the
    effective pattern of each block it is handed. *)
Theorem updatePatternTally_needs_effective_patterns g p w w' :
  updatePatternTally g p w = Ok tt w' →
  ∀ a, inView (blocks (ni w)) (default [] (tPattern (ni w) !! p)) (Layer g) a →
       ∃ nb e, blocks (ni w) !! a = Some nb
               ∧ tEffective (ni w) !! nbID nb = Some (Some e).
Proof.
  intros Hrun. unfold updatePatternTally, bind at 1, alloc at 1 in Hrun.
  unfold bind at 1, getNi at 1 in Hrun. simpl in Hrun. unfold bind at 1 in Hrun.
  match type of Hrun with
  | match ?m with _ => _ end = _ => destruct m as [r w1|e w1] eqn:Hview
  end; [|discriminate Hrun].
  clear Hrun. unfold forBlockInView, bind at 1, getNi at 1 in Hview.
  rewrite bfsLoop_trace in Hview by (intros; by apply keeps_countEffective).
  simpl in Hview. unfold bind in Hview.
  set (seeds := default [] (tPattern (ni w) !! p)) in *.
  set (fuel := (length seeds + size (edgeTargets (blocks (ni w))))%nat) in *.
  destruct (visitAll (countEffective g)
              (bfsTrace fuel (blocks (ni w)) (Layer g) (reverse seeds) ∅ ∅).1 _ _)
    as [c' w2|e w2] eqn:Hvisit; [|discriminate Hview].
  destruct ((bfsTrace fuel (blocks (ni w)) (Layer g) (reverse seeds) ∅ ∅).2)
    as [e|cnt'] eqn:Hend; [discriminate Hview|].
  intros a Ha.
  destruct (bfsTrace_covers_view fuel (blocks (ni w)) seeds (Layer g) cnt' Hend a Ha)
    as (nb & Hin & Hb).
  destruct (visitAll_countEffective g _ _ _ _ _ Hvisit a nb Hin) as [e He].
  exists nb, e. done.
Qed.

(** * Worlds of the concrete runs *)

Lemma chain2_reachable : reachable listedOrder (after listedOrder chain2 (newWorld 1)).
Proof.
  apply (reachable_call listedOrder _ [block11] 1); [|vm_compute; split; discriminate].
  apply (reachable_call listedOrder _ [genesis10] 0); [|vm_compute; split; discriminate].
  apply reachable_new.
Qed.

Lemma chain3_reachable : reachable listedOrder (after listedOrder chain3 (newWorld 1)).
Proof.
  apply (reachable_call listedOrder _ [block12] 2); [|vm_compute; split; discriminate].
  exact chain2_reachable.
Qed.

(** * Vectors *)

Lemma UpdateTables_keeps_zero_components_witness :
  heap (newWorld 1) !! Abstain = Some (0, 0)
  ∧ ∃ v', heap (finalWorld (UpdateTables listedOrder [genesis10] 0 (newWorld 1))) !! Abstain
          = Some v'
          ∧ ((0, 0).1 = 0 → v'.1 = 0) ∧ ((0, 0).2 = 0 → v'.2 = 0).
Proof.
  split; [reflexivity|].
  apply (UpdateTables_keeps_zero_components listedOrder [genesis10] 0 (newWorld 1) Abstain (0, 0)).
  reflexivity.
Defined.

Lemma shared_vectors_keep_their_zeros_witness :
  reachable listedOrder (after listedOrder chain3 (newWorld 1))
  ∧ ∃ s a, heap (after listedOrder chain3 (newWorld 1)) !! Support = Some (s, 0)
           ∧ heap (after listedOrder chain3 (newWorld 1)) !! Against = Some (0, a)
           ∧ heap (after listedOrder chain3 (newWorld 1)) !! Abstain = Some (0, 0).
Proof.
  split; [exact chain3_reachable|].
  exact (shared_vectors_keep_their_zeros listedOrder _ chain3_reachable).
Defined.

(** * processBlock *)

Lemma processBlock_effective_is_highest_voted_layer_witness :
  validOrder listedOrder
  ∧ ∃ nb w',
      processBlock listedOrder twoLayerVoter (after listedOrder chain2 (newWorld 1)) = Ok nb w'
      ∧ ((BlockVotes twoLayerVoter = [] ∧ tEffective (ni w') !! Id twoLayerVoter = Some None
          ∧ nbVotes nb = ∅
          ∧ tEffectiveToBlocks (ni w')
            = tEffectiveToBlocks (ni (after listedOrder chain2 (newWorld 1))))
         ∨ ∃ L,
             votesInLayer (blocks (ni (after listedOrder chain2 (newWorld 1)))) L
               (BlockVotes twoLayerVoter) ≠ []
             ∧ (∀ bid v, bid ∈ BlockVotes twoLayerVoter →
                  blocks (ni (after listedOrder chain2 (newWorld 1))) !! bid = Some v →
                  nbLayer v ≤ L)
             ∧ tEffective (ni w') !! Id twoLayerVoter
               = Some (Some (mkPattern
                               (getId (votesInLayer
                                         (blocks (ni (after listedOrder chain2 (newWorld 1)))) L
                                         (BlockVotes twoLayerVoter))) L))
             ∧ tEffectiveToBlocks (ni w')
                 !! mkPattern
                      (getId (votesInLayer
                                (blocks (ni (after listedOrder chain2 (newWorld 1)))) L
                                (BlockVotes twoLayerVoter))) L
               = Some (default []
                         (tEffectiveToBlocks (ni (after listedOrder chain2 (newWorld 1)))
                            !! mkPattern
                                 (getId (votesInLayer
                                           (blocks (ni (after listedOrder chain2 (newWorld 1))))
                                           L (BlockVotes twoLayerVoter))) L)
                       ++ [Id twoLayerVoter])).
Proof.
  split; [apply listedOrder_valid|]. eexists _, _. split; [vm_compute; reflexivity|].
  apply (processBlock_effective_is_highest_voted_layer listedOrder twoLayerVoter
           (after listedOrder chain2 (newWorld 1))); [apply listedOrder_valid|].
  vm_compute. reflexivity.
Defined.

(** * Invariants of the tables *)

(** X7.  In every world an engine can reach, a registered pattern stands for
    a list of blocks that is not empty, is in ascending order, hashes to
    the identifier of the pattern, and names stored blocks only. *)
Theorem registered_patterns_hash_their_blocks rangeOrder w p l :
  validOrder rangeOrder → reachable rangeOrder w → tPattern (ni w) !! p = Some l →
  l ≠ [] ∧ Sorted Z.le l ∧ id p = getId l ∧ ∀ b, b ∈ l → is_Some (blocks (ni w) !! b).
Proof.
  intros Hvalid Hw Hl. by apply (reachable_patterns_wf rangeOrder w Hvalid Hw).
Qed.

Lemma registered_patterns_hash_their_blocks_witness :
  validOrder listedOrder
  ∧ reachable listedOrder (after listedOrder chain2 (newWorld 1))
  ∧ tPattern (ni (after listedOrder chain2 (newWorld 1))) !! pattern10 = Some [10]
  ∧ [10] ≠ [] ∧ Sorted Z.le [10] ∧ id pattern10 = getId [10]
  ∧ ∀ b, b ∈ [10] → is_Some (blocks (ni (after listedOrder chain2 (newWorld 1))) !! b).
Proof.
  assert (Hl : tPattern (ni (after listedOrder chain2 (newWorld 1))) !! pattern10 = Some [10])
    by (vm_compute; reflexivity).
  split; [apply listedOrder_valid|]. split; [exact chain2_reachable|]. split; [exact Hl|].
  exact (registered_patterns_hash_their_blocks listedOrder _ pattern10 [10]
           listedOrder_valid chain2_reachable Hl).
Defined.

(** X8.  In every world an engine can reach, the tables that index blocks
    name stored blocks only: the blocks listed for a layer and the blocks
    filed under an effective pattern are stored, the blocks with an entry
    for their effective pattern (nil or not) are exactly the stored blocks,
    and a block whose effective pattern is not nil is filed under that
    pattern, which is registered. *)
Theorem index_tables_name_stored_blocks rangeOrder w :
  reachable rangeOrder w →
  (∀ i l b, layerBlocks (ni w) !! i = Some l → b ∈ l → is_Some (blocks (ni w) !! b))
  ∧ (∀ p l b, tEffectiveToBlocks (ni w) !! p = Some l → b ∈ l → is_Some (blocks (ni w) !! b))
  ∧ (∀ b, is_Some (tEffective (ni w) !! b) ↔ is_Some (blocks (ni w) !! b))
  ∧ (∀ b p, tEffective (ni w) !! b = Some (Some p) →
       is_Some (tPattern (ni w) !! p)
       ∧ ∃ l, tEffectiveToBlocks (ni w) !! p = Some l ∧ b ∈ l).
Proof. intros Hw. exact (reachable_indexes_wf rangeOrder w Hw). Qed.

Lemma index_tables_name_stored_blocks_witness :
  reachable listedOrder (after listedOrder chain2 (newWorld 1))
  ∧ (∀ b, is_Some (tEffective (ni (after listedOrder chain2 (newWorld 1))) !! b)
          ↔ is_Some (blocks (ni (after listedOrder chain2 (newWorld 1))) !! b)).
Proof.
  split; [exact chain2_reachable|].
  exact (proj1 (proj2 (proj2 (index_tables_name_stored_blocks listedOrder _ chain2_reachable)))).
Defined.

(** * Insertion *)

Lemma UpdateTables_files_blocks_under_call_layer_witness :
  ∃ w', UpdateTables listedOrder [block12] 2 (after listedOrder chain2 (newWorld 1)) = Ok 1 w'
        ∧ layerBlocks (ni w')
          = if decide ([block12] = []) then layerBlocks (ni (after listedOrder chain2 (newWorld 1)))
            else <[2 := default [] (layerBlocks (ni (after listedOrder chain2 (newWorld 1))) !! 2)
                        ++ (Id <$> [block12])]>
                   (layerBlocks (ni (after listedOrder chain2 (newWorld 1)))).
Proof.
  eexists. split; [vm_compute; reflexivity|].
  apply (UpdateTables_files_blocks_under_call_layer listedOrder [block12] 2
           (after listedOrder chain2 (newWorld 1)) 1).
  vm_compute. reflexivity.
Defined.

Lemma UpdateTables_inserts_then_counts_witness :
  ∃ bs w1,
    insertBlocks listedOrder [block12] 2 (after listedOrder chain2 (newWorld 1)) = Ok bs w1
    ∧ heap w1 = heap (after listedOrder chain2 (newWorld 1))
    ∧ voteTables (ni w1) = voteTables (ni (after listedOrder chain2 (newWorld 1)))
    ∧ structure (ni (finalWorld (UpdateTables listedOrder [block12] 2
                                   (after listedOrder chain2 (newWorld 1)))))
      = structure (ni w1).
Proof.
  eexists _, _. split; [vm_compute; reflexivity|].
  eapply (UpdateTables_inserts_then_counts listedOrder [block12] 2
            (after listedOrder chain2 (newWorld 1))).
  vm_compute. reflexivity.
Defined.

Lemma UpdateTables_panics_on_block_without_votes_witness :
  validOrder listedOrder
  ∧ (∃ bs w1, insertBlocks listedOrder [silent12] 2 (after listedOrder chain2 (newWorld 1))
              = Ok bs w1)
  ∧ silent12 ∈ [silent12]
  ∧ (∀ b', b' ∈ [silent12] → Id b' = Id silent12 → BlockVotes b' = [])
  ∧ 2 ≠ 0
  ∧ startLayer (ni (after listedOrder chain2 (newWorld 1))) 2 < 2
  ∧ ∃ w2, UpdateTables listedOrder [silent12] 2 (after listedOrder chain2 (newWorld 1))
          = Panic NilDeref w2.
Proof.
  assert (Hins : ∃ bs w1,
            insertBlocks listedOrder [silent12] 2 (after listedOrder chain2 (newWorld 1))
            = Ok bs w1) by (eexists _, _; vm_compute; reflexivity).
  assert (Hin : silent12 ∈ [silent12]) by left.
  assert (Hvl : ∀ b', b' ∈ [silent12] → Id b' = Id silent12 → BlockVotes b' = []).
  { intros b' Hb' _. apply list_elem_of_singleton in Hb' as ->. reflexivity. }
  assert (Hne : 2 ≠ 0) by discriminate.
  assert (Hscan : startLayer (ni (after listedOrder chain2 (newWorld 1))) 2 < 2)
    by (vm_compute; reflexivity).
  split; [apply listedOrder_valid|]. split; [exact Hins|]. split; [exact Hin|].
  split; [exact Hvl|]. split; [exact Hne|]. split; [exact Hscan|].
  destruct Hins as (bs & w1 & Hins).
  exact (UpdateTables_panics_on_block_without_votes listedOrder listedOrder_valid
           [silent12] 2 _ bs w1 silent12 Hins Hin Hvl Hne Hscan).
Defined.

(** * The scan *)

Lemma findMinimalGoodLayer_returns_last_marked_witness :
  validOrder listedOrder
  ∧ frontier_wf (ni (after listedOrder chain2 (newWorld 1)))
  ∧ Forall votes_wf [stored12]
  ∧ ∃ w',
      findMinimalGoodLayer listedOrder 2 [stored12] (after listedOrder chain2 (newWorld 1))
      = Ok 1 w'
      ∧ ((1 = Layer (pBase (ni (after listedOrder chain2 (newWorld 1))))
          ∧ tGood (ni w') = tGood (ni (after listedOrder chain2 (newWorld 1))))
         ∨ (startLayer (ni (after listedOrder chain2 (newWorld 1))) 2 ≤ 1 < 2
            ∧ (∃ p, tGood (ni w') !! 1 = Some p ∧ Layer p = 1 ∧ majority (ni w') 2 p = true)
            ∧ ∀ L, 1 < L →
                tGood (ni w') !! L = tGood (ni (after listedOrder chain2 (newWorld 1))) !! L)).
Proof.
  assert (Hwf : frontier_wf (ni (after listedOrder chain2 (newWorld 1)))).
  { exact (reachable_frontier_wf listedOrder _ listedOrder_valid chain2_reachable). }
  assert (Hbs : Forall votes_wf [stored12]).
  { constructor; [|constructor]. intros j p Hp. unfold stored12 in Hp. simpl in Hp.
    apply lookup_singleton_Some in Hp as [<- <-]. reflexivity. }
  split; [apply listedOrder_valid|]. split; [exact Hwf|]. split; [exact Hbs|].
  eexists. split; [vm_compute; reflexivity|].
  apply (findMinimalGoodLayer_returns_last_marked listedOrder 2 [stored12]
           (after listedOrder chain2 (newWorld 1)) 1 _ listedOrder_valid Hwf Hbs).
  vm_compute. reflexivity.
Defined.

(** * The frontier *)

(** X14.  In every world an engine can reach, the frontier is the pattern the
    engine starts with, or it is a complete pattern and the good pattern
    of its own layer. *)
Theorem frontier_is_complete_and_good rangeOrder w :
  validOrder rangeOrder → reachable rangeOrder w →
  pBase (ni w) = mkPattern 0 0
  ∨ (pBase (ni w) ∈ tComplete (ni w)
     ∧ tGood (ni w) !! Layer (pBase (ni w)) = Some (pBase (ni w))).
Proof. intros Hvalid Hw. exact (reachable_frontier_settled rangeOrder Hvalid w Hw). Qed.

Lemma frontier_is_complete_and_good_witness :
  validOrder listedOrder
  ∧ reachable listedOrder (after listedOrder chain3 (newWorld 1))
  ∧ (pBase (ni (after listedOrder chain3 (newWorld 1))) = mkPattern 0 0
     ∨ (pBase (ni (after listedOrder chain3 (newWorld 1)))
          ∈ tComplete (ni (after listedOrder chain3 (newWorld 1)))
        ∧ tGood (ni (after listedOrder chain3 (newWorld 1)))
            !! Layer (pBase (ni (after listedOrder chain3 (newWorld 1))))
          = Some (pBase (ni (after listedOrder chain3 (newWorld 1)))))).
Proof.
  split; [apply listedOrder_valid|]. split; [exact chain3_reachable|].
  exact (frontier_is_complete_and_good listedOrder _ listedOrder_valid chain3_reachable).
Defined.

(** X15.  In every world an engine can reach, a call for layer [i] leaves the
    frontier where it is or moves it to a pattern of a layer below [i],
    also when the call panics. *)
Theorem UpdateTables_frontier_below_call_layer rangeOrder w B i :
  validOrder rangeOrder → reachable rangeOrder w → 0 ≤ i ≤ maxUint32 →
  pBase (ni (finalWorld (UpdateTables rangeOrder B i w))) = pBase (ni w)
  ∨ Layer (pBase (ni (finalWorld (UpdateTables rangeOrder B i w)))) < i.
Proof.
  intros Hvalid Hw Hi.
  pose proof (UpdateTables_below rangeOrder Hvalid B i w
                (reachable_frontier_wf rangeOrder w Hvalid Hw) Hi) as Hspec.
  unfold wp in Hspec. by destruct (UpdateTables rangeOrder B i w).
Qed.

Lemma UpdateTables_frontier_below_call_layer_witness :
  validOrder listedOrder
  ∧ reachable listedOrder (after listedOrder chain2 (newWorld 1))
  ∧ 0 ≤ 2 ≤ maxUint32
  ∧ (pBase (ni (finalWorld (UpdateTables listedOrder [block12] 2
                              (after listedOrder chain2 (newWorld 1)))))
     = pBase (ni (after listedOrder chain2 (newWorld 1)))
     ∨ Layer (pBase (ni (finalWorld (UpdateTables listedOrder [block12] 2
                                       (after listedOrder chain2 (newWorld 1)))))) < 2).
Proof.
  assert (Hi : 0 ≤ 2 ≤ maxUint32) by (vm_compute; split; discriminate).
  split; [apply listedOrder_valid|]. split; [exact chain2_reachable|]. split; [exact Hi|].
  exact (UpdateTables_frontier_below_call_layer listedOrder _ [block12] 2
           listedOrder_valid chain2_reachable Hi).
Defined.

(** * Termination *)

(** X18.  In every world an engine can reach, a call of [UpdateTables] ends: it
    returns, or it panics on an unknown block, a nil pointer or a nil map.
    The traversals never need more rounds than they are given, and no
    [uint32] loop counter is asked to pass the largest [uint32]. *)
Theorem UpdateTables_terminates rangeOrder w B i :
  validOrder rangeOrder → reachable rangeOrder w → 0 ≤ i ≤ maxUint32 →
  (∃ l w', UpdateTables rangeOrder B i w = Ok l w')
  ∨ (∃ e w', UpdateTables rangeOrder B i w = Panic e w'
             ∧ (e = UnknownBlock ∨ e = NilDeref ∨ e = NilMapWrite)).
Proof.
  intros Hvalid Hw Hi.
  pose proof (UpdateTables_fuel_suffices rangeOrder B i w) as Hfuel.
  pose proof (λ w', UpdateTables_never_diverges rangeOrder Hvalid B i w w' Hw Hi) as Hloop.
  destruct (UpdateTables rangeOrder B i w) as [l w'|e w']; [left; eauto|].
  right. exists e, w'. split; [done|].
  destruct e; auto.
  - by destruct (Hloop w').
  - by destruct (Hfuel w').
Qed.

Lemma UpdateTables_terminates_witness :
  validOrder listedOrder
  ∧ reachable listedOrder (after listedOrder chain2 (newWorld 1))
  ∧ 0 ≤ 2 ≤ maxUint32
  ∧ ((∃ l w', UpdateTables listedOrder [block12] 2 (after listedOrder chain2 (newWorld 1))
              = Ok l w')
     ∨ (∃ e w', UpdateTables listedOrder [block12] 2 (after listedOrder chain2 (newWorld 1))
                = Panic e w'
                ∧ (e = UnknownBlock ∨ e = NilDeref ∨ e = NilMapWrite))).
Proof.
  assert (Hi : 0 ≤ 2 ≤ maxUint32) by (vm_compute; split; discriminate).
  split; [apply listedOrder_valid|]. split; [exact chain2_reachable|]. split; [exact Hi|].
  exact (UpdateTables_terminates listedOrder _ [block12] 2
           listedOrder_valid chain2_reachable Hi).
Defined.

(** * Traversals *)

Lemma logVisit_keeps_blocks b c : keeps blocks (logVisit b c).
Proof. intros w. reflexivity. Qed.

Lemma logVisit_fuelSafe b c : fuelSafe (logVisit b c).
Proof. intros w w' H. discriminate H. Qed.

Lemma forBlockInView_returns_only_on_stored_view_witness :
  (∀ b c, keeps blocks (logVisit b c))
  ∧ ∃ r w',
      forBlockInView [7] 0 logVisit [] (after listedOrder ladder (newWorld 100)) = Ok r w'
      ∧ ∀ a, inView (blocks (ni (after listedOrder ladder (newWorld 100)))) [7] 0 a →
             is_Some (blocks (ni (after listedOrder ladder (newWorld 100))) !! a).
Proof.
  split; [exact logVisit_keeps_blocks|]. eexists _, _. split; [vm_compute; reflexivity|].
  eapply (forBlockInView_returns_only_on_stored_view logVisit [7] 0 []
            (after listedOrder ladder (newWorld 100))); [exact logVisit_keeps_blocks|].
  vm_compute. reflexivity.
Defined.

Lemma forBlockInView_ends_witness :
  (∀ b c, keeps blocks (logVisit b c)) ∧ (∀ b c, fuelSafe (logVisit b c))
  ∧ (∀ w', forBlockInView [7] 0 logVisit [] (after listedOrder ladder (newWorld 100))
           ≠ Panic OutOfFuel w')
  ∧ ∀ extra,
      bfsLoop (length [7] + size (edgeTargets (blocks (ni (after listedOrder ladder (newWorld 100)))))
               + extra) 0 logVisit (reverse [7]) ∅ ∅ [] (after listedOrder ladder (newWorld 100))
      = forBlockInView [7] 0 logVisit [] (after listedOrder ladder (newWorld 100)).
Proof.
  split; [exact logVisit_keeps_blocks|]. split; [exact logVisit_fuelSafe|].
  exact (forBlockInView_ends logVisit [7] 0 [] (after listedOrder ladder (newWorld 100))
           logVisit_keeps_blocks logVisit_fuelSafe).
Defined.

(** * The votes of one layer, the visitor of updatePatternTally *)

Lemma chain4_reachable : reachable listedOrder (after listedOrder chain4 (newWorld 1)).
Proof.
  apply (reachable_call listedOrder _ [block13] 3); [|vm_compute; split; discriminate].
  exact chain3_reachable.
Qed.

Lemma voteLayer_votes_on_whole_layer_witness :
  blocks_keyed (ni (after listedOrder chain3 (newWorld 1)))
  ∧ layerBlocks (ni (after listedOrder chain3 (newWorld 1))) !! 0 = Some [10]
  ∧ ∃ flag' w',
      voteLayer pattern11 ∅ true 0 (after listedOrder chain3 (newWorld 1)) = Ok flag' w'
      ∧ flag' = true
      ∧ lookup2 (tPatSupport (ni w')) pattern11 0 = Some (mkPattern (getId [10]) 0)
      ∧ ∀ bid, bid ∈ [10] →
          (∃ a, lookup2 (tVote (ni w')) pattern11 bid = Some a
                ∧ (a = Support ∨ a = Against ∨ a = Abstain))
          ∧ (lookup2 (tTally (ni (after listedOrder chain3 (newWorld 1)))) pattern11 bid = None →
             lookup2 (tTally (ni w')) pattern11 bid = Some Against).
Proof.
  assert (Hkeyed : blocks_keyed (ni (after listedOrder chain3 (newWorld 1)))).
  { exact (reachable_blocks_keyed listedOrder _ chain3_reachable). }
  assert (Hlayer : layerBlocks (ni (after listedOrder chain3 (newWorld 1))) !! 0 = Some [10])
    by (vm_compute; reflexivity).
  split; [exact Hkeyed|]. split; [exact Hlayer|].
  eexists _, _. split; [vm_compute; reflexivity|].
  apply (voteLayer_votes_on_whole_layer pattern11 ∅ true 0
           (after listedOrder chain3 (newWorld 1)) _ _ [10] Hkeyed Hlayer).
  vm_compute. reflexivity.
Defined.

Lemma updatePatternTally_needs_effective_patterns_witness :
  ∃ w',
    updatePatternTally pattern11 pattern12 (after listedOrder chain4 (newWorld 1)) = Ok tt w'
    ∧ ∀ a, inView (blocks (ni (after listedOrder chain4 (newWorld 1))))
             (default [] (tPattern (ni (after listedOrder chain4 (newWorld 1))) !! pattern12))
             (Layer pattern11) a →
           ∃ nb e, blocks (ni (after listedOrder chain4 (newWorld 1))) !! a = Some nb
                   ∧ tEffective (ni (after listedOrder chain4 (newWorld 1))) !! nbID nb
                     = Some (Some e).
Proof.
  eexists. split; [vm_compute; reflexivity|].
  eapply (updatePatternTally_needs_effective_patterns pattern11 pattern12
            (after listedOrder chain4 (newWorld 1))).
  vm_compute. reflexivity.
Defined.

(** * Properties of the proposal tracker *)

(** * The order on byte slices *)

Lemma byte_to_N_inj x y : Byte.to_N x = Byte.to_N y → x = y.
Proof.
  intros H. apply (f_equal Byte.of_N) in H. rewrite !Byte.of_to_N in H. by injection H.
Qed.

Lemma bytesCompare_range a b :
  bytesCompare a b = -1 ∨ bytesCompare a b = 0 ∨ bytesCompare a b = 1.
Proof.
  revert b. induction a as [|x a IH]; intros [|y b]; simpl; auto.
  destruct (N.compare _ _); auto.
Qed.

Lemma bytesCompare_antisym a b : bytesCompare b a = - bytesCompare a b.
Proof.
  revert b. induction a as [|x a IH]; intros [|y b]; simpl; try done.
  rewrite (N.compare_antisym (Byte.to_N x) (Byte.to_N y)).
  destruct (N.compare (Byte.to_N x) (Byte.to_N y)); simpl; auto.
Qed.

Lemma bytesCompare_eq a b : bytesCompare a b = 0 ↔ a = b.
Proof.
  revert b. induction a as [|x a IH]; intros [|y b]; simpl; try done.
  destruct (N.compare_spec (Byte.to_N x) (Byte.to_N y)) as [Heq|Hlt|Hgt].
  - apply byte_to_N_inj in Heq as ->. rewrite IH. split; [by intros ->|by intros [= ->]].
  - split; [done|]. intros [= -> _]. lia.
  - split; [done|]. intros [= -> _]. lia.
Qed.



Section HareProofs.
Variable hareSet : Type.
Variable NewSet : list (list Byte.byte) → hareSet.
Variable Equals : hareSet → hareSet → bool.

End HareProofs.


Lemma OnLateProposal_step {hareSet} (NewSet : list (list Byte.byte) → hareSet)
    (Equals : hareSet → hareSet → bool) msg pt pt' :
  OnLateProposal hareSet NewSet Equals msg pt = Returns pt' →
  proposal pt' = proposal pt ∧ (isConflicting pt = true → isConflicting pt' = true).
Proof.
  unfold OnLateProposal, equivocates, compareRoleProofs. intros Hrun.
  repeat case_match; simplify_eq/=; auto.
Qed.

(** X22.  Late proposals never change the recorded proposal and never clear a
    conflict: whatever late proposals a tracker is handed, it ends with the
    proposal it had, and if it was conflicting it still is, so that
    [ProposedSet] returns nil. *)
Theorem OnLateProposal_never_clears_conflict {hareSet} (NewSet : list (list Byte.byte) → hareSet)
    (Equals : hareSet → hareSet → bool) msgs pt pt' :
  onEach (OnLateProposal hareSet NewSet Equals) msgs pt = Returns pt' →
  proposal pt' = proposal pt
  ∧ (isConflicting pt = true →
     isConflicting pt' = true ∧ ProposedSet hareSet NewSet pt' = Returns None).
Proof.
  revert pt. induction msgs as [|m msgs IH]; intros pt Hrun; simpl in Hrun.
  - injection Hrun as <-. split; [done|]. intros Hc. split; [done|].
    unfold ProposedSet. rewrite Hc. by destruct (proposal pt).
  - destruct (OnLateProposal hareSet NewSet Equals (Some m) pt) as [pt1|] eqn:Hstep;
      [|discriminate Hrun].
    apply OnLateProposal_step in Hstep as [Hp Hc].
    apply IH in Hrun as [Hp' Hc']. split; [congruence|]. auto.
Qed.


Lemma OnLateProposal_never_clears_conflict_witness :
  ∃ pt',
    onEach (OnLateProposal (list (list Byte.byte)) (λ v, v) sameValues) [leaderB; leaderA]
      (mkTracker (Some leaderA) true)
    = Returns pt'
    ∧ proposal pt' = proposal (mkTracker (Some leaderA) true)
    ∧ (isConflicting (mkTracker (Some leaderA) true) = true →
       isConflicting pt' = true
       ∧ ProposedSet (list (list Byte.byte)) (λ v, v) pt' = Returns None).
Proof.
  eexists. split; [vm_compute; reflexivity|].
  apply (OnLateProposal_never_clears_conflict (λ v, v) sameValues [leaderB; leaderA]).
  vm_compute. reflexivity.
Defined.

(** * Properties of the connection pool *)

(** X23.  When two connections to the same remote node arrive at a pool that
    has none for it, and their session identifiers differ, the pool ends
    the same whichever arrives first: it keeps the connection with the
    greater session identifier and closes the other one.  The goroutines
    that wait for the node are sent the connection that arrived first,
    also when that is the one closed afterwards.  If the two connections
    have different identifiers, handling the closing of the closed one
    leaves the kept one in the pool. *)
Theorem handleNewConnection_keeps_greater_session rPub c1 c2 src1 src2 cp :
  readers cp = 0%nat → connections cp !! rPub = None → sessionID c1 ≠ sessionID c2 →
  let final := set_pending (delete rPub (pending cp))
                 (set_connections (<[rPub := greater c1 c2]> (connections cp)) cp) in
  let waiting := default [] (pending cp !! rPub) in
  andThen (handleNewConnection rPub c1 src1 cp) (λ _, handleNewConnection rPub c2 src2)
  = Done tt final (((λ p, Sends p (mkDial (Some c1) None)) <$> waiting) ++ [Closes (lesser c1 c2)])
  ∧ andThen (handleNewConnection rPub c2 src2 cp) (λ _, handleNewConnection rPub c1 src1)
    = Done tt final (((λ p, Sends p (mkDial (Some c2) None)) <$> waiting) ++ [Closes (lesser c1 c2)])
  ∧ (connID c1 ≠ connID c2 → RemotePublicKey (lesser c1 c2) = rPub →
     handleClosedConnection (lesser c1 c2) final = Done tt final []).
Proof.
  intros Hr Hnone Hne final waiting.
  assert (Hcmp : compareConnections c1 c2 ≠ 0).
  { unfold compareConnections. by rewrite bytesCompare_eq. }
  assert (Hanti : compareConnections c2 c1 = - compareConnections c1 c2).
  { apply bytesCompare_antisym. }
  unfold final, waiting, greater, lesser, handleNewConnection, handleClosedConnection,
    handleDialResult, andThen, withLock.
  destruct cp as [cs ps sd rd ch]. simpl in *. subst rd. rewrite Hnone. simpl.
  rewrite !lookup_insert_eq, Hanti.
  destruct (compareConnections c1 c2 <=? 0) eqn:H12.
  - apply Z.leb_le in H12.
    destruct (- compareConnections c1 c2 <=? 0) eqn:H21; [apply Z.leb_le in H21; lia|].
    simpl. rewrite !insert_insert_eq. split_and!; try done.
    intros Hid <-. rewrite lookup_insert_eq. rewrite decide_False by done. done.
  - apply Z.leb_gt in H12.
    destruct (- compareConnections c1 c2 <=? 0) eqn:H21; [|apply Z.leb_gt in H21; lia].
    simpl. rewrite !insert_insert_eq. split_and!; try done.
    intros Hid <-. rewrite lookup_insert_eq. rewrite decide_False by done. done.
Qed.

Lemma getConnections_waiting addresses remotePub : ∀ cp,
  shutdown cp = false → connections cp !! remotePub = None →
  is_Some (pending cp !! remotePub) →
  getConnections addresses remotePub cp
  = Done (Awaits <$> seq (channels cp) (length addresses))
      (set_pending (<[remotePub := default [] (pending cp !! remotePub)
                                   ++ seq (channels cp) (length addresses)]> (pending cp))
         (set_channels (channels cp + length addresses)%nat cp))
      [].
Proof.
  induction addresses as [|a addresses IH]; intros cp Hs Hc [ws Hp].
  - simpl. rewrite Hp. simpl. rewrite app_nil_r, insert_id by done.
    destruct cp; simpl in *. by rewrite Nat.add_0_r.
  - simpl. unfold GetConnection at 1. rewrite Hs, Hc, Hp. simpl.
    rewrite IH; simpl; [|done|done|by rewrite lookup_insert_eq].
    rewrite lookup_insert_eq, insert_insert_eq. simpl. rewrite <- app_assoc. simpl.
    unfold set_pending, set_channels. simpl. do 3 f_equal. lia.
Qed.

(** X24.  Dials are not repeated.  At a pool that is not shut down and has
    neither a connection to a remote node nor a goroutine waiting for one,
    any number of calls of [GetConnection] for that node start one dial,
    that of the first call; every caller is handed a channel of its own to
    wait on.  When the dial returns a connection, the connection is stored,
    each of these channels is sent that connection once, in the order of
    the calls, and nobody is left waiting. *)
Theorem GetConnection_dials_once first rest remotePub c cp :
  shutdown cp = false → readers cp = 0%nat →
  connections cp !! remotePub = None → pending cp !! remotePub = None →
  let waiting := seq (channels cp) (S (length rest)) in
  ∃ final,
    andThen (getConnections (first :: rest) remotePub cp)
      (λ _, dialReturns remotePub (inl c))
    = Done tt final
        (Dials first remotePub :: ((λ p, Sends p (mkDial (Some c) None)) <$> waiting))
    ∧ getConnections (first :: rest) remotePub cp
      = Done (Awaits <$> waiting)
          (set_pending (<[remotePub := waiting]> (pending cp))
             (set_channels (channels cp + S (length rest))%nat cp))
          [Dials first remotePub]
    ∧ connections final = <[remotePub := c]> (connections cp)
    ∧ pending final = pending cp
    ∧ readers final = 0%nat.
Proof.
  intros Hs Hr Hc Hp waiting.
  assert (Hrun : getConnections (first :: rest) remotePub cp
                 = Done (Awaits <$> waiting)
                     (set_pending (<[remotePub := waiting]> (pending cp))
                        (set_channels (channels cp + S (length rest))%nat cp))
                     [Dials first remotePub]).
  { simpl. unfold GetConnection at 1. rewrite Hs, Hc, Hp. simpl.
    rewrite getConnections_waiting; simpl; [|done|done|by rewrite lookup_insert_eq].
    rewrite lookup_insert_eq, insert_insert_eq. simpl.
    unfold set_pending, set_channels. simpl. do 3 f_equal. lia. }
  eexists. split; [|split; [exact Hrun|]].
  - rewrite Hrun. unfold andThen, dialReturns, handleNewConnection, withLock. simpl.
    rewrite Hr, Hc. unfold handleDialResult. simpl. rewrite lookup_insert_eq. simpl.
    reflexivity.
  - simpl. split; [done|]. split; [|done].
    rewrite delete_insert_eq. by apply delete_id.
Qed.

(** X25.  [GetConnectionIfExists] gives the read lock of [connMutex] back on
    every path but one: when the pool is not shut down and has neither a
    connection to the remote node nor a goroutine waiting for one, it
    returns "no connection in cpool" and keeps the read lock.  From then
    on, as long as nobody gives that lock back, the methods that take the
    write lock wait. *)
Theorem GetConnectionIfExists_keeps_read_lock remotePub cp :
  (∀ r cp' events, GetConnectionIfExists remotePub cp = Done r cp' events →
     (r = Answers (mkDial None (Some ErrNoConnection)) ∧ readers cp' = S (readers cp))
     ∨ (r ≠ Answers (mkDial None (Some ErrNoConnection)) ∧ readers cp' = readers cp))
  ∧ (shutdown cp = false ∧ connections cp !! remotePub = None ∧ pending cp !! remotePub = None
     ↔ ∃ cp', GetConnectionIfExists remotePub cp
              = Done (Answers (mkDial None (Some ErrNoConnection))) cp' []
              ∧ (∀ rPub c source, handleNewConnection rPub c source cp' = Blocked)
              ∧ (∀ c, handleClosedConnection c cp' = Blocked))
  ∧ (∀ address r cp' events, GetConnection address remotePub cp = Done r cp' events →
       readers cp' = readers cp).
Proof.
  split_and!.
  - intros r cp' events. unfold GetConnectionIfExists.
    repeat case_match; intros [= <- <- <-]; simpl; auto.
  - split.
    + intros (Hs & Hc & Hp). eexists. unfold GetConnectionIfExists. rewrite Hs, Hc, Hp.
      split; [reflexivity|]. split; done.
    + intros (cp' & Hrun & _). unfold GetConnectionIfExists in Hrun.
      repeat case_match; simplify_eq/=; done.
  - intros address r cp' events. unfold GetConnection.
    repeat case_match; intros [= <- <- <-]; simpl; auto.
Qed.

Lemma handleNewConnection_keeps_greater_session_witness :
  readers NewConnectionPool = 0%nat ∧ connections NewConnectionPool !! peerKey = None
  ∧ sessionID connA ≠ sessionID connB
  ∧ andThen (handleNewConnection peerKey connA Local NewConnectionPool)
      (λ _, handleNewConnection peerKey connB Remote)
    = Done tt (set_pending (delete peerKey (pending NewConnectionPool))
                 (set_connections (<[peerKey := greater connA connB]>
                                     (connections NewConnectionPool)) NewConnectionPool))
        (((λ p, Sends p (mkDial (Some connA) None))
            <$> default [] (pending NewConnectionPool !! peerKey))
         ++ [Closes (lesser connA connB)]).
Proof.
  assert (Hne : sessionID connA ≠ sessionID connB) by discriminate.
  split; [reflexivity|]. split; [reflexivity|]. split; [exact Hne|].
  exact (proj1 (handleNewConnection_keeps_greater_session peerKey connA connB Local Remote
                  NewConnectionPool eq_refl eq_refl Hne)).
Defined.

Lemma GetConnection_dials_once_witness :
  shutdown NewConnectionPool = false ∧ readers NewConnectionPool = 0%nat
  ∧ connections NewConnectionPool !! peerKey = None
  ∧ pending NewConnectionPool !! peerKey = None
  ∧ ∃ final,
      andThen (getConnections ([Byte.x31] :: [[Byte.x32]]) peerKey NewConnectionPool)
        (λ _, dialReturns peerKey (inl connA))
      = Done tt final
          (Dials [Byte.x31] peerKey
           :: ((λ p, Sends p (mkDial (Some connA) None))
                 <$> seq (channels NewConnectionPool) (S (length [[Byte.x32]]))))
      ∧ getConnections ([Byte.x31] :: [[Byte.x32]]) peerKey NewConnectionPool
        = Done (Awaits <$> seq (channels NewConnectionPool) (S (length [[Byte.x32]])))
            (set_pending (<[peerKey := seq (channels NewConnectionPool) (S (length [[Byte.x32]]))]>
                            (pending NewConnectionPool))
               (set_channels (channels NewConnectionPool + S (length [[Byte.x32]]))%nat
                  NewConnectionPool))
            [Dials [Byte.x31] peerKey]
      ∧ connections final = <[peerKey := connA]> (connections NewConnectionPool)
      ∧ pending final = pending NewConnectionPool
      ∧ readers final = 0%nat.
Proof.
  split; [reflexivity|]. split; [reflexivity|]. split; [reflexivity|]. split; [reflexivity|].
  exact (GetConnection_dials_once [Byte.x31] [[Byte.x32]] peerKey connA NewConnectionPool
           eq_refl eq_refl eq_refl eq_refl).
Defined.
